(** * Validating portfolio optimisation solvers (chapter 6, section 6.3.1)

    A shallow embedding of [code/chapter6/chapter6_3_1.ipynb].  The notebook
    builds three optimisation problems over the same moments (target return,
    target risk, target risk with a tracking-error bound), hands them to
    external solvers and prints validation figures.

    Floating-point arrays are modelled over the real numbers: a 1-D array
    and a column array of shape (I, 1) are both a [list R], a 2-D array is
    the list of its rows.  Array operations are total functions; where numpy
    raises on a shape mismatch the model truncates, and the theorems carry
    the shapes as hypotheses; [CVX.conformable] states the shapes that the
    solver requires of a whole program.

    The external routines ([scipy.linalg.cholesky], [cvxopt.solvers.socp],
    [fortitudo.tech.MeanVariance]) are not part of the notebook.  Their
    return values are parameters of the model, constrained by the documented
    contract of each routine, in exact arithmetic; a call may also raise. *)

From Stdlib Require Import String Reals List Lia Lra Psatz.
Import ListNotations.
Local Open Scope R_scope.

(** ** numpy and cvxopt array operations *)

Module NP.

Abbreviation vec := (list R).
Abbreviation mat := (list (list R)).

(** [np.zeros(n)], [np.ones(n)], [np.zeros((m, n))], [np.ones((m, n))]. *)
Definition zeros (n : nat) : vec := repeat 0 n.
Definition ones (n : nat) : vec := repeat 1 n.
Definition zeros2 (m n : nat) : mat := repeat (zeros n) m.
Definition ones2 (m n : nat) : mat := repeat (ones n) m.

(** [np.eye(n)], row by row. *)
Fixpoint eye (n : nat) : mat :=
  match n with
  | O => []
  | S k => (1 :: zeros k) :: map (cons 0) (eye k)
  end.

(** Elementwise arithmetic on arrays of the same shape. *)
Fixpoint zipWith {X Y Z : Type} (f : X -> Y -> Z) (l1 : list X) (l2 : list Y)
  : list Z :=
  match l1, l2 with
  | x :: l1', y :: l2' => f x y :: zipWith f l1' l2'
  | _, _ => []
  end.

Definition vadd (u v : vec) : vec := zipWith Rplus u v.
Definition vsub (u v : vec) : vec := zipWith Rminus u v.
Definition vscale (a : R) (v : vec) : vec := map (Rmult a) v.
Definition vneg (v : vec) : vec := map Ropp v.
Definition vdiv (v : vec) (a : R) : vec := map (fun x => x / a) v.
Definition mscale (a : R) (M : mat) : mat := map (vscale a) M.
Definition mneg (M : mat) : mat := map vneg M.

(** [u @ v] for two 1-D arrays (or a row and a column).  numpy and cvxopt
    raise when the two lengths differ; [dot] (and with it [matvec] and
    [zipWith]) then stops at the shorter operand, so it is the product of
    the code only on operands of one length.  The results below state the
    lengths, and [CVX.conformable] states the shapes of a whole program. *)
Fixpoint dot (u v : vec) : R :=
  match u, v with
  | a :: u', b :: v' => a * b + dot u' v'
  | _, _ => 0
  end.

(** [M @ v] for a 2-D array and a column. *)
Definition matvec (M : mat) (v : vec) : vec := map (fun r => dot r v) M.

(** [w.T @ M] for a column [w] and a 2-D array with [n] columns: the
    combination of the rows of [M] with the coefficients [w]. *)
Fixpoint vecmat (n : nat) (w : vec) (M : mat) : vec :=
  match w, M with
  | a :: w', r :: M' => vadd (vscale a r) (vecmat n w' M')
  | _, _ => zeros n
  end.

(** [M.T] for a 2-D array with [n] columns. *)
Fixpoint transpose (n : nat) (M : mat) : mat :=
  match M with
  | [] => repeat [] n
  | r :: M' => zipWith cons r (transpose n M')
  end.

(** [A @ B] for 2-D arrays, [B] with [n] columns. *)
Definition mmul (n : nat) (A B : mat) : mat := map (fun r => vecmat n r B) A.

(** [np.hstack] of two 1-D arrays, of two 2-D arrays, and [np.vstack]. *)
Definition hstack1 (u v : vec) : vec := u ++ v.
Definition hstack (M N : mat) : mat := zipWith (@app R) M N.
Definition vstack (M N : mat) : mat := M ++ N.

(** [np.abs] and [np.max]; [np.max] raises on an empty array. *)
Definition np_abs (v : vec) : vec := map Rabs v.
Definition np_max (v : vec) : option R :=
  match v with
  | [] => None
  | x :: v' => Some (fold_left Rmax v' x)
  end.

(** Slice assignment on a cvxopt matrix: [M[r0:, c0:c0+w] = B], where [w]
    is the width of the rows of [B]. *)
Definition set_cols (c0 : nat) (row blk : vec) : vec :=
  firstn c0 row ++ blk ++ skipn (c0 + length blk) row.

Fixpoint set_rows (c0 : nat) (M B : mat) : mat :=
  match M, B with
  | r :: M', blk :: B' => set_cols c0 r blk :: set_rows c0 M' B'
  | _, _ => M
  end.

Definition set_block (r0 c0 : nat) (M B : mat) : mat :=
  firstn r0 M ++ set_rows c0 (skipn r0 M) B.

(** Item assignment [v[i] = a]. *)
Fixpoint set_item (i : nat) (a : R) (v : vec) : vec :=
  match v, i with
  | [], _ => []
  | _ :: v', O => a :: v'
  | x :: v', S j => x :: set_item j a v'
  end.

(** Shapes. *)
Definition is_vec (n : nat) (v : vec) : Prop := length v = n.
Definition is_mat (m n : nat) (M : mat) : Prop :=
  length M = m /\ Forall (is_vec n) M.

End NP.
Import NP.

(** [w.T @ S @ w] for a column [w] of [n] entries, evaluated left to right
    as numpy does; the notebook takes its entry [[0, 0]]. *)
Definition quad_form (n : nat) (S : mat) (w : vec) : R := dot (vecmat n w S) w.

(** ** External routines *)

(** Python exceptions that the modelled cells can raise, and the result of
    a cell that may raise. *)
Inductive exn : Type := TypeError | ValueError.

Inductive result (X : Type) : Type :=
| Ok (x : X)
| Raise (e : exn).
Arguments Ok {X} x.
Arguments Raise {X} e.

(** What [np.array] builds from the solver's ['x'] entry: an array of
    floats, or, from [None], a 0-d object array that holds [None]. *)
Inductive ndarray : Type :=
| Floats (v : vec)
| ObjectNone.

Module Cholesky.

(** Upper-triangular matrices of order [n] with a positive diagonal: the
    first row is [d :: r], every later row starts with [0]. *)
Inductive upper_pos : nat -> mat -> Prop :=
| upper_pos_nil : upper_pos 0 []
| upper_pos_cons (n : nat) (d : R) (r : vec) (U : mat) :
    0 < d -> is_vec n r -> upper_pos n U ->
    upper_pos (S n) ((d :: r) :: map (cons 0) U).

(** Modelled from the spec: [scipy.linalg.cholesky] is an external routine,
    the glossary and section 3 give its contract.  [U] is a value that
    [cholesky(a)] returns for the matrix [a] of order [n]: an
    upper-triangular factor with [U.T @ U = a]. *)
Definition is_cholesky (n : nat) (a U : mat) : Prop :=
  upper_pos n U /\ mmul n (transpose n U) U = a.

(** Symmetric positive definite matrices of order [n], the matrices that
    [cholesky] accepts. *)
Definition symmetric (n : nat) (a : mat) : Prop := transpose n a = a.

Definition pos_def (n : nat) (a : mat) : Prop :=
  forall v, length v = n -> v <> zeros n -> 0 < quad_form n a v.

Definition spd (n : nat) (a : mat) : Prop :=
  is_mat n n a /\ symmetric n a /\ pos_def n a.

(** Symmetric matrices by their shape: a first row [a :: r], the same [r]
    as first column, and a symmetric remainder. *)
Inductive sym : nat -> mat -> Prop :=
| sym_nil : sym 0 []
| sym_cons (n : nat) (a : R) (r : vec) (B : mat) :
    is_vec n r -> sym n B -> sym (S n) ((a :: r) :: zipWith cons r B).

(** The factorisation in its outer-product form, a reference for what the
    routine computes: the first row of the factor is [(a :: r) / sqrt a],
    the rest is the factor of the remainder [B - c r^T / a], where [c] is
    the first column below [a]. *)
Definition schur (a : R) (c r : vec) (B : mat) : mat :=
  zipWith (fun cj Bj => vsub Bj (vscale (cj / a) r)) c B.

Fixpoint factor (n : nat) (A : mat) : mat :=
  match n, A with
  | S k, (a :: r) :: A' =>
      (sqrt a :: vscale (/ sqrt a) r)
      :: map (cons 0) (factor k (schur a r r (map (@tl R) A')))
  | _, _ => []
  end.

End Cholesky.

Module CVX.

(** The ['status'] entry of the dictionary that the solver returns. *)
Inductive status : Type :=
| optimal
| primal_infeasible
| dual_infeasible
| unknown.

(** The entries of that dictionary which the notebook can read; ['x'] is
    [None] when the solver reports primal infeasibility. *)
Record solution : Type := {
  sol_status : status;
  sol_x : option vec
}.

(** The arguments of [socp(c, Gl, hl, Gq, hq, A, b)]. *)
Record cone_program : Type := {
  c : vec;
  Gl : mat;
  hl : vec;
  Gq : list mat;
  hq : list vec;
  A : mat;
  b : vec
}.

(** The second-order cone: the first entry bounds the Euclidean norm of
    the others. *)
Definition in_soc (s : vec) : Prop :=
  match s with
  | [] => False
  | s0 :: s1 => sqrt (dot s1 s1) <= s0
  end.

(** Modelled from the spec: the cone-program solver is an external
    routine, section 6 gives its contract.  [x] satisfies the linear
    inequalities [Gl x <= hl], every cone block (the slack [hq_k - Gq_k x]
    lies in the second-order cone: its first row is the bound, the other
    rows the vector part) and the equalities [A x = b]. *)
Definition feasible (P : cone_program) (x : vec) : Prop :=
  length x = length (c P) /\
  Forall2 Rle (matvec (Gl P) x) (hl P) /\
  Forall2 (fun Gk hk => in_soc (vsub hk (matvec Gk x))) (Gq P) (hq P) /\
  matvec (A P) x = b P.

Definition minimiser (P : cone_program) (x : vec) : Prop :=
  feasible P x /\ forall y, feasible P y -> dot (c P) x <= dot (c P) y.

(** Modelled from the spec: the solver's output (section 6): a status and,
    if optimal, a solution vector, which minimises the objective over the
    feasible set.  With status [primal_infeasible] there is no vector and
    no feasible point; with status [unknown] the entry holds the last
    iterate, of which nothing is known but its length.  For status
    [dual_infeasible] section 6 says nothing about the entry, and nothing
    is assumed of it. *)
Definition socp_contract (P : cone_program) (s : solution) : Prop :=
  match sol_status s with
  | optimal => exists x, sol_x s = Some x /\ minimiser P x
  | primal_infeasible => sol_x s = None /\ forall x, ~ feasible P x
  | dual_infeasible => True
  | unknown => exists x, sol_x s = Some x /\ length x = length (c P)
  end.

(** Modelled from the spec: the shapes that the solver requires of its
    arguments (sections 3 and 6): with [n] the number of rows of [c], at
    least one, every block has [n] columns, [hl] has as many rows as [Gl]
    and [b] as many as [A], there is one [hq_k] for each [Gq_k], and each
    [Gq_k] has at least one row and as many as [hq_k]. *)
Definition conformable (P : cone_program) : Prop :=
  let n := length (c P) in
  (0 < n)%nat /\
  Forall (is_vec n) (Gl P) /\ length (hl P) = length (Gl P) /\
  Forall2 (fun Gk hk =>
             Gk <> [] /\ Forall (is_vec n) Gk /\ length hk = length Gk)
    (Gq P) (hq P) /\
  Forall (is_vec n) (A P) /\ length (b P) = length (A P).

(** Modelled from the spec: a call [socp(...)] as a cell sees it.  It
    raises, or it returns a dictionary; it returns only for arguments of
    the shapes it requires, and what it returns meets the contract. *)
Definition socp (P : cone_program) (out : result solution) : Prop :=
  match out with
  | Ok s => conformable P /\ socp_contract P s
  | Raise _ => True
  end.

(** The same program with another objective vector. *)
Definition with_objective (P : cone_program) (c' : vec) : cone_program :=
  {| c := c'; Gl := Gl P; hl := hl P; Gq := Gq P; hq := hq P;
     A := A P; b := b P |}.

End CVX.

Module MeanVariance.

Section Contract.
Variable I : nat.
Variables (means : vec) (cov : mat) (G : mat) (h : vec).

(** The constraint set of [ft.MeanVariance(means, cov, G, h)] with a return
    target: the inequalities [G w <= h], the budget [sum w = 1] that the
    class adds when no equality is given, and the return row. *)
Definition feasible (return_target : R) (w : vec) : Prop :=
  is_vec I w /\
  Forall2 Rle (matvec G w) h /\
  dot (ones I) w = 1 /\
  return_target <= dot means w.

(** Modelled from the spec: [ft.MeanVariance.efficient_portfolio] belongs to
    the external fortitudo.tech package; section 4.1 gives its contract:
    least variance subject to [G w <= h], the budget and the return
    target, which it allows as an equality or as [means w >= r].  The
    package appends the return row to the inequality block, so the
    inequality is modelled; [efficient_portfolio_eq] below is the other
    reading.  [e] is a value that [efficient_portfolio(return_target)]
    returns. *)
Definition efficient_portfolio (return_target : R) (e : vec) : Prop :=
  feasible return_target e /\
  forall y, feasible return_target y -> quad_form I cov e <= quad_form I cov y.

(** The constraint set without a return target, and the minimum-variance
    portfolio, which [efficient_portfolio()] returns when called with no
    target. *)
Definition admissible (w : vec) : Prop :=
  is_vec I w /\ Forall2 Rle (matvec G w) h /\ dot (ones I) w = 1.

Definition minimum_variance (m : vec) : Prop :=
  admissible m /\
  forall y, admissible y -> quad_form I cov m <= quad_form I cov y.

(** Modelled from the spec: the other reading that section 4.1 allows, the
    return target as the equality [means w = r]. *)
Definition feasible_eq (return_target : R) (w : vec) : Prop :=
  admissible w /\ dot means w = return_target.

Definition efficient_portfolio_eq (return_target : R) (e : vec) : Prop :=
  feasible_eq return_target e /\
  forall y, feasible_eq return_target y ->
            quad_form I cov e <= quad_form I cov y.

End Contract.

End MeanVariance.

(** ** The notebook, cell by cell *)

(** [scalar = 100], the constant that conditions every block of a solve. *)
Definition scalar : R := 100.

(** Cells 2 to 4: the constraints (long-only, 25% upper bounds) and the
    return target of the base case. *)
Module Data.

Section Cells.
Variable I : nat.

Definition G : mat := vstack (eye I) (mneg (eye I)).
Definition h : vec := hstack1 (vscale 0.25 (ones I)) (zeros I).
Definition return_target : R := 0.05.

(** Cell 7, first line: the equal-weight benchmark. *)
Definition e_bm : vec := vdiv (ones I) (INR I).

End Cells.

End Data.

(** Cell 5: target risk optimisation.  [G] and [h] are the constraints the
    [MeanVariance] object was built with. *)
Module TargetRisk.

Section Cells.
Variable I : nat.
Variables (means : vec) (cov : mat) (G : mat) (h : vec).

(** [risk_target = np.sqrt(e_star.T @ cov @ e_star)[0, 0]]. *)
Definition risk_target (e_star : vec) : R := sqrt (quad_form I cov e_star).

(** [A = matrix(np.ones((1, I)))] and [b = matrix(np.array([1.]))]. *)
Definition A : mat := ones2 1 I.
Definition b : vec := [1].

(** [L = -cholesky(scalar**2 * cov)], where [U] is what [cholesky]
    returned. *)
Definition L (U : mat) : mat := mneg U.

(** [Gq = [matrix(np.zeros((I + 1, I)))]] after [Gq[0][1:, 0:] = L]. *)
Definition Gq (L : mat) : list mat :=
  [set_block 1 0 (zeros2 (I + 1) I) L].

(** [hq = [matrix(np.zeros(I + 1))]] after
    [hq[0][0] = risk_target * scalar]. *)
Definition hq (risk_target : R) : list vec :=
  [set_item 0 (risk_target * scalar) (zeros (I + 1))].

(** The objective [-means * scalar]. *)
Definition objective (means : vec) : vec := map (fun m => - m * scalar) means.

(** The arguments of the call to [socp]. *)
Definition program (L : mat) (risk_target : R) : CVX.cone_program :=
  {| CVX.c := objective means;
     CVX.Gl := G;
     CVX.hl := h;
     CVX.Gq := Gq L;
     CVX.hq := hq risk_target;
     CVX.A := A;
     CVX.b := b |}.

(** [np.array(socp(...)['x'])]: the status is not read. *)
Definition e_star_risk (sol : CVX.solution) : result ndarray :=
  match CVX.sol_x sol with
  | Some x => Ok (Floats x)
  | None => Ok ObjectNone
  end.

(** The same statement from the outcome of the call: an exception of
    [socp] leaves the cell. *)
Definition e_star_risk_of (out : result CVX.solution) : result ndarray :=
  match out with
  | Ok sol => e_star_risk sol
  | Raise e => Raise e
  end.

End Cells.

End TargetRisk.

(** Cells 7 to 10: target risk with a tracking-error constraint.  [G] and
    [h] are the constraints of cell 3, [L] and [risk_target] the values of
    cell 5, [e_star_risk] its solution and [e_bm] the benchmark. *)
Module TrackingError.

Section Cells.
Variable I : nat.
Variables (means : vec) (cov : mat) (G_prev : mat) (h : vec).
Variables (e_star_risk e_bm : vec).
Variable L : mat.
Variable risk_target : R.

(** Cell 7. *)
Definition te_pf : vec := vsub e_star_risk e_bm.
Definition te_target : R := sqrt (quad_form I cov te_pf).

(** Cell 8. *)
Definition benchmark_relation : mat := hstack (eye I) (mneg (eye I)).
Definition A : mat := vstack [hstack1 (ones I) (zeros I)] benchmark_relation.
Definition b : vec := 1 :: e_bm.
Definition G : mat := hstack G_prev (zeros2 (length G_prev) I).

(** Cell 9. *)
Definition Gq_base : mat := zeros2 (I + 1) (2 * I).
Definition Gq2 : list mat :=
  [set_block 1 0 Gq_base L; set_block 1 I Gq_base L].
Definition hq2 (te_target : R) : list vec :=
  [set_item 0 (risk_target * scalar) (zeros (I + 1));
   set_item 0 (te_target * scalar) (zeros (I + 1))].

(** Cell 10. *)
Definition means2 : vec := hstack1 means (zeros I).

Definition program (te_target : R) : CVX.cone_program :=
  {| CVX.c := TargetRisk.objective means2;
     CVX.Gl := G;
     CVX.hl := h;
     CVX.Gq := Gq2;
     CVX.hq := hq2 te_target;
     CVX.A := A;
     CVX.b := b |}.

(** [np.array(socp(...)['x'][0:I])]: slicing [None] raises. *)
Definition e_star_dual_risk (sol : CVX.solution) : result ndarray :=
  match CVX.sol_x sol with
  | Some x => Ok (Floats (firstn I x))
  | None => Raise TypeError
  end.

(** The same statement from the outcome of the call. *)
Definition e_star_dual_risk_of (out : result CVX.solution) : result ndarray :=
  match out with
  | Ok sol => e_star_dual_risk sol
  | Raise e => Raise e
  end.

End Cells.

End TrackingError.

(** Cells 6 and 11: the validation figures that the notebook prints. *)
Module Validation.

Section Cells.
Variable I : nat.
Variables (means : vec) (cov : mat).

(** [np.max(np.abs(w - ref))]. *)
Definition max_abs_exposure_difference (w ref : vec) : result R :=
  match np_max (np_abs (vsub w ref)) with
  | Some d => Ok d
  | None => Raise ValueError
  end.

(** [np.sqrt(w.T @ cov @ w)[0, 0]]. *)
Definition portfolio_volatility (w : vec) : R := sqrt (quad_form I cov w).

(** [te_pf_opt = w - e_bm] and [np.sqrt(te_pf_opt.T @ cov @ te_pf_opt)[0, 0]]. *)
Definition te_pf_opt (w e_bm : vec) : vec := vsub w e_bm.
Definition tracking_error_volatility (w e_bm : vec) : R :=
  sqrt (quad_form I cov (te_pf_opt w e_bm)).

(** [(means @ w)[0]]. *)
Definition expected_return (w : vec) : R := dot means w.

(** The figures of one validation cell; the tracking error is printed by
    cell 11 only. *)
Record report : Type := {
  rep_difference : R;
  rep_volatility : R;
  rep_tracking_error : option R;
  rep_return : R
}.

(** Cell 6: the target-risk solution against the base case. *)
Definition validate_risk (e_star_risk e_star : vec) : result report :=
  match max_abs_exposure_difference e_star_risk e_star with
  | Ok d =>
      Ok {| rep_difference := d;
            rep_volatility := portfolio_volatility e_star_risk;
            rep_tracking_error := None;
            rep_return := expected_return e_star_risk |}
  | Raise e => Raise e
  end.

(** Cell 11: the tracking-error solution against the target-risk one. *)
Definition validate_dual_risk (e_star_dual_risk e_star_risk e_bm : vec)
  : result report :=
  match max_abs_exposure_difference e_star_dual_risk e_star_risk with
  | Ok d =>
      Ok {| rep_difference := d;
            rep_volatility := portfolio_volatility e_star_dual_risk;
            rep_tracking_error :=
              Some (tracking_error_volatility e_star_dual_risk e_bm);
            rep_return := expected_return e_star_dual_risk |}
  | Raise e => Raise e
  end.

End Cells.

End Validation.

(** ** The validation figures as the specification words them

    Section 4.5 of the specification gives each figure by its formula over
    the entries; these definitions follow it, for comparison with the
    array expressions of cells 6 and 11. *)
Module Spec.

(** The sum of [f i] over the indices [0 <= i < n]. *)
Fixpoint sum_upto (n : nat) (f : nat -> R) : R :=
  match n with
  | O => 0
  | S k => f O + sum_upto k (fun i => f (S i))
  end.

Definition coord (v : vec) (i : nat) : R := nth i v 0.
Definition entry (S : mat) (i j : nat) : R := nth j (nth i S []) 0.

(** [v^T S v], a double sum over the entries. *)
Definition quadratic (I : nat) (S : mat) (v : nat -> R) : R :=
  sum_upto I (fun i => sum_upto I (fun j => v i * entry S i j * v j)).

Definition realized_volatility (I : nat) (cov : mat) (w : vec) : R :=
  sqrt (quadratic I cov (coord w)).

Definition realized_return (I : nat) (means w : vec) : R :=
  sum_upto I (fun i => coord means i * coord w i).

Definition realized_tracking_error (I : nat) (cov : mat) (w benchmark : vec)
  : R :=
  sqrt (quadratic I cov (fun i => coord w i - coord benchmark i)).

(** [d] is the maximum absolute elementwise difference of [w] and [ref]:
    it is attained at some index and bounds the difference at every
    index. *)
Definition is_max_abs_difference (I : nat) (w ref : vec) (d : R) : Prop :=
  (exists i, (i < I)%nat /\ d = Rabs (coord w i - coord ref i)) /\
  forall i, (i < I)%nat -> Rabs (coord w i - coord ref i) <= d.

End Spec.

(** ** The two-asset scenario

    Two assets, long-only and fully invested, with a return target of 5%.
    [U] is the Cholesky factor of [scalar**2 * cov], [e_star] the base-case
    portfolio and [e_bm] the equal-weight benchmark [np.ones((2, 1)) / 2]. *)
Module TwoAssets.

Definition means : vec := [0.08; 0.02].
Definition cov : mat := [[0.04; 0]; [0; 0.01]].
Definition G : mat := mneg (eye 2).
Definition h : vec := zeros 2.
Definition return_target : R := 0.05.
Definition U : mat := [[20; 0]; [0; 10]].
Definition e_star : vec := [0.5; 0.5].
Definition e_bm : vec := Data.e_bm 2.

(** The arguments of the two calls to [socp] and an optimal answer to
    each. *)
Definition program : CVX.cone_program :=
  TargetRisk.program 2 means G h (TargetRisk.L U)
    (TargetRisk.risk_target 2 cov e_star).

Definition solution : CVX.solution :=
  {| CVX.sol_status := CVX.optimal; CVX.sol_x := Some e_star |}.

Definition program2 : CVX.cone_program :=
  TrackingError.program 2 means G h e_bm (TargetRisk.L U)
    (TargetRisk.risk_target 2 cov e_star)
    (TrackingError.te_target 2 cov e_star e_bm).

Definition solution2 : CVX.solution :=
  {| CVX.sol_status := CVX.optimal;
     CVX.sol_x := Some (e_star ++ vsub e_star e_bm) |}.

(** The same with a benchmark that is not the base-case portfolio: the
    tracking-error target is then positive and the auxiliary block of the
    solution is [0.2, -0.2]. *)
Definition tilted_benchmark : vec := [0.3; 0.7].

Definition program3 : CVX.cone_program :=
  TrackingError.program 2 means G h tilted_benchmark (TargetRisk.L U)
    (TargetRisk.risk_target 2 cov e_star)
    (TrackingError.te_target 2 cov e_star tilted_benchmark).

Definition solution3 : CVX.solution :=
  {| CVX.sol_status := CVX.optimal;
     CVX.sol_x := Some (e_star ++ vsub e_star tilted_benchmark) |}.

(** The call of cell 5 with a risk target of 5%, below the volatility of
    every fully invested long-only portfolio, and the solver's answer; and
    an answer of a solver that stopped at its iteration limit. *)
Definition infeasible_program : CVX.cone_program :=
  TargetRisk.program 2 means G h (TargetRisk.L U) 0.05.

Definition infeasible_solution : CVX.solution :=
  {| CVX.sol_status := CVX.primal_infeasible; CVX.sol_x := None |}.

Definition unknown_solution : CVX.solution :=
  {| CVX.sol_status := CVX.unknown; CVX.sol_x := Some [0.6; 0.4] |}.

End TwoAssets.

(** * The allocation table (cell 12)

    [np.hstack], [np.round] and the [pd.DataFrame] constructor as the cell
    uses them. *)

Module Table.

(** A column array of shape (I, 1) seen as a 2-D array. *)
Definition as_column (v : vec) : mat := map (fun x => [x]) v.

(** [np.hstack] of a tuple of 2-D arrays: it raises on an empty tuple and
    on arrays with different numbers of rows. *)
Definition np_hstack (Ms : list mat) : result mat :=
  match Ms with
  | [] => Raise ValueError
  | M :: rest =>
      if forallb (fun N => Nat.eqb (length N) (length M)) rest
      then Ok (fold_left hstack rest M)
      else Raise ValueError
  end.

(** [np.rint]: the nearest integer, ties to the even one. *)
Definition rint (x : R) : Z :=
  let f := Zfloor x in
  let d := x - IZR f in
  if Rlt_dec d (1 / 2) then f
  else if Rlt_dec (1 / 2) d then (f + 1)%Z
  else if Z.even f then f else (f + 1)%Z.

(** [np.round(x, decimals)], which numpy computes as
    [rint(x * 10**decimals) / 10**decimals]; here over the reals, as the
    rest of the arithmetic. *)
Definition np_round (x : R) (decimals : nat) : R :=
  IZR (rint (x * 10 ^ decimals)) / 10 ^ decimals.

(** A [pd.DataFrame] built from a 2-D array with an index and column
    labels; the constructor raises when the labels do not fit the shape. *)
Record DataFrame : Type := {
  df_index : list string;
  df_columns : list string;
  df_values : mat
}.

Definition make_frame (values : mat) (index columns : list string)
  : result DataFrame :=
  if (Nat.eqb (length index) (length values)
      && forallb (fun row => Nat.eqb (length row) (length columns)) values)%bool
  then Ok {| df_index := index; df_columns := columns; df_values := values |}
  else Raise ValueError.

(** Cell 12: the four portfolios side by side, in percent with two
    decimals. *)
Definition columns : list string :=
  ["Target return"%string; "Target risk"%string;
   "Target risk and tracking error"%string; "Benchmark"%string].

Definition results (e_star e_star_risk e_star_dual_risk e_bm : vec)
  : result mat :=
  np_hstack [as_column e_star; as_column e_star_risk;
             as_column e_star_dual_risk; as_column e_bm].

Definition allocation (names : list string)
  (e_star e_star_risk e_star_dual_risk e_bm : vec) : result DataFrame :=
  match results e_star e_star_risk e_star_dual_risk e_bm with
  | Ok res =>
      make_frame (map (map (fun x => np_round (100 * x) 2)) res) names columns
  | Raise e => Raise e
  end.

End Table.

(** * Properties *)

(** ** Tactics *)

(** Evaluation of the array operations on explicit arrays. *)
Ltac np_eval :=
  cbv [quad_form mmul mscale mneg matvec vecmat transpose dot eye
       vadd vsub vscale vneg vdiv hstack hstack1 vstack zipWith
       zeros2 ones2 zeros ones np_abs np_max set_block set_rows set_cols
       set_item map repeat app firstn skipn length fold_left
       Nat.add Nat.mul] in *.

(** Equality of explicit arrays, entry by entry. *)
Ltac arr_eq :=
  lazymatch goal with
  | |- @eq R _ _ => lra
  | |- _ :: _ = _ :: _ => apply f_equal2; [arr_eq | arr_eq]
  | |- [] = [] => reflexivity
  end.

(** ** Array algebra *)

Section ArrayFacts.

Lemma zipWith_length {X Y Z : Type} (f : X -> Y -> Z) l1 l2 :
  length l1 = length l2 -> length (zipWith f l1 l2) = length l1.
Proof.
  revert l2; induction l1 as [|x l1 IH]; intros [|y l2] Hl; simpl in *;
    try discriminate; auto.
Qed.

Lemma zeros_length n : length (zeros n) = n.
Proof. apply repeat_length. Qed.

Lemma ones_length n : length (ones n) = n.
Proof. apply repeat_length. Qed.

Lemma vadd_length u v : length u = length v -> length (vadd u v) = length u.
Proof. apply zipWith_length. Qed.

Lemma vsub_length u v : length u = length v -> length (vsub u v) = length u.
Proof. apply zipWith_length. Qed.

Lemma vscale_length a v : length (vscale a v) = length v.
Proof. apply length_map. Qed.

Lemma vneg_length v : length (vneg v) = length v.
Proof. apply length_map. Qed.

Lemma matvec_length M v : length (matvec M v) = length M.
Proof. apply length_map. Qed.

Lemma dot_nil_r u : dot u [] = 0.
Proof. destruct u; reflexivity. Qed.

Lemma dot_comm u v : dot u v = dot v u.
Proof.
  revert v; induction u as [|a u IH]; intros [|b v]; simpl; auto.
  rewrite IH; ring.
Qed.

Lemma dot_zeros_l n v : dot (zeros n) v = 0.
Proof.
  revert v; induction n as [|n IH]; intros [|b v]; simpl; auto.
  rewrite IH; ring.
Qed.

Lemma dot_zeros_r n u : dot u (zeros n) = 0.
Proof. rewrite dot_comm; apply dot_zeros_l. Qed.

Lemma dot_vscale_l a u v : dot (vscale a u) v = a * dot u v.
Proof.
  revert v; induction u as [|x u IH]; intros [|y v]; simpl; try ring.
  rewrite IH; ring.
Qed.

Lemma dot_vscale_r a u v : dot u (vscale a v) = a * dot u v.
Proof. rewrite dot_comm, dot_vscale_l, dot_comm; reflexivity. Qed.

Lemma dot_vneg_l u v : dot (vneg u) v = - dot u v.
Proof.
  revert v; induction u as [|x u IH]; intros [|y v]; simpl; try ring.
  rewrite IH; ring.
Qed.

Lemma dot_vneg_r u v : dot u (vneg v) = - dot u v.
Proof. rewrite dot_comm, dot_vneg_l, dot_comm; reflexivity. Qed.

Lemma dot_vadd_r u v w :
  length v = length w -> dot u (vadd v w) = dot u v + dot u w.
Proof.
  revert v w; induction u as [|a u IH]; intros [|x v] [|y w] Hl; simpl in *;
    try discriminate; try ring.
  fold (vadd v w); rewrite (IH v w) by congruence; ring.
Qed.

Lemma dot_vadd_l u v w :
  length u = length v -> dot (vadd u v) w = dot u w + dot v w.
Proof.
  intros Hl; rewrite dot_comm, dot_vadd_r by exact Hl.
  rewrite (dot_comm w u), (dot_comm w v); reflexivity.
Qed.

Lemma dot_vsub_r u v w :
  length v = length w -> dot u (vsub v w) = dot u v - dot u w.
Proof.
  revert v w; induction u as [|a u IH]; intros [|x v] [|y w] Hl; simpl in *;
    try discriminate; try ring.
  fold (vsub v w); rewrite (IH v w) by congruence; ring.
Qed.

Lemma dot_vsub_l u v w :
  length u = length v -> dot (vsub u v) w = dot u w - dot v w.
Proof.
  intros Hl; rewrite dot_comm, dot_vsub_r by exact Hl.
  rewrite (dot_comm w u), (dot_comm w v); reflexivity.
Qed.

Lemma dot_app u1 u2 v1 v2 :
  length u1 = length v1 ->
  dot (u1 ++ u2) (v1 ++ v2) = dot u1 v1 + dot u2 v2.
Proof.
  revert v1; induction u1 as [|a u1 IH]; intros [|x v1] Hl; simpl in *;
    try discriminate; try ring.
  rewrite IH by congruence; ring.
Qed.

Lemma dot_self_nonneg u : 0 <= dot u u.
Proof.
  induction u as [|a u IH]; simpl; [lra|].
  pose proof (Rle_0_sqr a) as Ha; unfold Rsqr in Ha; lra.
Qed.

Lemma dot_self_zero u : dot u u = 0 -> u = zeros (length u).
Proof.
  induction u as [|a u IH]; simpl; intros H0; [reflexivity|].
  pose proof (dot_self_nonneg u) as Hu.
  pose proof (Rle_0_sqr a) as Ha; unfold Rsqr in Ha.
  assert (a * a = 0) by lra.
  assert (a = 0) by (apply Rmult_integral in H; tauto).
  subst a; unfold zeros; simpl; f_equal; apply IH; lra.
Qed.

Lemma matvec_vadd M v w :
  length v = length w -> matvec M (vadd v w) = vadd (matvec M v) (matvec M w).
Proof.
  intros Hl; induction M as [|r M IH]; simpl; [reflexivity|].
  rewrite dot_vadd_r by exact Hl.
  unfold vadd, matvec in *; simpl; rewrite IH; reflexivity.
Qed.

Lemma matvec_vsub M v w :
  length v = length w -> matvec M (vsub v w) = vsub (matvec M v) (matvec M w).
Proof.
  intros Hl; induction M as [|r M IH]; simpl; [reflexivity|].
  rewrite dot_vsub_r by exact Hl.
  unfold vsub, matvec in *; simpl; rewrite IH; reflexivity.
Qed.

Lemma matvec_vscale M a v : matvec M (vscale a v) = vscale a (matvec M v).
Proof.
  induction M as [|r M IH]; simpl; [reflexivity|].
  rewrite dot_vscale_r, IH; reflexivity.
Qed.

Lemma matvec_mneg M v : matvec (mneg M) v = vneg (matvec M v).
Proof.
  induction M as [|r M IH]; simpl; [reflexivity|].
  rewrite dot_vneg_l, IH; reflexivity.
Qed.

Lemma matvec_mscale a M v : matvec (mscale a M) v = vscale a (matvec M v).
Proof.
  induction M as [|r M IH]; simpl; [reflexivity|].
  rewrite dot_vscale_l, IH; reflexivity.
Qed.

Lemma matvec_map_cons0 M a v : matvec (map (cons 0) M) (a :: v) = matvec M v.
Proof.
  induction M as [|r M IH]; simpl; [reflexivity|].
  rewrite IH; f_equal; ring.
Qed.

Lemma matvec_eye n v : length v = n -> matvec (eye n) v = v.
Proof.
  revert v; induction n as [|n IH]; intros [|a v] Hl; simpl in *;
    try discriminate; [reflexivity|].
  rewrite dot_zeros_l, matvec_map_cons0, IH by congruence.
  f_equal; ring.
Qed.

Lemma matvec_hstack M N v w :
  length M = length N -> Forall (is_vec (length v)) M ->
  matvec (hstack M N) (v ++ w) = vadd (matvec M v) (matvec N w).
Proof.
  revert N; induction M as [|r M IH]; intros [|s N] Hl HM; simpl in *;
    try discriminate; [reflexivity|].
  inversion HM as [|? ? Hr HM']; subst.
  rewrite dot_app by exact Hr.
  unfold vadd, hstack, matvec in *; simpl; f_equal.
  apply IH; [congruence | assumption].
Qed.

Lemma vadd_zeros_r v : vadd v (zeros (length v)) = v.
Proof.
  unfold vadd, zeros; induction v as [|a v IH]; simpl; [reflexivity|].
  rewrite IH; f_equal; ring.
Qed.

Lemma eye_length n : length (eye n) = n.
Proof.
  induction n as [|n IH]; simpl; [reflexivity|].
  f_equal; rewrite length_map; exact IH.
Qed.

Lemma eye_rows n : Forall (is_vec n) (eye n).
Proof.
  induction n as [|n IH]; simpl; constructor.
  - unfold is_vec; simpl; rewrite zeros_length; reflexivity.
  - apply Forall_forall; intros row Hin.
    apply in_map_iff in Hin; destruct Hin as (row' & <- & Hin').
    rewrite Forall_forall in IH; specialize (IH _ Hin').
    unfold is_vec in *; simpl; congruence.
Qed.

End ArrayFacts.

(** ** Products, transposes and quadratic forms *)

Section ProductFacts.

Lemma vecmat_length n w M :
  Forall (is_vec n) M -> length (vecmat n w M) = n.
Proof.
  intros HM; revert w; induction HM as [|r M Hr HM IH]; intros [|a w]; simpl;
    try apply zeros_length.
  rewrite vadd_length; rewrite vscale_length; [exact Hr|].
  rewrite IH; exact Hr.
Qed.

Lemma dot_vecmat n w M v :
  Forall (is_vec n) M -> dot (vecmat n w M) v = dot w (matvec M v).
Proof.
  intros HM; revert w; induction HM as [|r M Hr HM IH]; intros [|a w]; simpl;
    try apply dot_zeros_l.
  rewrite dot_vadd_l, dot_vscale_l, IH; [reflexivity|].
  rewrite vscale_length, vecmat_length by exact HM; exact Hr.
Qed.

Lemma quad_form_dot n S w :
  Forall (is_vec n) S -> quad_form n S w = dot w (matvec S w).
Proof. intros HS; unfold quad_form; apply dot_vecmat; exact HS. Qed.

Lemma matvec_mmul n M N w :
  Forall (is_vec n) N -> matvec (mmul n M N) w = matvec M (matvec N w).
Proof.
  intros HN; induction M as [|r M IH]; simpl; [reflexivity|].
  rewrite dot_vecmat by exact HN; rewrite IH; reflexivity.
Qed.

Lemma mmul_shape n M N :
  Forall (is_vec n) N -> Forall (is_vec n) (mmul n M N).
Proof.
  intros HN; induction M as [|r M IH]; simpl; constructor; auto.
  apply vecmat_length; exact HN.
Qed.

Lemma mscale_shape n a M :
  Forall (is_vec n) (mscale a M) -> Forall (is_vec n) M.
Proof.
  induction M as [|r M IH]; simpl; intros HM; constructor;
    inversion HM as [|? ? Hr HM']; subst.
  - unfold is_vec in *; rewrite vscale_length in Hr; exact Hr.
  - apply IH; exact HM'.
Qed.

Lemma transpose_length n M :
  Forall (is_vec n) M -> length (transpose n M) = n.
Proof.
  induction 1 as [|r M Hr HM IH]; simpl; [apply repeat_length|].
  rewrite zipWith_length; [exact Hr|].
  transitivity n; [exact Hr | symmetry; exact IH].
Qed.

Lemma matvec_nil_r M : matvec M [] = zeros (length M).
Proof.
  induction M as [|r M IH]; simpl; [reflexivity|].
  rewrite dot_nil_r, IH; reflexivity.
Qed.

Lemma matvec_repeat_nil n u : matvec (repeat [] n) u = zeros n.
Proof. induction n as [|n IH]; simpl; [|rewrite IH]; reflexivity. Qed.

Lemma matvec_zipWith_cons r T a u :
  length r = length T ->
  matvec (zipWith cons r T) (a :: u) = vadd (vscale a r) (matvec T u).
Proof.
  unfold vadd, vscale, matvec.
  revert T; induction r as [|x r IH]; intros [|t T] Hl; simpl in *;
    try discriminate; [reflexivity|].
  f_equal; [ring | apply IH; congruence].
Qed.

(** The transpose is the adjoint of a matrix for the dot product. *)
Lemma dot_matvec_transpose n M u v :
  Forall (is_vec n) M ->
  dot (matvec (transpose n M) u) v = dot u (matvec M v).
Proof.
  intros HM; revert u; induction HM as [|r M Hr HM IH]; intros u; simpl.
  - rewrite matvec_repeat_nil, dot_zeros_l, dot_nil_r; reflexivity.
  - destruct u as [|a u]; simpl.
    + rewrite matvec_nil_r; apply dot_zeros_l.
    + rewrite matvec_zipWith_cons
        by (rewrite transpose_length by exact HM; exact Hr).
      rewrite dot_vadd_l, dot_vscale_l, IH; [reflexivity|].
      rewrite vscale_length, matvec_length, transpose_length by exact HM.
      exact Hr.
Qed.

(** [w . (M.T @ M) w] is the squared norm of [M w]. *)
Lemma dot_gram n M w :
  Forall (is_vec n) M ->
  dot w (matvec (mmul n (transpose n M) M) w)
  = dot (matvec M w) (matvec M w).
Proof.
  intros HM; rewrite matvec_mmul by exact HM.
  rewrite dot_comm; apply dot_matvec_transpose; exact HM.
Qed.

(** The quadratic form of a half sum and of a half difference. *)
Lemma quad_form_midpoint n S x e :
  Forall (is_vec n) S -> length x = length e ->
  quad_form n S (vscale (1 / 2) (vadd x e))
  + quad_form n S (vscale (1 / 2) (vsub x e))
  = (quad_form n S x + quad_form n S e) / 2.
Proof.
  intros HS Hl; rewrite !quad_form_dot by exact HS.
  rewrite !matvec_vscale, !dot_vscale_l, !dot_vscale_r.
  rewrite matvec_vadd, matvec_vsub by exact Hl.
  assert (Hm : length (matvec S x) = length (matvec S e))
    by (rewrite !matvec_length; reflexivity).
  rewrite dot_vadd_l, dot_vsub_l by exact Hl.
  rewrite !dot_vadd_r, !dot_vsub_r by exact Hm.
  field.
Qed.

End ProductFacts.

(** ** The sign of the factor *)

Section NegatedFactor.

Lemma vscale_opp_vneg a r : vscale (- a) (vneg r) = vscale a r.
Proof.
  unfold vscale, vneg; rewrite map_map; apply map_ext; intros x; ring.
Qed.

Lemma vecmat_vneg_mneg n w M : vecmat n (vneg w) (mneg M) = vecmat n w M.
Proof.
  revert M; induction w as [|a w IH]; intros [|r M]; simpl; auto.
  fold (vneg w); fold (mneg M); rewrite IH, vscale_opp_vneg; reflexivity.
Qed.

Lemma zipWith_cons_vneg r T :
  zipWith cons (vneg r) (mneg T) = mneg (zipWith cons r T).
Proof.
  unfold vneg, mneg; revert T; induction r as [|a r IH]; intros [|t T];
    simpl; auto.
  rewrite IH; reflexivity.
Qed.

Lemma mneg_repeat_nil n : mneg (repeat [] n) = repeat [] n.
Proof. unfold mneg; induction n as [|n IH]; simpl; [|rewrite IH]; reflexivity. Qed.

Lemma transpose_mneg n M : transpose n (mneg M) = mneg (transpose n M).
Proof.
  induction M as [|r M IH]; simpl; [symmetry; apply mneg_repeat_nil|].
  fold (mneg M); fold (vneg r); rewrite IH; apply zipWith_cons_vneg.
Qed.

(** The sign of the factor cancels in [L.T @ L]. *)
Lemma mmul_transpose_mneg n M :
  mmul n (transpose n (mneg M)) (mneg M) = mmul n (transpose n M) M.
Proof.
  rewrite transpose_mneg; unfold mmul.
  change (mneg (transpose n M)) with (map vneg (transpose n M)).
  rewrite map_map; apply map_ext; intros r; apply vecmat_vneg_mneg.
Qed.

End NegatedFactor.

(** ** The Cholesky factor and the covariance *)

Section CholeskyFacts.

Import Cholesky.

Lemma upper_pos_rows n U : upper_pos n U -> Forall (is_vec n) U.
Proof.
  induction 1 as [|n d r U Hd Hr HU IH]; constructor.
  - unfold is_vec in *; simpl; congruence.
  - apply Forall_forall; intros row Hin.
    apply in_map_iff in Hin; destruct Hin as (row' & <- & Hin').
    rewrite Forall_forall in IH; specialize (IH _ Hin').
    unfold is_vec in *; simpl; congruence.
Qed.

Lemma upper_pos_length n U : upper_pos n U -> length U = n.
Proof.
  induction 1 as [|n d r U Hd Hr HU IH]; simpl; [reflexivity|].
  f_equal; rewrite length_map; exact IH.
Qed.

(** A triangular factor with a positive diagonal has a trivial kernel. *)
Lemma upper_pos_kernel n U w :
  upper_pos n U -> length w = n -> matvec U w = zeros n -> w = zeros n.
Proof.
  intros HU; revert w; induction HU as [|n d r U Hd Hr HU IH];
    intros [|a w] Hl H0; simpl in *; try discriminate; [reflexivity|].
  rewrite matvec_map_cons0 in H0.
  injection H0 as Hhead Htail. injection Hl as Hl.
  fold (zeros n) in Htail.
  rewrite (IH w Hl Htail) in *.
  rewrite dot_zeros_r in Hhead.
  assert (a = 0) by nra.
  subst a; reflexivity.
Qed.

Lemma pow2_pos (s : R) : s <> 0 -> 0 < s ^ 2.
Proof.
  intros Hs; simpl; rewrite Rmult_1_r.
  destruct (Rtotal_order s 0) as [Hlt|[Heq|Hgt]]; [nra | contradiction | nra].
Qed.

Section Factor.
Variables (n : nat) (s : R) (cov U : mat).
Hypothesis HU : is_cholesky n (mscale (s ^ 2) cov) U.

Lemma cholesky_cov_rows : Forall (is_vec n) cov.
Proof.
  destruct HU as [Hup Hprod].
  apply (mscale_shape n (s ^ 2)); rewrite <- Hprod.
  apply mmul_shape, upper_pos_rows; exact Hup.
Qed.

(** [s^2 (w.T cov w) = |U w|^2]. *)
Lemma cholesky_quad_form w :
  s ^ 2 * quad_form n cov w = dot (matvec U w) (matvec U w).
Proof.
  destruct HU as [Hup Hprod].
  rewrite quad_form_dot by exact cholesky_cov_rows.
  rewrite <- dot_vscale_r, <- matvec_mscale, <- Hprod.
  apply dot_gram, upper_pos_rows; exact Hup.
Qed.

Lemma cholesky_quad_form_nonneg w : s <> 0 -> 0 <= quad_form n cov w.
Proof.
  intros Hs; pose proof (cholesky_quad_form w) as Hq.
  pose proof (dot_self_nonneg (matvec U w)) as Hn.
  assert (0 < s ^ 2) by (apply pow2_pos; exact Hs).
  nra.
Qed.

(** The covariance is positive definite. *)
Lemma cholesky_quad_form_definite w :
  s <> 0 -> length w = n -> quad_form n cov w <= 0 -> w = zeros n.
Proof.
  intros Hs Hl Hq; pose proof (cholesky_quad_form w) as Hc.
  pose proof (dot_self_nonneg (matvec U w)) as Hn.
  assert (0 < s ^ 2) by (apply pow2_pos; exact Hs).
  assert (Hz : dot (matvec U w) (matvec U w) = 0) by nra.
  apply dot_self_zero in Hz; rewrite matvec_length in Hz.
  destruct HU as [Hup _].
  rewrite (upper_pos_length _ _ Hup) in Hz.
  apply (upper_pos_kernel n U); assumption.
Qed.

(** The norm of [L w], for [L = -U], is the scaled volatility. *)
Lemma cholesky_norm w :
  0 < s ->
  sqrt (dot (matvec (mneg U) w) (matvec (mneg U) w))
  = s * sqrt (quad_form n cov w).
Proof.
  intros Hs; rewrite matvec_mneg, dot_vneg_l, dot_vneg_r, Ropp_involutive.
  rewrite <- cholesky_quad_form.
  rewrite sqrt_mult_alt by (apply pow2_ge_0).
  rewrite sqrt_pow2 by lra; reflexivity.
Qed.

End Factor.

End CholeskyFacts.

(** ** Every symmetric positive definite matrix has a factor *)

Section CholeskyExistence.

Import Cholesky.

Lemma zipWith_cons_hd_tl k (M : mat) :
  Forall (is_vec (S k)) M -> M = zipWith cons (map (hd 0) M) (map (@tl R) M).
Proof.
  induction 1 as [|row M Hrow HM IH]; simpl; [reflexivity|].
  destruct row as [|x row]; [discriminate Hrow|].
  simpl; rewrite <- IH; reflexivity.
Qed.

Lemma map_tl_rows k (M : mat) :
  Forall (is_vec (S k)) M -> Forall (is_vec k) (map (@tl R) M).
Proof.
  induction 1 as [|row M Hrow HM IH]; simpl; constructor; [|exact IH].
  destruct row; [discriminate Hrow|]; unfold is_vec in *; simpl in *; lia.
Qed.

Lemma map_tl_zipWith_cons (c : vec) (B : mat) :
  length c = length B -> map (@tl R) (zipWith cons c B) = B.
Proof.
  revert B; induction c as [|x c IH]; intros [|row B] Hl; simpl in *;
    try discriminate; [reflexivity|].
  rewrite IH by congruence; reflexivity.
Qed.

Lemma transpose_zipWith_cons k (c : vec) (B : mat) :
  length c = length B ->
  transpose (S k) (zipWith cons c B) = c :: transpose k B.
Proof.
  revert B; induction c as [|x c IH]; intros [|row B] Hl; simpl in *;
    try discriminate; [reflexivity|].
  rewrite IH by congruence; reflexivity.
Qed.

Lemma zipWith_cons_inj (r r' : vec) (T B : mat) :
  length r = length T -> length r' = length B ->
  zipWith cons r T = zipWith cons r' B -> r = r' /\ T = B.
Proof.
  revert r' T B; induction r as [|x r IH]; intros [|x' r'] [|t T] [|b B] HT HB Heq;
    simpl in *; try discriminate; [split; reflexivity|].
  injection Heq as Hx Ht Hrest.
  destruct (IH r' T B) as [Hr HTB]; [lia | lia | exact Hrest |].
  subst; split; reflexivity.
Qed.

Lemma zipWith_cons_rows k (r : vec) (B : mat) :
  Forall (is_vec k) B -> Forall (is_vec (S k)) (zipWith cons r B).
Proof.
  intros HB; revert r; induction HB as [|row B Hrow HB IH]; intros [|x r];
    simpl; constructor; [|apply IH].
  unfold is_vec in *; simpl; congruence.
Qed.

Lemma sym_rows n A : sym n A -> is_mat n n A.
Proof.
  induction 1 as [|n a r B Hr HB [HBl HBr]]; [split; constructor|].
  unfold is_vec in *; split.
  - simpl; rewrite zipWith_length; lia.
  - constructor; [unfold is_vec; simpl; lia|].
    apply zipWith_cons_rows; exact HBr.
Qed.

(** A matrix equal to its transpose has the symmetric shape. *)
Lemma symmetric_sym n A : is_mat n n A -> symmetric n A -> sym n A.
Proof.
  revert A; induction n as [|k IH]; intros A [Hl Hrows] Hsym.
  - destruct A; [constructor | discriminate Hl].
  - destruct A as [|row0 A']; [discriminate Hl|].
    inversion Hrows as [|? ? Hrow0 Hrows']; subst.
    destruct row0 as [|a r]; [discriminate Hrow0|].
    assert (Hr : length r = k) by (unfold is_vec in Hrow0; simpl in Hrow0; lia).
    assert (HlA : length A' = k) by (simpl in Hl; lia).
    pose proof (zipWith_cons_hd_tl k A' Hrows') as HA'.
    pose proof (map_tl_rows k A' Hrows') as HB.
    set (c := map (hd 0) A') in *; set (B := map (@tl R) A') in *.
    assert (Hc : length c = k) by (unfold c; rewrite length_map; exact HlA).
    assert (HBl : length B = k) by (unfold B; rewrite length_map; exact HlA).
    unfold symmetric in Hsym; simpl in Hsym.
    rewrite HA' in Hsym at 1.
    rewrite transpose_zipWith_cons in Hsym by congruence.
    simpl in Hsym; injection Hsym as Hcr Hrest.
    rewrite HA' in Hrest.
    apply zipWith_cons_inj in Hrest;
      [| rewrite transpose_length by exact HB; exact Hr | congruence].
    destruct Hrest as [_ HBsym].
    rewrite HA', Hcr; apply sym_cons; [exact Hr|].
    apply IH; [split; [exact HBl | exact HB] | exact HBsym].
Qed.


Lemma schur_length a c r B :
  length c = length B -> length (schur a c r B) = length B.
Proof. intros Hl; unfold schur; rewrite zipWith_length; congruence. Qed.

Lemma schur_rows k a c r B :
  length r = k -> Forall (is_vec k) B -> Forall (is_vec k) (schur a c r B).
Proof.
  intros Hr HB; unfold schur; revert c;
    induction HB as [|row B Hrow HB IH]; intros [|x c]; simpl; constructor;
    [|apply IH].
  unfold is_vec in *; rewrite vsub_length; rewrite ?vscale_length; congruence.
Qed.

(** The remainder applied to a vector. *)
Lemma matvec_schur k a c r B v :
  length r = k -> Forall (is_vec k) B -> length c = length B ->
  matvec (schur a c r B) v
  = vsub (matvec B v) (vscale (dot r v / a) c).
Proof.
  intros Hr HB; unfold schur, matvec, vsub, vscale; revert c;
    induction HB as [|row B Hrow HB IH]; intros [|x c] Hl; simpl in *;
    try discriminate; [reflexivity|].
  rewrite IH by congruence; f_equal.
  fold (vscale (x / a) r); fold (vsub row (vscale (x / a) r)).
  rewrite dot_vsub_l, dot_vscale_l
    by (rewrite vscale_length; unfold is_vec in Hrow; congruence).
  unfold Rdiv; ring.
Qed.

(** The quadratic form of a matrix of symmetric shape, by blocks. *)
Lemma quad_form_block k a r B t v :
  length r = k -> is_mat k k B ->
  quad_form (S k) ((a :: r) :: zipWith cons r B) (t :: v)
  = a * t * t + 2 * t * dot r v + quad_form k B v.
Proof.
  intros Hr [HBl HBr].
  rewrite quad_form_dot
    by (constructor; [unfold is_vec; simpl; congruence
                     | apply zipWith_cons_rows; exact HBr]).
  rewrite quad_form_dot by exact HBr.
  simpl; fold (matvec (zipWith cons r B) (t :: v)).
  rewrite matvec_zipWith_cons by congruence.
  rewrite dot_vadd_r, dot_vscale_r, (dot_comm v r)
    by (rewrite vscale_length, matvec_length; congruence).
  ring.
Qed.

Lemma quad_form_zeros n S : Forall (is_vec n) S -> quad_form n S (zeros n) = 0.
Proof. intros HS; rewrite quad_form_dot by exact HS; apply dot_zeros_l. Qed.

Lemma pos_def_head k a r B :
  length r = k -> is_mat k k B ->
  pos_def (S k) ((a :: r) :: zipWith cons r B) -> 0 < a.
Proof.
  intros Hr HB Hpd.
  specialize (Hpd (1 :: zeros k)); rewrite quad_form_block in Hpd by assumption.
  rewrite dot_zeros_r, quad_form_zeros in Hpd by apply HB.
  assert (0 < a * 1 * 1 + 2 * 1 * 0 + 0); [|lra].
  apply Hpd; [simpl; rewrite zeros_length; reflexivity|].
  unfold zeros; simpl; intros Heq; injection Heq as H1; lra.
Qed.

(** The remainder of a positive definite matrix is positive definite. *)
Lemma pos_def_schur k a r B :
  length r = k -> is_mat k k B ->
  pos_def (S k) ((a :: r) :: zipWith cons r B) ->
  pos_def k (schur a r r B).
Proof.
  intros Hr HB Hpd v Hv Hnz.
  pose proof (pos_def_head k a r B Hr HB Hpd) as Ha.
  destruct HB as [HBl HBr].
  specialize (Hpd ((- (dot r v / a)) :: v)).
  rewrite quad_form_block in Hpd by (try split; assumption).
  rewrite quad_form_dot by (apply schur_rows; assumption).
  rewrite (matvec_schur k) by (try assumption; congruence).
  rewrite dot_vsub_r, dot_vscale_r, (dot_comm v r)
    by (rewrite vscale_length, matvec_length; congruence).
  rewrite quad_form_dot in Hpd by exact HBr.
  assert (H0 : 0 < a * - (dot r v / a) * - (dot r v / a)
                   + 2 * - (dot r v / a) * dot r v + dot v (matvec B v)).
  { apply Hpd; [simpl; congruence|].
    unfold zeros; simpl; fold (zeros k); intros Heq; injection Heq as _ Hv0.
    contradiction. }
  replace (a * - (dot r v / a) * - (dot r v / a)
           + 2 * - (dot r v / a) * dot r v + dot v (matvec B v))
    with (dot v (matvec B v) - dot r v / a * dot r v) in H0
    by (field; lra).
  exact H0.
Qed.


Lemma schur_cons_cols a r1 r c s B :
  length c = length s -> length s = length B ->
  zipWith (fun cj Bj => vsub Bj (vscale (cj / a) (r1 :: r))) c
    (zipWith cons s B)
  = zipWith cons (vsub s (vscale (r1 / a) c)) (schur a c r B).
Proof.
  unfold schur, vsub, vscale; revert s B;
    induction c as [|x c IH]; intros [|y s] [|row B] Hs HB; simpl in *;
    try discriminate; [reflexivity|].
  rewrite IH by congruence; f_equal; f_equal; unfold Rdiv; ring.
Qed.

Lemma schur_step a r1 r b s B :
  length r = length s -> length s = length B ->
  schur a (r1 :: r) (r1 :: r) ((b :: s) :: zipWith cons s B)
  = ((b - r1 / a * r1) :: vsub s (vscale (r1 / a) r))
    :: zipWith cons (vsub s (vscale (r1 / a) r)) (schur a r r B).
Proof.
  intros Hr Hs; unfold schur at 1; cbn [zipWith].
  rewrite schur_cons_cols by assumption; reflexivity.
Qed.

(** The remainder of a symmetric matrix is symmetric. *)
Lemma schur_sym k a r B : sym k B -> length r = k -> sym k (schur a r r B).
Proof.
  intros HB; revert r; induction HB as [|n b s B Hs HB IH]; intros r Hr.
  - destruct r; [constructor | discriminate Hr].
  - destruct r as [|r1 r]; [discriminate Hr|].
    assert (Hr' : length r = n) by (simpl in Hr; lia).
    pose proof (sym_rows n B HB) as [HBl HBr].
    unfold is_vec in Hs.
    rewrite schur_step by congruence.
    apply sym_cons; [|apply IH; exact Hr'].
    unfold is_vec; rewrite vsub_length; rewrite ?vscale_length; congruence.
Qed.

Lemma vecmat_zeros n m M :
  Forall (is_vec n) M -> vecmat n (zeros m) M = zeros n.
Proof.
  intros HM; revert m; induction HM as [|row M Hrow HM IH]; intros [|m];
    simpl; try reflexivity.
  fold (zeros m); rewrite IH.
  unfold vadd, vscale, zeros; unfold is_vec in Hrow; clear IH HM.
  revert n Hrow; induction row as [|x row IHr]; intros [|n] Hn; simpl in *;
    try discriminate; [reflexivity|].
  rewrite IHr by congruence; f_equal; ring.
Qed.

Lemma vecmat_map_cons0 n w M :
  vecmat (S n) w (map (cons 0) M) = 0 :: vecmat n w M.
Proof.
  revert M; induction w as [|x w IH]; intros [|row M]; simpl; try reflexivity.
  rewrite IH; unfold vadd; simpl; f_equal; ring.
Qed.

Lemma map_cons0_zipWith (M : mat) :
  map (cons 0) M = zipWith cons (zeros (length M)) M.
Proof. induction M as [|row M IH]; simpl; [|rewrite IH]; reflexivity. Qed.

Lemma vadd_vsub_cancel x B :
  length x = length B -> vadd x (vsub B x) = B.
Proof.
  unfold vadd, vsub; revert B; induction x as [|a x IH]; intros [|b B] Hl;
    simpl in *; try discriminate; [reflexivity|].
  rewrite IH by congruence; f_equal; ring.
Qed.

(** The rows of [U.T @ U] below the first, rebuilt from the factor of the
    remainder. *)
Lemma factor_rows k a d r0 U c T B :
  d <> 0 -> a = d * d -> length r0 = k -> Forall (is_vec k) B ->
  length c = length T -> length c = length B ->
  map (fun row => vecmat k row U) T = schur a c r0 B ->
  map (fun row => vecmat (S k) row
                    ((d :: vscale (/ d) r0) :: map (cons 0) U))
      (zipWith cons (vscale (/ d) c) T)
  = zipWith cons c B.
Proof.
  intros Hd Ha Hr0 HB; revert c T; induction HB as [|row B Hrow HB IH];
    intros [|x c] [|t T] HT HlB Hprod; simpl in *; try discriminate;
    [reflexivity|].
  unfold schur in Hprod; simpl in Hprod; injection Hprod as Hhead Htail.
  fold (vscale (/ d) c); rewrite IH by (congruence || exact Htail).
  f_equal.
  rewrite vecmat_map_cons0, Hhead; unfold vadd at 1; simpl.
  fold (vscale (/ d * x) (vscale (/ d) r0)).
  fold (vadd (vscale (/ d * x) (vscale (/ d) r0))
          (vsub row (vscale (x / a) r0))).
  replace (vscale (/ d * x) (vscale (/ d) r0)) with (vscale (x / a) r0).
  - rewrite vadd_vsub_cancel
      by (rewrite vscale_length; unfold is_vec in Hrow; congruence).
    f_equal; field; exact Hd.
  - unfold vscale; rewrite map_map; apply map_ext; intros y.
    subst a; field; exact Hd.
Qed.


Lemma vscale_vscale_inv d r : d <> 0 -> vscale d (vscale (/ d) r) = r.
Proof.
  intros Hd; unfold vscale; rewrite map_map.
  rewrite <- (map_id r) at 2; apply map_ext; intros x; field; exact Hd.
Qed.

Lemma factor_first_row k d u U :
  length u = k -> Forall (is_vec k) U ->
  vecmat (S k) (d :: zeros k) ((d :: u) :: map (cons 0) U)
  = vscale d (d :: u).
Proof.
  intros Hu HU; cbn [vecmat].
  rewrite vecmat_map_cons0, vecmat_zeros by exact HU.
  change (0 :: zeros k) with (zeros (S k)).
  replace (S k) with (length (vscale d (d :: u)))
    by (rewrite vscale_length; simpl; congruence).
  apply vadd_zeros_r.
Qed.

(** The reference factorisation meets the contract of [cholesky] on every
    positive definite matrix of symmetric shape. *)
Lemma factor_sym n :
  forall A, sym n A -> pos_def n A -> is_cholesky n A (factor n A).
Proof.
  induction n as [|k IH]; intros A Hsym Hpd.
  - inversion Hsym; subst; split; [constructor | reflexivity].
  - inversion Hsym as [|k' a r B Hr HB]; subst.
    pose proof (sym_rows k B HB) as HBs; pose proof HBs as [HBl HBr].
    unfold is_vec in Hr.
    pose proof (pos_def_head k a r B Hr HBs Hpd) as Ha.
    assert (Hd : 0 < sqrt a) by (apply sqrt_lt_R0; exact Ha).
    assert (Hdd : a = sqrt a * sqrt a) by (rewrite sqrt_sqrt; lra).
    cbn [factor]; rewrite map_tl_zipWith_cons by congruence.
    destruct (IH (schur a r r B) (schur_sym k a r B HB Hr)
                (pos_def_schur k a r B Hr HBs Hpd)) as [Hup Hprod].
    set (U := factor k (schur a r r B)) in *.
    pose proof (upper_pos_rows k U Hup) as HUr.
    pose proof (upper_pos_length k U Hup) as HUl.
    assert (Hu : length (vscale (/ sqrt a) r) = k)
      by (rewrite vscale_length; exact Hr).
    split; [apply upper_pos_cons; assumption|].
    cbn [transpose]; rewrite map_cons0_zipWith at 1.
    rewrite transpose_zipWith_cons by (rewrite zeros_length; reflexivity).
    rewrite HUl; cbn [zipWith mmul map]; f_equal.
    + rewrite factor_first_row by assumption.
      unfold vscale at 1; cbn [map].
      fold (vscale (sqrt a) (vscale (/ sqrt a) r)).
      rewrite vscale_vscale_inv by lra; rewrite <- Hdd; reflexivity.
    + apply (factor_rows k a (sqrt a) r U r (transpose k U) B);
        try assumption; try lra.
      * rewrite transpose_length by exact HUr; exact Hr.
      * congruence.
Qed.

(** Every symmetric positive definite matrix has a Cholesky factor. *)
Lemma cholesky_exists n A : spd n A -> is_cholesky n A (factor n A).
Proof.
  intros (Hshape & Hsym & Hpd).
  apply factor_sym; [apply symmetric_sym|]; assumption.
Qed.

End CholeskyExistence.

Section ScaledCovariance.

Import Cholesky.

Lemma zipWith_cons_vscale a r T :
  zipWith cons (vscale a r) (mscale a T) = mscale a (zipWith cons r T).
Proof.
  unfold vscale, mscale; revert T; induction r as [|x r IH]; intros [|t T];
    simpl; auto.
  rewrite IH; reflexivity.
Qed.

Lemma mscale_repeat_nil a n : mscale a (repeat [] n) = repeat [] n.
Proof.
  unfold mscale; induction n as [|n IH]; simpl; [|rewrite IH]; reflexivity.
Qed.

Lemma transpose_mscale n a M :
  transpose n (mscale a M) = mscale a (transpose n M).
Proof.
  induction M as [|r M IH]; simpl; [symmetry; apply mscale_repeat_nil|].
  fold (mscale a M); fold (vscale a r); rewrite IH.
  apply zipWith_cons_vscale.
Qed.

Lemma mscale_rows n a M : Forall (is_vec n) M -> Forall (is_vec n) (mscale a M).
Proof.
  induction 1 as [|r M Hr HM IH]; simpl; constructor; [|exact IH].
  unfold is_vec in *; rewrite vscale_length; exact Hr.
Qed.

(** A positive multiple of a symmetric positive definite matrix is
    symmetric positive definite. *)
Lemma spd_mscale n a M : 0 < a -> spd n M -> spd n (mscale a M).
Proof.
  intros Ha ([Hl Hrows] & Hsym & Hpd); split; [|split].
  - split; [unfold mscale; rewrite length_map; exact Hl|].
    apply mscale_rows; exact Hrows.
  - unfold symmetric in *; rewrite transpose_mscale, Hsym; reflexivity.
  - intros v Hv Hnz; specialize (Hpd v Hv Hnz).
    rewrite quad_form_dot in * by (try apply mscale_rows; exact Hrows).
    rewrite matvec_mscale, dot_vscale_r; nra.
Qed.

End ScaledCovariance.

(** ** The assembled blocks *)

Section BlockFacts.

Lemma zeros_app m n : zeros (m + n) = zeros m ++ zeros n.
Proof. apply repeat_app. Qed.

Lemma firstn_zeros m n : firstn m (zeros (m + n)) = zeros m.
Proof. induction m as [|m IH]; simpl; [|fold (zeros (m + n)); rewrite IH]; reflexivity. Qed.

Lemma skipn_zeros m n : skipn m (zeros (m + n)) = zeros n.
Proof. induction m as [|m IH]; simpl; [reflexivity|exact IH]. Qed.

Lemma set_rows_repeat c0 z B :
  set_rows c0 (repeat z (length B)) B = map (set_cols c0 z) B.
Proof. induction B as [|r B IH]; simpl; [|rewrite IH]; reflexivity. Qed.

(** [M[1:, c0:c0+w] = B] on a zero matrix with one row more than [B]. *)
Lemma set_block_zeros2 I n c0 B :
  length B = I ->
  set_block 1 c0 (zeros2 (I + 1) n) B
  = zeros n :: map (set_cols c0 (zeros n)) B.
Proof.
  intros Hl; unfold set_block, zeros2.
  rewrite Nat.add_1_r; simpl; f_equal.
  rewrite <- Hl; apply set_rows_repeat.
Qed.

Lemma set_cols_full I r : length r = I -> set_cols 0 (zeros I) r = r.
Proof.
  intros Hl; unfold set_cols; cbn [firstn Nat.add app]; rewrite Hl.
  replace (zeros I) with (zeros (I + 0)) by (rewrite Nat.add_0_r; reflexivity).
  rewrite skipn_zeros; apply app_nil_r.
Qed.

Lemma set_cols_left I r :
  length r = I -> set_cols 0 (zeros (2 * I)) r = r ++ zeros I.
Proof.
  intros Hl; unfold set_cols; cbn [firstn Nat.add Nat.mul app].
  rewrite Hl, Nat.add_0_r, skipn_zeros; reflexivity.
Qed.

Lemma set_cols_right I r :
  length r = I -> set_cols I (zeros (2 * I)) r = zeros I ++ r.
Proof.
  intros Hl; unfold set_cols; cbn [Nat.mul]; rewrite Hl, Nat.add_0_r.
  rewrite firstn_zeros.
  replace (zeros (I + I)) with (zeros (I + I + 0))
    by (rewrite Nat.add_0_r; reflexivity).
  rewrite skipn_zeros, app_nil_r; reflexivity.
Qed.

Lemma map_ext_Forall {X Y : Type} (P : X -> Prop) (f g : X -> Y) l :
  Forall P l -> (forall x, P x -> f x = g x) -> map f l = map g l.
Proof.
  intros Hl Hfg; induction Hl as [|x l Hx Hl IH]; simpl; [reflexivity|].
  rewrite IH, (Hfg x Hx); reflexivity.
Qed.

Lemma set_item_zeros I a : set_item 0 a (zeros (I + 1)) = a :: zeros I.
Proof. rewrite Nat.add_1_r; reflexivity. Qed.

(** Cell 5: row 0 of the cone matrix stays zero, rows 1.. hold [L]. *)
Lemma TargetRisk_Gq_rows I L :
  is_mat I I L -> TargetRisk.Gq I L = [zeros I :: L].
Proof.
  intros [Hl Hrows]; unfold TargetRisk.Gq.
  rewrite set_block_zeros2 by exact Hl.
  rewrite (map_ext_Forall (is_vec I) _ (fun r => r) L Hrows (set_cols_full I)).
  rewrite map_id; reflexivity.
Qed.

Lemma TargetRisk_hq_rows I rho :
  TargetRisk.hq I rho = [(rho * scalar) :: zeros I].
Proof. unfold TargetRisk.hq; rewrite set_item_zeros; reflexivity. Qed.

(** Cell 9: the two cone matrices hold [L] in disjoint column blocks. *)
Lemma TrackingError_Gq2_rows I L :
  is_mat I I L ->
  TrackingError.Gq2 I L
  = [zeros (2 * I) :: map (fun r => r ++ zeros I) L;
     zeros (2 * I) :: map (fun r => zeros I ++ r) L].
Proof.
  intros [Hl Hrows]; unfold TrackingError.Gq2, TrackingError.Gq_base.
  rewrite !set_block_zeros2 by exact Hl.
  rewrite (map_ext_Forall (is_vec I) _ _ L Hrows (set_cols_left I)).
  rewrite (map_ext_Forall (is_vec I) _ _ L Hrows (set_cols_right I)).
  reflexivity.
Qed.

Lemma vsub_zeros_l n v : length v = n -> vsub (zeros n) v = vneg v.
Proof.
  unfold vsub, zeros, vneg.
  revert v; induction n as [|n IH]; intros [|a v] Hl; simpl in *;
    try discriminate; [reflexivity|].
  f_equal; [ring | apply IH; congruence].
Qed.

(** A cone block [zeros :: M] with bound [r :: zeros]: the slack is in the
    cone exactly when the norm of [M x] is at most [r]. *)
Lemma in_soc_block k m M r x :
  length M = m ->
  CVX.in_soc (vsub (r :: zeros m) (matvec (zeros k :: M) x))
  <-> sqrt (dot (matvec M x) (matvec M x)) <= r.
Proof.
  intros Hl; simpl; fold (vsub (zeros m) (matvec M x)).
  rewrite vsub_zeros_l by (rewrite matvec_length; exact Hl).
  rewrite dot_zeros_l, dot_vneg_l, dot_vneg_r, Ropp_involutive, Rminus_0_r.
  reflexivity.
Qed.

Lemma matvec_app_zeros_r I M w t :
  Forall (is_vec I) M -> length w = I ->
  matvec (map (fun r => r ++ zeros I) M) (w ++ t) = matvec M w.
Proof.
  intros HM Hw; induction HM as [|r M Hr HM IH]; simpl; [reflexivity|].
  rewrite IH, dot_app by (unfold is_vec in Hr; congruence).
  rewrite dot_zeros_l; f_equal; ring.
Qed.

Lemma matvec_app_zeros_l I M w t :
  length w = I ->
  matvec (map (fun r => zeros I ++ r) M) (w ++ t) = matvec M t.
Proof.
  intros Hw; induction M as [|r M IH]; simpl; [reflexivity|].
  rewrite IH, dot_app by (rewrite zeros_length; congruence).
  rewrite dot_zeros_l; f_equal; ring.
Qed.

End BlockFacts.

Section BlockEntries.

Lemma nth_map_row (f : vec -> vec) (M : mat) i :
  (i < length M)%nat -> nth i (map f M) [] = f (nth i M []).
Proof.
  intros Hi; rewrite (nth_indep _ [] (f [])) by (rewrite length_map; exact Hi).
  apply map_nth.
Qed.

Lemma nth_row_length I (M : mat) i :
  is_mat I I M -> (i < I)%nat -> length (nth i M []) = I.
Proof.
  intros [Hl Hrows] Hi; rewrite Forall_forall in Hrows.
  apply Hrows, nth_In; rewrite Hl; exact Hi.
Qed.

Lemma nth_zeros n j : nth j (zeros n) 0 = 0.
Proof.
  unfold zeros; revert j; induction n as [|n IH]; intros [|j]; simpl; auto.
Qed.

End BlockEntries.

(** ** The position bounds of cell 3 *)

Section PositionBounds.

Lemma matvec_vstack M N w : matvec (vstack M N) w = matvec M w ++ matvec N w.
Proof. apply map_app. Qed.

Lemma Forall2_app_iff {X Y : Type} (P : X -> Y -> Prop) l1 l2 k1 k2 :
  length l1 = length k1 ->
  (Forall2 P (l1 ++ l2) (k1 ++ k2) <-> Forall2 P l1 k1 /\ Forall2 P l2 k2).
Proof.
  revert k1; induction l1 as [|x l1 IH]; intros [|y k1] Hl; simpl in *;
    try discriminate.
  - split; [intros H; split; [constructor | exact H] | tauto].
  - specialize (IH k1 ltac:(congruence)); split.
    + intros H; inversion H; subst; split; [constructor|]; tauto.
    + intros [H1 H2]; inversion H1; subst; constructor; tauto.
Qed.

Lemma upper_bounds_iff n w :
  length w = n ->
  (Forall2 Rle w (vscale 0.25 (ones n)) <-> Forall (fun x => x <= 0.25) w).
Proof.
  unfold vscale, ones; revert w; induction n as [|n IH]; intros [|a w] Hl;
    simpl in *; try discriminate.
  - split; constructor.
  - specialize (IH w ltac:(congruence)); split; intros H; inversion H; subst;
      constructor; try tauto; lra.
Qed.

Lemma lower_bounds_iff n w :
  length w = n ->
  (Forall2 Rle (vneg w) (zeros n) <-> Forall (fun x => 0 <= x) w).
Proof.
  unfold vneg, zeros; revert w; induction n as [|n IH]; intros [|a w] Hl;
    simpl in *; try discriminate.
  - split; constructor.
  - specialize (IH w ltac:(congruence)); split; intros H; inversion H; subst;
      constructor; try tauto; lra.
Qed.

(** Cell 3 encodes [0 <= w <= 0.25] elementwise. *)
Lemma position_bounds_iff I w :
  length w = I ->
  (Forall2 Rle (matvec (Data.G I) w) (Data.h I)
   <-> Forall (fun x => 0 <= x <= 0.25) w).
Proof.
  intros Hl; unfold Data.G, Data.h, hstack1.
  rewrite matvec_vstack, matvec_mneg, matvec_eye by exact Hl.
  rewrite Forall2_app_iff
    by (rewrite vscale_length, ones_length; exact Hl).
  rewrite upper_bounds_iff, lower_bounds_iff by exact Hl.
  rewrite !Forall_forall; split.
  - intros [Hu Hlo] x Hx; split; auto.
  - intros H; split; intros x Hx; apply H; exact Hx.
Qed.

(** The constraint matrix of cell 3 has [I] columns, as the extension of
    cell 8 needs. *)
Lemma Data_G_rows I : Forall (is_vec I) (Data.G I).
Proof.
  unfold Data.G, vstack; apply Forall_app; split; [apply eye_rows|].
  unfold mneg; apply Forall_forall; intros row Hin.
  apply in_map_iff in Hin; destruct Hin as (row' & <- & Hin').
  pose proof (eye_rows I) as Hrows; rewrite Forall_forall in Hrows.
  unfold is_vec; rewrite vneg_length; exact (Hrows _ Hin').
Qed.

Lemma budget_upper_bound w :
  Forall (fun x => 0 <= x <= 0.25) w ->
  dot (ones (length w)) w <= 0.25 * INR (length w).
Proof.
  induction 1 as [|a w Ha Hw IH]; [simpl; lra|].
  change (length (a :: w)) with (S (length w)); rewrite S_INR.
  simpl; fold (ones (length w)); lra.
Qed.

Lemma dot_ones_repeat n c : dot (ones n) (repeat c n) = INR n * c.
Proof.
  induction n as [|n IH]; [simpl; ring|].
  rewrite S_INR; simpl; fold (ones n); rewrite IH; ring.
Qed.

Lemma vdiv_ones n a : vdiv (ones n) a = repeat (1 / a) n.
Proof.
  unfold vdiv, ones; induction n as [|n IH]; simpl; [|rewrite IH];
    reflexivity.
Qed.

Lemma e_bm_repeat I : Data.e_bm I = repeat (1 / INR I) I.
Proof. apply vdiv_ones. Qed.

Lemma e_bm_length I : length (Data.e_bm I) = I.
Proof. rewrite e_bm_repeat; apply repeat_length. Qed.

Lemma four_le_INR I : 4 <= INR I <-> (4 <= I)%nat.
Proof.
  replace 4 with (INR 4) by (simpl; lra).
  split; [apply INR_le | apply le_INR].
Qed.

Lemma e_bm_feasible I :
  (4 <= I)%nat ->
  Forall (fun x => 0 <= x <= 0.25) (Data.e_bm I) /\
  dot (ones I) (Data.e_bm I) = 1.
Proof.
  intros HI; apply four_le_INR in HI.
  rewrite e_bm_repeat, dot_ones_repeat; split; [|field; lra].
  apply Forall_forall; intros x Hx; apply repeat_spec in Hx; subst x.
  assert (Hinv : 0 < / INR I) by (apply Rinv_0_lt_compat; lra).
  unfold Rdiv; rewrite Rmult_1_l; split; [lra|].
  assert (H1 : INR I * / INR I = 1) by (field; lra).
  nra.
Qed.

End PositionBounds.

(** ** The target-return problem has one solution *)

Section MeanVarianceFacts.

Lemma Forall2_Rle_midpoint a b h :
  Forall2 Rle a h -> Forall2 Rle b h ->
  Forall2 Rle (vscale (1 / 2) (vadd a b)) h.
Proof.
  intros Ha; revert b; induction Ha as [|x y a h Hxy Ha IH]; intros b Hb;
    inversion Hb as [|x' y' b' h' Hxy' Hb']; subst; simpl; constructor.
  - lra.
  - apply IH; exact Hb'.
Qed.

Lemma vscale_vsub_zeros a x e :
  a <> 0 -> length x = length e ->
  vscale a (vsub x e) = zeros (length x) -> x = e.
Proof.
  intros Ha; revert e; induction x as [|p x IH]; intros [|q e] Hl H0;
    simpl in *; try discriminate; [reflexivity|].
  injection H0 as Hhead Htail.
  f_equal; [nra | apply IH; [congruence | exact Htail]].
Qed.

Section Unique.
Variable I : nat.
Variables (means : vec) (cov G : mat) (h : vec) (r : R).

Lemma feasible_midpoint x e :
  MeanVariance.feasible I means G h r x ->
  MeanVariance.feasible I means G h r e ->
  MeanVariance.feasible I means G h r (vscale (1 / 2) (vadd x e)).
Proof.
  intros (Hlx & HGx & Hbx & Hrx) (Hle & HGe & Hbe & Hre).
  unfold is_vec in *.
  assert (Hl : length x = length e) by congruence.
  repeat split.
  - unfold is_vec; rewrite vscale_length, vadd_length; assumption.
  - rewrite matvec_vscale, matvec_vadd by exact Hl.
    apply Forall2_Rle_midpoint; assumption.
  - rewrite dot_vscale_r, dot_vadd_r by exact Hl; lra.
  - rewrite dot_vscale_r, dot_vadd_r by exact Hl; lra.
Qed.

Variables (s : R) (U : mat).
Hypothesis Hs : s <> 0.
Hypothesis HU : Cholesky.is_cholesky I (mscale (s ^ 2) cov) U.

(** Strict convexity: a feasible portfolio with no more variance than an
    efficient one is that portfolio. *)
Lemma efficient_portfolio_unique e y :
  MeanVariance.efficient_portfolio I means cov G h r e ->
  MeanVariance.feasible I means G h r y ->
  quad_form I cov y <= quad_form I cov e ->
  y = e.
Proof.
  intros [Hfe Hmin] Hfy Hq.
  assert (Hl : length y = length e).
  { destruct Hfe as [Hle _], Hfy as [Hly _]; unfold is_vec in *; congruence. }
  pose proof (Hmin _ (feasible_midpoint y e Hfy Hfe)) as Hmid.
  pose proof (quad_form_midpoint I cov y e
                (cholesky_cov_rows I s cov U HU) Hl) as Hsum.
  assert (Hd : quad_form I cov (vscale (1 / 2) (vsub y e)) <= 0) by lra.
  apply (cholesky_quad_form_definite I s cov U HU) in Hd; [|exact Hs|].
  - apply (vscale_vsub_zeros (1 / 2)); [lra | exact Hl|].
    rewrite Hd; f_equal; destruct Hfy as [Hly _]; symmetry; exact Hly.
  - rewrite vscale_length, vsub_length by exact Hl.
    destruct Hfy as [Hly _]; exact Hly.
Qed.

End Unique.

(** *** The return target as an equality *)

Lemma Forall2_Rle_combination t a b h :
  0 <= t <= 1 -> Forall2 Rle a h -> Forall2 Rle b h ->
  Forall2 Rle (vadd (vscale t a) (vscale (1 - t) b)) h.
Proof.
  intros Ht Ha; revert b; induction Ha as [|x y a h Hxy Ha IH]; intros b Hb;
    inversion Hb as [|x' y' b' h' Hxy' Hb']; subst; simpl; constructor.
  - nra.
  - apply IH; exact Hb'.
Qed.

(** The quadratic form of a combination [t y + (1 - t) m]. *)
Lemma quad_form_combination n S t y m :
  Forall (is_vec n) S -> length y = length m ->
  quad_form n S (vadd (vscale t y) (vscale (1 - t) m))
  + t * (1 - t) * quad_form n S (vsub y m)
  = t * quad_form n S y + (1 - t) * quad_form n S m.
Proof.
  intros HS Hl; rewrite !quad_form_dot by exact HS.
  assert (Hs : length (vscale t y) = length (vscale (1 - t) m))
    by (rewrite !vscale_length; exact Hl).
  assert (Hm : length (matvec S y) = length (matvec S m))
    by (rewrite !matvec_length; reflexivity).
  assert (Hms : length (vscale t (matvec S y))
                = length (vscale (1 - t) (matvec S m)))
    by (rewrite !vscale_length; exact Hm).
  rewrite matvec_vadd, matvec_vsub, !matvec_vscale by assumption.
  rewrite dot_vadd_l, dot_vsub_l by assumption.
  rewrite !dot_vadd_r, !dot_vsub_r by assumption.
  rewrite !dot_vscale_l, !dot_vscale_r; ring.
Qed.

Section Equality.
Variable I : nat.
Variables (means : vec) (cov G : mat) (h : vec) (r : R).
Variables (s : R) (U : mat).
Hypothesis Hs : s <> 0.
Hypothesis HU : Cholesky.is_cholesky I (mscale (s ^ 2) cov) U.

(** When the target is not below the return of the minimum-variance
    portfolio, a solution under the equality reading is one under the
    inequality reading. *)
Lemma efficient_portfolio_of_equality m e :
  MeanVariance.minimum_variance I cov G h m ->
  dot means m <= r ->
  MeanVariance.efficient_portfolio_eq I means cov G h r e ->
  MeanVariance.efficient_portfolio I means cov G h r e.
Proof.
  intros [(Hlm & HGm & Hbm) Hmin] Hret [[(Hle & HGe & Hbe) Hre] Hopt].
  split; [repeat split; auto; lra|].
  intros y (Hly & HGy & Hby & Hry).
  destruct (Req_dec (dot means y) r) as [Heq|Hne];
    [apply Hopt; repeat split; assumption|].
  unfold is_vec in *.
  assert (Hl : length y = length m) by congruence.
  set (a := dot means y) in *; set (b0 := dot means m) in *.
  assert (Hab : 0 < a - b0) by lra.
  set (t := (r - b0) / (a - b0)).
  assert (Ht : 0 <= t <= 1).
  { unfold t; split.
    - apply Rmult_le_pos; [lra | left; apply Rinv_0_lt_compat; exact Hab].
    - apply (Rmult_le_reg_r (a - b0)); [exact Hab|].
      unfold Rdiv; rewrite Rmult_assoc, Rinv_l by lra; lra. }
  assert (Hta : t * (a - b0) = r - b0) by (unfold t; field; lra).
  pose proof (quad_form_combination I cov t y m
                (cholesky_cov_rows I s cov U HU) Hl) as Hq.
  pose proof (cholesky_quad_form_nonneg I s cov U HU (vsub y m) Hs) as Hd.
  assert (Hmy : quad_form I cov m <= quad_form I cov y)
    by (apply Hmin; repeat split; assumption).
  assert (Hz : quad_form I cov e
               <= quad_form I cov (vadd (vscale t y) (vscale (1 - t) m))).
  { apply Hopt; repeat split.
    - unfold is_vec; rewrite vadd_length; rewrite !vscale_length; congruence.
    - rewrite matvec_vadd, !matvec_vscale by (rewrite !vscale_length; exact Hl).
      apply Forall2_Rle_combination; assumption.
    - rewrite dot_vadd_r, !dot_vscale_r by (rewrite !vscale_length; exact Hl).
      rewrite Hby, Hbm; ring.
    - rewrite dot_vadd_r, !dot_vscale_r by (rewrite !vscale_length; exact Hl).
      fold a b0; nra. }
  assert (H1 : 0 <= t * (1 - t) * quad_form I cov (vsub y m))
    by (apply Rmult_le_pos; [nra | exact Hd]).
  assert (H2 : 0 <= (1 - t) * (quad_form I cov y - quad_form I cov m))
    by (apply Rmult_le_pos; lra).
  lra.
Qed.

End Equality.

End MeanVarianceFacts.

(** ** The target-risk cone program *)

Section TargetRiskFacts.

Lemma scalar_pos : 0 < scalar.
Proof. unfold scalar; lra. Qed.

Lemma objective_length means : length (TargetRisk.objective means) = length means.
Proof. apply length_map. Qed.

Lemma dot_objective means x :
  dot (TargetRisk.objective means) x = - scalar * dot means x.
Proof.
  revert x; induction means as [|m means IH]; intros [|a x]; simpl; try ring.
  fold (TargetRisk.objective means); rewrite IH; ring.
Qed.

Lemma Forall2_singleton {X Y : Type} (P : X -> Y -> Prop) x y :
  Forall2 P [x] [y] <-> P x y.
Proof.
  split; intros H; [inversion H; assumption | repeat constructor; exact H].
Qed.

Lemma matvec_budget I x : matvec (TargetRisk.A I) x = TargetRisk.b <-> dot (ones I) x = 1.
Proof.
  unfold TargetRisk.A, TargetRisk.b, ones2; simpl; fold (ones I).
  split; intros H; [injection H; auto | rewrite H; reflexivity].
Qed.

(** The feasible set of the call to [socp] in cell 5. *)
Lemma TargetRisk_feasible I means G h L rho x :
  length means = I -> is_mat I I L ->
  CVX.feasible (TargetRisk.program I means G h L rho) x
  <-> length x = I /\
      Forall2 Rle (matvec G x) h /\
      sqrt (dot (matvec L x) (matvec L x)) <= rho * scalar /\
      dot (ones I) x = 1.
Proof.
  intros Hm HL; unfold CVX.feasible, TargetRisk.program.
  cbn [CVX.c CVX.Gl CVX.hl CVX.Gq CVX.hq CVX.A CVX.b].
  rewrite objective_length, Hm, TargetRisk_Gq_rows, TargetRisk_hq_rows
    by exact HL.
  rewrite Forall2_singleton, in_soc_block by (destruct HL; assumption).
  rewrite matvec_budget; tauto.
Qed.

Section Equivalence.
Variable I : nat.
Variables (means : vec) (cov G : mat) (h : vec) (r : R).
Variables (e_star : vec) (U : mat).
Hypothesis Hmeans : length means = I.
Hypothesis HU : Cholesky.is_cholesky I (mscale (scalar ^ 2) cov) U.
Hypothesis He : MeanVariance.efficient_portfolio I means cov G h r e_star.

Let P := TargetRisk.program I means G h (TargetRisk.L U)
           (TargetRisk.risk_target I cov e_star).

Lemma L_shape : is_mat I I (TargetRisk.L U).
Proof.
  destruct HU as [Hup _]; unfold TargetRisk.L, mneg; split.
  - rewrite length_map; exact (upper_pos_length I U Hup).
  - apply Forall_forall; intros row Hin.
    apply in_map_iff in Hin; destruct Hin as (row' & <- & Hin').
    pose proof (upper_pos_rows I U Hup) as Hrows.
    rewrite Forall_forall in Hrows; specialize (Hrows _ Hin').
    unfold is_vec in *; rewrite vneg_length; exact Hrows.
Qed.

(** A point is feasible for the cone program when it satisfies the linear
    constraints and has at most the variance of [e_star]. *)
Lemma TargetRisk_feasible_variance x :
  CVX.feasible P x
  <-> length x = I /\ Forall2 Rle (matvec G x) h /\
      quad_form I cov x <= quad_form I cov e_star /\
      dot (ones I) x = 1.
Proof.
  unfold P; rewrite TargetRisk_feasible by (exact Hmeans || exact L_shape).
  unfold TargetRisk.L, TargetRisk.risk_target.
  rewrite (cholesky_norm I scalar cov U HU) by exact scalar_pos.
  pose proof scalar_pos as Hs.
  assert (Hs0 : scalar <> 0) by lra.
  pose proof (cholesky_quad_form_nonneg I scalar cov U HU x Hs0) as Hx.
  pose proof (cholesky_quad_form_nonneg I scalar cov U HU e_star Hs0) as Hes.
  assert (Hiff : scalar * sqrt (quad_form I cov x)
                 <= sqrt (quad_form I cov e_star) * scalar
                 <-> quad_form I cov x <= quad_form I cov e_star).
  { split; intros Hle.
    - apply sqrt_le_0; try assumption. nra.
    - apply sqrt_le_1 in Hle; try assumption. nra. }
  tauto.
Qed.

Lemma e_star_feasible : CVX.feasible P e_star.
Proof.
  apply TargetRisk_feasible_variance.
  destruct He as [(Hl & HG & Hb & Hr) _]; repeat split; auto; lra.
Qed.

(** No feasible point of the cone program earns more than [e_star], and
    only [e_star] earns as much. *)
Lemma TargetRisk_best y :
  CVX.feasible P y -> dot means e_star <= dot means y -> y = e_star.
Proof.
  intros Hy Hret; pose proof scalar_pos as Hs.
  apply TargetRisk_feasible_variance in Hy.
  destruct Hy as (Hl & HG & Hq & Hb).
  apply (efficient_portfolio_unique I means cov G h r scalar U);
    [lra | exact HU | exact He | | exact Hq].
  destruct He as [(_ & _ & _ & Hr) _]; repeat split; auto; lra.
Qed.

(** The cone program of cell 5 has exactly one minimiser, the efficient
    portfolio of cell 4. *)
Lemma TargetRisk_minimiser x : CVX.minimiser P x <-> x = e_star.
Proof.
  pose proof scalar_pos as Hs; split.
  - intros [Hfx Hmin]; apply TargetRisk_best; [exact Hfx|].
    specialize (Hmin _ e_star_feasible).
    unfold P, TargetRisk.program in Hmin; cbn [CVX.c] in Hmin.
    rewrite !dot_objective in Hmin; nra.
  - intros ->; split; [exact e_star_feasible|].
    intros y Hy; unfold P, TargetRisk.program; cbn [CVX.c].
    rewrite !dot_objective.
    destruct (Rle_or_lt (dot means y) (dot means e_star)) as [Hle|Hgt];
      [nra|].
    rewrite (TargetRisk_best y Hy) by lra; lra.
Qed.

End Equivalence.

(** The same under the equality reading of the return target, when the
    target is not below the return of the minimum-variance portfolio. *)
Lemma TargetRisk_minimiser_equality I means cov G h r e_star U m x :
  length means = I ->
  Cholesky.is_cholesky I (mscale (scalar ^ 2) cov) U ->
  MeanVariance.minimum_variance I cov G h m ->
  dot means m <= r ->
  MeanVariance.efficient_portfolio_eq I means cov G h r e_star ->
  CVX.minimiser
    (TargetRisk.program I means G h (TargetRisk.L U)
       (TargetRisk.risk_target I cov e_star)) x
  <-> x = e_star.
Proof.
  intros Hm HU Hmv Hret He; pose proof scalar_pos as Hs.
  apply (TargetRisk_minimiser I means cov G h r e_star U Hm HU).
  apply (efficient_portfolio_of_equality I means cov G h r scalar U
           ltac:(lra) HU m e_star Hmv Hret He).
Qed.

End TargetRiskFacts.

(** ** The factor on the objective *)

Section ObjectiveScaling.

Lemma feasible_with_objective P c' x :
  length c' = length (CVX.c P) ->
  CVX.feasible (CVX.with_objective P c') x <-> CVX.feasible P x.
Proof.
  intros Hl; unfold CVX.feasible, CVX.with_objective.
  cbn [CVX.c CVX.Gl CVX.hl CVX.Gq CVX.hq CVX.A CVX.b].
  rewrite Hl; reflexivity.
Qed.

(** A positive factor on the objective leaves the minimisers in place. *)
Lemma minimiser_with_objective P c' s :
  0 < s -> length c' = length (CVX.c P) ->
  (forall x, dot (CVX.c P) x = s * dot c' x) ->
  forall x, CVX.minimiser P x <-> CVX.minimiser (CVX.with_objective P c') x.
Proof.
  intros Hs Hl Hdot x; unfold CVX.minimiser.
  rewrite feasible_with_objective by exact Hl.
  change (CVX.c (CVX.with_objective P c')) with c'.
  split; intros [Hf Hmin]; split; auto; intros y Hy.
  - apply feasible_with_objective in Hy; [|exact Hl].
    specialize (Hmin y Hy); rewrite !Hdot in Hmin; nra.
  - rewrite !Hdot.
    assert (Hy' : CVX.feasible (CVX.with_objective P c') y)
      by (apply feasible_with_objective; assumption).
    specialize (Hmin y Hy'); nra.
Qed.

Lemma dot_objective_vneg means x :
  dot (TargetRisk.objective means) x = scalar * dot (vneg means) x.
Proof. rewrite dot_objective, dot_vneg_l; ring. Qed.

End ObjectiveScaling.

(** ** The tracking-error cone program *)

Section TrackingErrorFacts.

Lemma vadd_vneg u v : vadd u (vneg v) = vsub u v.
Proof.
  unfold vadd, vneg, vsub.
  revert v; induction u as [|a u IH]; intros [|b v]; simpl; auto.
  rewrite IH; reflexivity.
Qed.

Lemma matvec_zeros2 m n t : matvec (zeros2 m n) t = zeros m.
Proof.
  unfold zeros2, matvec; induction m as [|m IH]; simpl; [reflexivity|].
  rewrite dot_zeros_l, IH; reflexivity.
Qed.

Lemma vsub_eq_iff w t e :
  length w = length t -> length w = length e ->
  (vsub w t = e <-> t = vsub w e).
Proof.
  unfold vsub; revert t e; induction w as [|a w IH]; intros [|x t] [|y e] Ht He;
    simpl in *; try discriminate; [tauto|].
  specialize (IH t e ltac:(congruence) ltac:(congruence)).
  split; intros H; injection H as H1 H2; f_equal; try lra; apply IH; exact H2.
Qed.

(** The objective of cell 10 ignores the auxiliary block. *)
Lemma dot_means2 I means w t :
  length means = length w ->
  dot (TrackingError.means2 I means) (w ++ t) = dot means w.
Proof.
  intros Hl; unfold TrackingError.means2, hstack1.
  rewrite dot_app, dot_zeros_l by exact Hl; ring.
Qed.

(** The extended inequality block ignores the auxiliary block. *)
Lemma matvec_G_ext I G w t :
  Forall (is_vec I) G -> length w = I ->
  matvec (TrackingError.G I G) (w ++ t) = matvec G w.
Proof.
  intros HG Hw; unfold TrackingError.G.
  rewrite matvec_hstack.
  - rewrite matvec_zeros2, <- (matvec_length G w); apply vadd_zeros_r.
  - unfold zeros2; rewrite repeat_length; reflexivity.
  - rewrite Hw; exact HG.
Qed.

(** The equality block of cell 8: the budget row and the benchmark
    relation. *)
Lemma matvec_A_ext I w t :
  length w = I -> length t = I ->
  matvec (TrackingError.A I) (w ++ t) = dot (ones I) w :: vsub w t.
Proof.
  intros Hw Ht; unfold TrackingError.A, TrackingError.benchmark_relation,
    vstack, hstack1; simpl; f_equal.
  - rewrite dot_app, dot_zeros_l by (rewrite ones_length; congruence); ring.
  - rewrite matvec_hstack.
    + rewrite matvec_eye, matvec_mneg, matvec_eye, vadd_vneg by assumption.
      reflexivity.
    + unfold mneg; rewrite length_map; reflexivity.
    + rewrite Hw; apply eye_rows.
Qed.

Lemma Forall2_pair {X Y : Type} (P : X -> Y -> Prop) x1 x2 y1 y2 :
  Forall2 P [x1; x2] [y1; y2] <-> P x1 y1 /\ P x2 y2.
Proof.
  split.
  - intros H; inversion H as [|? ? ? ? H1 H']; subst.
    inversion H' as [|? ? ? ? H2 _]; subst; tauto.
  - intros [H1 H2]; repeat constructor; assumption.
Qed.

(** The feasible set of the call to [socp] in cell 10, on [x = w ++ t]. *)
Lemma TrackingError_feasible I means G h e_bm L rho tau w t :
  length means = I -> Forall (is_vec I) G -> is_mat I I L ->
  length w = I -> length t = I ->
  CVX.feasible (TrackingError.program I means G h e_bm L rho tau) (w ++ t)
  <-> Forall2 Rle (matvec G w) h /\
      sqrt (dot (matvec L w) (matvec L w)) <= rho * scalar /\
      sqrt (dot (matvec L t) (matvec L t)) <= tau * scalar /\
      dot (ones I) w = 1 /\
      vsub w t = e_bm.
Proof.
  intros Hm HG HL Hw Ht; unfold CVX.feasible, TrackingError.program.
  cbn [CVX.c CVX.Gl CVX.hl CVX.Gq CVX.hq CVX.A CVX.b].
  rewrite matvec_G_ext, matvec_A_ext, TrackingError_Gq2_rows by assumption.
  unfold TrackingError.hq2; rewrite !set_item_zeros.
  destruct HL as [HLl HLr].
  assert (Hlen : length (w ++ t)
                 = length (TargetRisk.objective (TrackingError.means2 I means))).
  { rewrite objective_length; unfold TrackingError.means2, hstack1.
    rewrite !length_app, zeros_length; congruence. }
  assert (Hcones :
    Forall2 (fun Gk hk => CVX.in_soc (vsub hk (matvec Gk (w ++ t))))
      [zeros (2 * I) :: map (fun r => r ++ zeros I) L;
       zeros (2 * I) :: map (fun r => zeros I ++ r) L]
      [rho * scalar :: zeros I; tau * scalar :: zeros I]
    <-> sqrt (dot (matvec L w) (matvec L w)) <= rho * scalar /\
        sqrt (dot (matvec L t) (matvec L t)) <= tau * scalar).
  { rewrite Forall2_pair.
    rewrite !in_soc_block by (rewrite length_map; exact HLl).
    rewrite matvec_app_zeros_r, matvec_app_zeros_l by assumption.
    reflexivity. }
  split.
  - intros (_ & HGw & Hc & Heq); apply Hcones in Hc.
    injection Heq as Hb Hrel; tauto.
  - intros (HGw & H1 & H2 & Hb & Hrel); repeat split; auto.
    + apply Hcones; tauto.
    + rewrite Hb, Hrel; reflexivity.
Qed.

End TrackingErrorFacts.

(** ** The tracking-error program has one solution *)

Section TrackingErrorEquivalence.
Variable I : nat.
Variables (means : vec) (cov G : mat) (h : vec) (r : R).
Variables (e_star : vec) (U : mat) (e_bm : vec).
Hypothesis Hmeans : length means = I.
Hypothesis HG : Forall (is_vec I) G.
Hypothesis Hbm : length e_bm = I.
Hypothesis HU : Cholesky.is_cholesky I (mscale (scalar ^ 2) cov) U.
Hypothesis He : MeanVariance.efficient_portfolio I means cov G h r e_star.

Let rho := TargetRisk.risk_target I cov e_star.
Let P := TargetRisk.program I means G h (TargetRisk.L U) rho.
Let P2 := TrackingError.program I means G h e_bm (TargetRisk.L U) rho
            (TrackingError.te_target I cov e_star e_bm).

Lemma e_star_length : length e_star = I.
Proof. destruct He as [(Hl & _) _]; exact Hl. Qed.

(** The portfolio block of a feasible point of cell 10 is feasible for
    cell 5 and carries the whole objective. *)
Lemma TrackingError_feasible_split x :
  CVX.feasible P2 x ->
  exists w t, x = w ++ t /\ length w = I /\ length t = I /\
              CVX.feasible P w /\ t = vsub w e_bm /\
              dot (CVX.c P2) x = dot (CVX.c P) w.
Proof.
  intros Hx; assert (Hlen : length x = (I + I)%nat).
  { destruct Hx as (Hl & _); rewrite Hl.
    unfold P2, TrackingError.program; cbn [CVX.c].
    rewrite objective_length; unfold TrackingError.means2, hstack1.
    rewrite length_app, zeros_length, Hmeans; reflexivity. }
  exists (firstn I x), (skipn I x).
  assert (Hw : length (firstn I x) = I) by (rewrite length_firstn; lia).
  assert (Ht : length (skipn I x) = I) by (rewrite length_skipn; lia).
  rewrite <- (firstn_skipn I x) in Hx at 1.
  pose proof (L_shape I cov U HU) as HL.
  apply (TrackingError_feasible I means G h e_bm _ _ _ _ _ Hmeans HG HL Hw Ht)
    in Hx.
  destruct Hx as (HGw & H1 & H2 & Hb & Hrel).
  split; [symmetry; apply firstn_skipn|].
  split; [exact Hw|]. split; [exact Ht|].
  split; [apply TargetRisk_feasible; auto|].
  split; [apply vsub_eq_iff; congruence|].
  rewrite <- (firstn_skipn I x) at 1.
  unfold P2, P, TrackingError.program, TargetRisk.program; cbn [CVX.c].
  rewrite !dot_objective, dot_means2 by congruence; reflexivity.
Qed.

Lemma vsub_vsub w e : length w = length e -> vsub w (vsub w e) = e.
Proof.
  intros Hl; apply vsub_eq_iff; [rewrite vsub_length| |]; auto.
Qed.

Lemma e_star_feasible2 : CVX.feasible P2 (e_star ++ vsub e_star e_bm).
Proof.
  pose proof e_star_length as Hl.
  pose proof (L_shape I cov U HU) as HL.
  assert (Ht : length (vsub e_star e_bm) = I)
    by (rewrite vsub_length; congruence).
  apply (TrackingError_feasible I means G h e_bm _ _ _ _ _ Hmeans HG HL Hl Ht).
  destruct He as [(_ & HGe & Hb & _) _].
  unfold TargetRisk.L, rho, TargetRisk.risk_target, TrackingError.te_target,
    TrackingError.te_pf.
  rewrite !(cholesky_norm I scalar cov U HU) by exact scalar_pos.
  repeat split; auto; try lra.
  apply vsub_vsub; congruence.
Qed.

(** The cone program of cell 10, with the realised tracking error of the
    target-risk solution as its bound, has exactly one minimiser: that
    solution, followed by its difference from the benchmark. *)
Lemma TrackingError_minimiser x :
  CVX.minimiser P2 x <-> x = e_star ++ vsub e_star e_bm.
Proof.
  pose proof scalar_pos as Hs.
  pose proof e_star_length as Hl.
  assert (Hobj : dot (CVX.c P2) (e_star ++ vsub e_star e_bm)
                 = dot (CVX.c P) e_star).
  { unfold P2, P, TrackingError.program, TargetRisk.program; cbn [CVX.c].
    rewrite !dot_objective, dot_means2 by congruence; reflexivity. }
  assert (Hc : forall w, dot (CVX.c P) w = - scalar * dot means w).
  { intros w; unfold P, TargetRisk.program; cbn [CVX.c].
    apply dot_objective. }
  split.
  - intros [Hfx Hmin].
    specialize (Hmin _ e_star_feasible2); rewrite Hobj in Hmin.
    destruct (TrackingError_feasible_split x Hfx)
      as (w & t & -> & Hw & Ht & Hfw & Htw & Hxw).
    rewrite Hxw, !Hc in Hmin.
    assert (w = e_star)
      by (apply (TargetRisk_best I means cov G h r e_star U); auto; nra).
    subst w t; reflexivity.
  - intros ->; split; [exact e_star_feasible2|].
    intros y Hy; rewrite Hobj.
    destruct (TrackingError_feasible_split y Hy)
      as (w & t & -> & Hw & Ht & Hfw & Htw & Hyw).
    rewrite Hyw, !Hc.
    destruct (Rle_or_lt (dot means w) (dot means e_star)) as [Hle|Hgt];
      [nra|].
    rewrite (TargetRisk_best I means cov G h r e_star U Hmeans HU He w Hfw)
      by lra.
    lra.
Qed.

End TrackingErrorEquivalence.

(** ** Validation figures *)

Section ValidationFacts.

Lemma fold_left_Rmax_zeros n : fold_left Rmax (zeros n) 0 = 0.
Proof.
  induction n as [|n IH]; simpl; [reflexivity|].
  rewrite Rmax_left by lra; exact IH.
Qed.

Lemma np_abs_vsub_self w : np_abs (vsub w w) = zeros (length w).
Proof.
  induction w as [|a w IH]; simpl; [reflexivity|].
  fold (vsub w w); fold (np_abs (vsub w w)); rewrite IH.
  unfold Rminus; rewrite Rplus_opp_r, Rabs_R0; reflexivity.
Qed.

(** A non-empty array is at distance zero from itself. *)
Lemma max_abs_exposure_difference_self w :
  w <> [] -> Validation.max_abs_exposure_difference w w = Ok 0.
Proof.
  intros Hw; unfold Validation.max_abs_exposure_difference.
  rewrite np_abs_vsub_self; destruct w as [|a w]; [contradiction|].
  simpl; fold (zeros (length w)); rewrite fold_left_Rmax_zeros; reflexivity.
Qed.

Lemma budget_nonempty I w : dot (ones I) w = 1 -> w <> [].
Proof. intros Hb ->; rewrite dot_nil_r in Hb; lra. Qed.

End ValidationFacts.

(** ** The printed figures against their formulas *)

Section FigureFacts.

Import Spec.

Lemma sum_upto_ext n f g :
  (forall i, (i < n)%nat -> f i = g i) -> sum_upto n f = sum_upto n g.
Proof.
  revert f g; induction n as [|n IH]; intros f g Hfg; simpl; [reflexivity|].
  rewrite (Hfg O) by lia; f_equal.
  apply IH; intros i Hi; apply Hfg; lia.
Qed.

Lemma sum_upto_scale n c f :
  sum_upto n (fun i => c * f i) = c * sum_upto n f.
Proof.
  revert f; induction n as [|n IH]; intros f; simpl; [ring|].
  rewrite IH; ring.
Qed.

Lemma dot_sum_upto n u v :
  length u = n -> length v = n ->
  dot u v = sum_upto n (fun i => coord u i * coord v i).
Proof.
  revert u v; induction n as [|n IH]; intros [|a u] [|b v] Hu Hv;
    simpl in *; try discriminate; [reflexivity|].
  rewrite (IH u v) by congruence; reflexivity.
Qed.

Lemma coord_matvec M v i : coord (matvec M v) i = dot (nth i M []) v.
Proof. unfold coord, matvec; apply (map_nth (fun r => dot r v) M [] i). Qed.

Lemma coord_vsub w e i :
  length w = length e -> coord (vsub w e) i = coord w i - coord e i.
Proof.
  unfold coord, vsub; revert e i; induction w as [|a w IH];
    intros [|b e] [|i] Hl; simpl in *; try discriminate; try ring.
  apply IH; congruence.
Qed.

Lemma coord_np_abs v i : coord (np_abs v) i = Rabs (coord v i).
Proof.
  unfold coord, np_abs.
  rewrite <- Rabs_R0 at 1; apply (map_nth Rabs v 0 i).
Qed.

(** The array expression [w.T @ cov @ w] is the double sum. *)
Lemma quad_form_quadratic I cov w :
  is_mat I I cov -> length w = I ->
  quad_form I cov w = quadratic I cov (coord w).
Proof.
  intros HS Hw; pose proof HS as [Hl Hrows].
  rewrite quad_form_dot by exact Hrows.
  rewrite (dot_sum_upto I) by (rewrite ?matvec_length; assumption).
  unfold quadratic; apply sum_upto_ext; intros i Hi.
  rewrite coord_matvec.
  rewrite (dot_sum_upto I) by (apply nth_row_length || exact Hw; assumption).
  rewrite <- sum_upto_scale; apply sum_upto_ext; intros j Hj.
  unfold entry, coord; ring.
Qed.

Lemma quadratic_ext I cov u v :
  (forall i, (i < I)%nat -> u i = v i) -> quadratic I cov u = quadratic I cov v.
Proof.
  intros Huv; unfold quadratic; apply sum_upto_ext; intros i Hi.
  apply sum_upto_ext; intros j Hj; rewrite (Huv i Hi), (Huv j Hj); reflexivity.
Qed.

Lemma fold_left_Rmax_spec l x :
  (fold_left Rmax l x = x \/ In (fold_left Rmax l x) l) /\
  x <= fold_left Rmax l x /\
  forall y, In y l -> y <= fold_left Rmax l x.
Proof.
  revert x; induction l as [|a l IH]; intros x; simpl.
  - split; [left; reflexivity | split; [lra | contradiction]].
  - destruct (IH (Rmax x a)) as (Hin & Hge & Hall).
    pose proof (Rmax_l x a); pose proof (Rmax_r x a).
    split; [|split].
    + destruct Hin as [Heq|Hin]; [|right; right; exact Hin].
      rewrite Heq; unfold Rmax; destruct (Rle_dec x a); auto.
    + lra.
    + intros y [<-|Hy]; [lra | apply Hall; exact Hy].
Qed.

(** [np.max] of a non-empty array is attained and bounds every entry. *)
Lemma np_max_spec v :
  v <> [] ->
  exists m, np_max v = Some m /\
    (exists i, (i < length v)%nat /\ m = coord v i) /\
    forall i, (i < length v)%nat -> coord v i <= m.
Proof.
  destruct v as [|x l]; [contradiction|]; intros _.
  destruct (fold_left_Rmax_spec l x) as (Hin & Hge & Hall).
  exists (fold_left Rmax l x); split; [reflexivity|]; split.
  - destruct Hin as [Heq|Hin].
    + exists O; split; [simpl; lia | rewrite Heq; reflexivity].
    + destruct (In_nth l _ 0 Hin) as (i & Hi & Hnth).
      exists (S i); split; [simpl; lia | symmetry; exact Hnth].
  - intros [|i] Hi; unfold coord; simpl; [exact Hge|].
    apply Hall, nth_In; simpl in Hi; lia.
Qed.

(** [np.max(np.abs(w - ref))] is the maximum absolute difference. *)
Lemma max_abs_exposure_difference_spec I w ref :
  (0 < I)%nat -> length w = I -> length ref = I ->
  exists d, Validation.max_abs_exposure_difference w ref = Ok d /\
            is_max_abs_difference I w ref d.
Proof.
  intros HI Hw Href.
  assert (Hlen : length (np_abs (vsub w ref)) = I).
  { unfold np_abs; rewrite length_map, vsub_length; congruence. }
  assert (Hne : np_abs (vsub w ref) <> [])
    by (intros Heq; rewrite Heq in Hlen; simpl in Hlen; lia).
  destruct (np_max_spec _ Hne) as (m & Hm & (i & Hi & Hmi) & Hall).
  assert (Hc : forall k, coord (np_abs (vsub w ref)) k
                         = Rabs (coord w k - coord ref k)).
  { intros k; rewrite coord_np_abs, coord_vsub by congruence; reflexivity. }
  exists m; unfold Validation.max_abs_exposure_difference; rewrite Hm.
  split; [reflexivity|]; split.
  - exists i; rewrite <- Hc; split; [congruence | exact Hmi].
  - intros k Hk; rewrite <- Hc; apply Hall; congruence.
Qed.

End FigureFacts.

(** ** The two-asset scenario *)

Section TwoAssetsFacts.

Import TwoAssets.

Lemma two_assets_cholesky :
  Cholesky.is_cholesky 2 (mscale (scalar ^ 2) cov) U.
Proof.
  split.
  - apply (Cholesky.upper_pos_cons 1 20 [0] [[10]]); [lra | reflexivity |].
    apply (Cholesky.upper_pos_cons 0 10 [] []); [lra | reflexivity |].
    constructor.
  - unfold U, cov, scalar; np_eval; arr_eq.
Qed.

Lemma two_assets_quad_form y1 y2 :
  quad_form 2 cov [y1; y2] = 0.04 * y1 * y1 + 0.01 * y2 * y2.
Proof. unfold cov; np_eval; ring. Qed.

Lemma two_assets_spd : Cholesky.spd 2 cov.
Proof.
  split; [split; [reflexivity | repeat constructor]|].
  split; [reflexivity|].
  intros v Hv Hnz.
  destruct v as [|y1 [|y2 [|y3 v]]]; try discriminate Hv.
  rewrite two_assets_quad_form.
  destruct (Req_dec y1 0) as [H1|H1]; [|nra].
  destruct (Req_dec y2 0) as [H2|H2]; [|nra].
  subst; contradiction Hnz; reflexivity.
Qed.

Lemma two_assets_feasible_inv r y :
  MeanVariance.feasible 2 means G h r y ->
  exists y1 y2, y = [y1; y2] /\ 0 <= y1 /\ 0 <= y2 /\ y1 + y2 = 1 /\
                r <= 0.08 * y1 + 0.02 * y2.
Proof.
  intros (Hl & HG & Hb & Hr).
  destruct y as [|y1 [|y2 [|y3 y]]]; try discriminate Hl.
  exists y1, y2; unfold G, h, means in *; np_eval.
  inversion HG as [|? ? ? ? H1 HG']; subst.
  inversion HG' as [|? ? ? ? H2 _]; subst.
  repeat split; lra.
Qed.

Lemma two_assets_feasible : MeanVariance.feasible 2 means G h return_target e_star.
Proof.
  unfold MeanVariance.feasible, G, h, means, e_star, return_target, is_vec.
  np_eval; repeat split; try lra.
  repeat constructor; lra.
Qed.

Lemma two_assets_efficient :
  MeanVariance.efficient_portfolio 2 means cov G h return_target e_star.
Proof.
  split; [exact two_assets_feasible|].
  intros y Hy; apply two_assets_feasible_inv in Hy.
  destruct Hy as (y1 & y2 & -> & H1 & H2 & Hb & Hr).
  unfold e_star, return_target in *; rewrite !two_assets_quad_form; nra.
Qed.

End TwoAssetsFacts.

Section TwoAssetsTargetRisk.

Import TwoAssets.

Lemma two_assets_minimiser x :
  CVX.minimiser TwoAssets.program x <-> x = e_star.
Proof.
  apply (TargetRisk_minimiser 2 means cov G h return_target e_star U);
    [reflexivity | exact two_assets_cholesky | exact two_assets_efficient].
Qed.

Lemma two_assets_contract :
  CVX.socp_contract TwoAssets.program TwoAssets.solution.
Proof.
  exists e_star; split; [reflexivity | apply two_assets_minimiser; reflexivity].
Qed.

End TwoAssetsTargetRisk.

Section TwoAssetsClaim.

Import TwoAssets.

Lemma sqrt_between a x b :
  0 <= a -> 0 <= b -> a * a < x -> x < b * b -> a < sqrt x < b.
Proof.
  intros Ha Hb Hax Hxb; split.
  - rewrite <- (sqrt_square a Ha); apply sqrt_lt_1_alt; nra.
  - rewrite <- (sqrt_square b Hb); apply sqrt_lt_1_alt; nra.
Qed.

Lemma two_assets_efficient_iff e :
  MeanVariance.efficient_portfolio 2 means cov G h return_target e
  <-> e = e_star.
Proof.
  split; [|intros ->; exact two_assets_efficient].
  intros [Hfe Hmin].
  apply (efficient_portfolio_unique 2 means cov G h return_target scalar U);
    [pose proof scalar_pos; lra | exact two_assets_cholesky
     | exact two_assets_efficient | exact Hfe |].
  apply Hmin, two_assets_feasible.
Qed.

Lemma two_assets_equality_point y :
  is_vec 2 y /\ Forall2 Rle (matvec G y) h /\ dot (ones 2) y = 1 /\
  dot means y = return_target
  <-> y = e_star.
Proof.
  split.
  - intros (Hl & HG & Hb & Hr).
    assert (Hf : MeanVariance.feasible 2 means G h return_target y)
      by (repeat split; auto; lra).
    apply two_assets_feasible_inv in Hf.
    destruct Hf as (y1 & y2 & -> & H1 & H2 & Hsum & _).
    unfold means, return_target, e_star in *; np_eval.
    apply f_equal2; [lra | apply f_equal2; [lra | reflexivity]].
  - intros ->; destruct two_assets_feasible as (Hl & HG & Hb & _).
    repeat split; auto.
    unfold means, return_target, e_star; np_eval; lra.
Qed.

End TwoAssetsClaim.

Section TwoAssetsTrackingError.

Import TwoAssets.

Lemma two_assets_G_rows : Forall (is_vec 2) G.
Proof. repeat constructor. Qed.

Lemma two_assets_minimiser2 x :
  CVX.minimiser program2 x <-> x = e_star ++ vsub e_star e_bm.
Proof.
  apply (TrackingError_minimiser 2 means cov G h return_target e_star U e_bm);
    [reflexivity | exact two_assets_G_rows | reflexivity
     | exact two_assets_cholesky | exact two_assets_efficient].
Qed.

Lemma two_assets_contract2 : CVX.socp_contract program2 solution2.
Proof.
  exists (e_star ++ vsub e_star e_bm); split;
    [reflexivity | apply two_assets_minimiser2; reflexivity].
Qed.

End TwoAssetsTrackingError.

Section NonOptimalStatus.

Import TwoAssets.

Lemma sqrt_le_bound a c : 0 <= a -> 0 <= c -> sqrt a <= c -> a <= c * c.
Proof.
  intros Ha Hc Hle; rewrite <- (sqrt_sqrt a Ha).
  pose proof (sqrt_pos a); nra.
Qed.

(** No fully invested long-only portfolio of the two assets has a
    volatility of 5% or less. *)
Lemma two_assets_infeasible x : ~ CVX.feasible infeasible_program x.
Proof.
  unfold infeasible_program; intros Hx.
  apply TargetRisk_feasible in Hx;
    [|reflexivity | split; [reflexivity | repeat constructor]].
  destruct Hx as (Hl & HG & Hn & Hb).
  destruct x as [|x1 [|x2 [|x3 x]]]; try discriminate Hl.
  apply sqrt_le_bound in Hn;
    [| apply dot_self_nonneg | unfold scalar; lra].
  unfold TargetRisk.L, U, scalar in *; np_eval; clear HG.
  assert (Hx2 : x2 = 1 - x1) by lra; subst x2.
  pose proof (Rle_0_sqr (5 * x1 - 1)) as Hsq; unfold Rsqr in Hsq; nra.
Qed.

Lemma two_assets_infeasible_contract :
  CVX.socp_contract infeasible_program infeasible_solution.
Proof. split; [reflexivity | exact two_assets_infeasible]. Qed.

Lemma two_assets_unknown_contract :
  CVX.socp_contract infeasible_program unknown_solution.
Proof. exists [0.6; 0.4]; split; reflexivity. Qed.

End NonOptimalStatus.

(** ** What an optimal status hands over *)

Section TargetRiskClaim.

(** Shared by the results about cell 5: an optimal status hands
    the minimiser of the cone program to [np.array]. *)
Lemma e_star_risk_optimal P sol :
  CVX.socp_contract P sol -> CVX.sol_status sol = CVX.optimal ->
  exists x, TargetRisk.e_star_risk sol = Ok (Floats x) /\ CVX.minimiser P x.
Proof.
  unfold CVX.socp_contract; intros Hc Hs; rewrite Hs in Hc.
  destruct Hc as (x & Hx & Hmin); exists x; split; [|exact Hmin].
  unfold TargetRisk.e_star_risk; rewrite Hx; reflexivity.
Qed.

End TargetRiskClaim.

(** ** The feasible set of cell 5 for any risk target *)

Section ProgramFacts.
Variable I : nat.
Variables (means : vec) (cov G : mat) (h : vec) (U : mat).
Hypothesis Hmeans : length means = I.
Hypothesis HU : Cholesky.is_cholesky I (mscale (scalar ^ 2) cov) U.

Lemma scaled_norm_le rho w :
  sqrt (dot (matvec (TargetRisk.L U) w) (matvec (TargetRisk.L U) w))
  <= rho * scalar
  <-> Validation.portfolio_volatility I cov w <= rho.
Proof.
  pose proof scalar_pos as Hs.
  unfold TargetRisk.L, Validation.portfolio_volatility.
  rewrite (cholesky_norm I scalar cov U HU) by exact Hs.
  split; intros Hle; nra.
Qed.

(** The feasible set of cell 5 for any risk target. *)
Lemma TargetRisk_feasible_volatility rho x :
  CVX.feasible (TargetRisk.program I means G h (TargetRisk.L U) rho) x
  <-> MeanVariance.admissible I G h x /\
      Validation.portfolio_volatility I cov x <= rho.
Proof.
  rewrite TargetRisk_feasible by (exact Hmeans || exact (L_shape I cov U HU)).
  rewrite scaled_norm_le; unfold MeanVariance.admissible, is_vec; tauto.
Qed.

Lemma TargetRisk_objective rho x :
  dot (CVX.c (TargetRisk.program I means G h (TargetRisk.L U) rho)) x
  = - scalar * dot means x.
Proof. unfold TargetRisk.program; cbn [CVX.c]; apply dot_objective. Qed.

End ProgramFacts.

Section TwoAssetsMinimumVariance.

Import TwoAssets.

(** The minimum-variance portfolio of the two-asset scenario. *)
Lemma two_assets_minimum_variance :
  MeanVariance.minimum_variance 2 cov G h [0.2; 0.8].
Proof.
  split.
  - unfold MeanVariance.admissible, G, h, is_vec; np_eval.
    repeat split; try lra; repeat constructor; lra.
  - intros y (Hl & HG & Hb).
    destruct y as [|y1 [|y2 [|y3 y]]]; try discriminate Hl.
    rewrite !two_assets_quad_form; np_eval.
    assert (Hy2 : y2 = 1 - y1) by lra; subst y2.
    pose proof (Rle_0_sqr (5 * y1 - 1)) as Hsq; unfold Rsqr in Hsq; nra.
Qed.

End TwoAssetsMinimumVariance.

(** ** The shapes of the two programs *)

Section ProgramShapes.

Lemma zeros2_rows m n : Forall (is_vec n) (zeros2 m n).
Proof.
  unfold zeros2; apply Forall_forall; intros r Hr.
  apply repeat_spec in Hr; subst r; apply zeros_length.
Qed.

Lemma hstack_rows I J (M N : mat) :
  Forall (is_vec I) M -> Forall (is_vec J) N ->
  Forall (is_vec (I + J)) (hstack M N).
Proof.
  unfold hstack; intros HM; revert N.
  induction HM as [|r M Hr HM IH]; intros N HN; [constructor|].
  destruct HN as [|q N Hq HN]; simpl; constructor.
  - unfold is_vec in *; rewrite length_app; congruence.
  - apply IH; exact HN.
Qed.

Lemma mneg_rows n M : Forall (is_vec n) M -> Forall (is_vec n) (mneg M).
Proof.
  unfold mneg; intros HM; apply Forall_map; revert HM; apply Forall_impl.
  intros r Hr; unfold is_vec in *; rewrite vneg_length; exact Hr.
Qed.

(** Cell 8: the extended inequality block has [2 I] columns and the rows
    of the block it extends. *)
Lemma TrackingError_G_shape I G :
  Forall (is_vec I) G ->
  Forall (is_vec (2 * I)) (TrackingError.G I G) /\
  length (TrackingError.G I G) = length G.
Proof.
  intros HG; unfold TrackingError.G; split.
  - replace (2 * I)%nat with (I + I)%nat by lia.
    apply hstack_rows; [exact HG | apply zeros2_rows].
  - unfold hstack; apply zipWith_length.
    unfold zeros2; rewrite repeat_length; reflexivity.
Qed.

(** Cell 8: the equality block has [I + 1] rows of [2 I] entries. *)
Lemma TrackingError_A_shape I : is_mat (I + 1) (2 * I) (TrackingError.A I).
Proof.
  unfold TrackingError.A, TrackingError.benchmark_relation, vstack, hstack1.
  assert (Hrows : Forall (is_vec (I + I)) (hstack (eye I) (mneg (eye I))))
    by (apply hstack_rows; [|apply mneg_rows]; apply eye_rows).
  replace (2 * I)%nat with (I + I)%nat by lia; split.
  - simpl; unfold hstack; rewrite zipWith_length.
    + rewrite eye_length; lia.
    + unfold mneg; rewrite length_map; reflexivity.
  - constructor; [|exact Hrows].
    unfold is_vec; rewrite length_app, ones_length, zeros_length; reflexivity.
Qed.

(** Cell 9: each cone matrix has [I + 1] rows of [2 I] entries. *)
Lemma TrackingError_Gq2_shape I L :
  is_mat I I L ->
  is_mat (I + 1) (2 * I) (zeros (2 * I) :: map (fun r => r ++ zeros I) L) /\
  is_mat (I + 1) (2 * I) (zeros (2 * I) :: map (fun r => zeros I ++ r) L).
Proof.
  intros [Hl Hrows]; split; (split;
    [simpl; rewrite length_map, Hl; lia
    |constructor; [apply zeros_length|];
     apply Forall_map; revert Hrows; apply Forall_impl;
     intros r Hr; unfold is_vec in *;
     rewrite length_app, zeros_length, Hr; lia]).
Qed.

(** The arguments of the call of cell 5 have the shapes the solver
    requires. *)
Lemma TargetRisk_conformable I means G h L rho :
  (0 < I)%nat -> length means = I -> Forall (is_vec I) G ->
  length h = length G -> is_mat I I L ->
  CVX.conformable (TargetRisk.program I means G h L rho).
Proof.
  intros HI Hm HG Hh HL.
  unfold CVX.conformable, TargetRisk.program;
    cbn [CVX.c CVX.Gl CVX.hl CVX.Gq CVX.hq CVX.A CVX.b].
  rewrite objective_length, Hm, TargetRisk_Gq_rows, TargetRisk_hq_rows
    by exact HL.
  destruct HL as [HLl HLr].
  split; [exact HI|]. split; [exact HG|]. split; [exact Hh|].
  split; [|split].
  - constructor; [|constructor].
    split; [discriminate|]. split.
    + constructor; [apply zeros_length | exact HLr].
    + simpl; rewrite zeros_length, HLl; reflexivity.
  - unfold TargetRisk.A, ones2; simpl.
    constructor; [apply ones_length | constructor].
  - reflexivity.
Qed.

(** So have those of the call of cell 10, over [2 I] variables. *)
Lemma TrackingError_conformable I means G h e_bm L rho tau :
  (0 < I)%nat -> length means = I -> Forall (is_vec I) G ->
  length h = length G -> length e_bm = I -> is_mat I I L ->
  CVX.conformable (TrackingError.program I means G h e_bm L rho tau).
Proof.
  intros HI Hm HG Hh Hbm HL.
  destruct (TrackingError_G_shape I G HG) as [HGr HGl].
  destruct (TrackingError_A_shape I) as [HAl HAr].
  destruct (TrackingError_Gq2_shape I L HL) as [[H0l H0r] [H1l H1r]].
  unfold CVX.conformable, TrackingError.program;
    cbn [CVX.c CVX.Gl CVX.hl CVX.Gq CVX.hq CVX.A CVX.b].
  assert (Hn : length (TargetRisk.objective (TrackingError.means2 I means))
               = (2 * I)%nat).
  { rewrite objective_length; unfold TrackingError.means2, hstack1.
    rewrite length_app, zeros_length, Hm; lia. }
  rewrite Hn, TrackingError_Gq2_rows by exact HL.
  unfold TrackingError.hq2; rewrite !set_item_zeros.
  split; [lia|]. split; [exact HGr|]. split; [congruence|].
  split; [|split].
  - constructor; [|constructor; [|constructor]].
    + split; [discriminate|]. split; [exact H0r|].
      rewrite H0l; simpl; rewrite zeros_length; lia.
    + split; [discriminate|]. split; [exact H1r|].
      rewrite H1l; simpl; rewrite zeros_length; lia.
  - exact HAr.
  - rewrite HAl; unfold TrackingError.b; simpl; rewrite Hbm; lia.
Qed.

(** A portfolio that meets the linear constraints and the budget fixes
    the number of rows of [h] and needs at least one asset. *)
Lemma admissible_shapes I G h w :
  length w = I -> Forall2 Rle (matvec G w) h -> dot (ones I) w = 1 ->
  (0 < I)%nat /\ length h = length G.
Proof.
  intros Hl HG Hb; split.
  - destruct I as [|I]; [|lia].
    simpl in Hb; lra.
  - apply Forall2_length in HG; rewrite matvec_length in HG; congruence.
Qed.

End ProgramShapes.

Section TwoAssetsBenchmark.

Import TwoAssets.

(** The answer [solution3] meets the contract for [program3]. *)
Lemma two_assets_contract3 : CVX.socp_contract program3 solution3.
Proof.
  exists (e_star ++ vsub e_star tilted_benchmark); split; [reflexivity|].
  apply (TrackingError_minimiser 2 means cov G h return_target e_star U
           tilted_benchmark);
    [reflexivity | exact two_assets_G_rows | reflexivity
     | exact two_assets_cholesky | exact two_assets_efficient | reflexivity].
Qed.

Lemma two_assets_tilted_difference :
  vsub e_star tilted_benchmark = [0.2; -0.2].
Proof. unfold e_star, tilted_benchmark; np_eval; arr_eq. Qed.

Lemma two_assets_tilted_target :
  0 < TrackingError.te_target 2 cov e_star tilted_benchmark.
Proof.
  unfold TrackingError.te_target, TrackingError.te_pf.
  rewrite two_assets_tilted_difference, two_assets_quad_form.
  apply sqrt_lt_R0; lra.
Qed.

Lemma two_assets_infeasible_conformable :
  CVX.conformable infeasible_program.
Proof.
  apply TargetRisk_conformable;
    [lia | reflexivity | repeat constructor | reflexivity
     | split; [reflexivity | repeat constructor]].
Qed.

Lemma two_assets_minimum_volatility :
  0.05 < Validation.portfolio_volatility 2 cov [0.2; 0.8].
Proof.
  unfold Validation.portfolio_volatility; rewrite two_assets_quad_form.
  apply (sqrt_between 0.05 _ 1); lra.
Qed.

End TwoAssetsBenchmark.

(** * Main results *)

(** C1: for every feasible problem data (means, covariance with a Cholesky
    factor, linear constraints) and every return target for which the
    target-return solver returns an efficient portfolio [e_star], the
    target-risk cone program of cell 5, solved with the volatility of
    [e_star] as its risk target, yields a portfolio whose maximum absolute
    elementwise difference from [e_star] is below 1e-6.  The solvers are
    taken by their contracts in exact arithmetic, where the cone program
    has [e_star] as its only minimiser, so that the two portfolios are
    equal. *)
Theorem target_risk_reproduces_target_return
  (I : nat) (means : vec) (cov G : mat) (h : vec) (r : R)
  (e_star : vec) (U : mat) (sol : CVX.solution) :
  length means = I ->
  Cholesky.is_cholesky I (mscale (scalar ^ 2) cov) U ->
  MeanVariance.efficient_portfolio I means cov G h r e_star ->
  CVX.socp_contract
    (TargetRisk.program I means G h (TargetRisk.L U)
       (TargetRisk.risk_target I cov e_star)) sol ->
  CVX.sol_status sol = CVX.optimal ->
  exists w d,
    TargetRisk.e_star_risk sol = Ok (Floats w) /\
    w = e_star /\
    Validation.max_abs_exposure_difference w e_star = Ok d /\
    d < 1e-6.
Proof.
  intros Hm HU He Hc Hs.
  destruct (e_star_risk_optimal _ _ Hc Hs) as (x & Hx & Hmin).
  apply (TargetRisk_minimiser I means cov G h r e_star U Hm HU He) in Hmin.
  subst x; exists e_star, 0; repeat split; [exact Hx | | lra].
  apply max_abs_exposure_difference_self.
  destruct He as [(_ & _ & Hb & _) _]; exact (budget_nonempty I e_star Hb).
Qed.

(** The hypotheses hold in the two-asset scenario, with the solver
    answering [e_star]. *)
Lemma target_risk_reproduces_target_return_witness :
  length TwoAssets.means = 2%nat /\
  Cholesky.is_cholesky 2 (mscale (scalar ^ 2) TwoAssets.cov) TwoAssets.U /\
  MeanVariance.efficient_portfolio 2 TwoAssets.means TwoAssets.cov
    TwoAssets.G TwoAssets.h TwoAssets.return_target TwoAssets.e_star /\
  CVX.socp_contract TwoAssets.program TwoAssets.solution /\
  CVX.sol_status TwoAssets.solution = CVX.optimal /\
  exists w d,
    TargetRisk.e_star_risk TwoAssets.solution = Ok (Floats w) /\
    w = TwoAssets.e_star /\
    Validation.max_abs_exposure_difference w TwoAssets.e_star = Ok d /\
    d < 1e-6.
Proof.
  pose proof two_assets_cholesky as HU.
  pose proof two_assets_efficient as He.
  pose proof two_assets_contract as Hc.
  repeat (split; [first [reflexivity | assumption]|]).
  exact (target_risk_reproduces_target_return 2 TwoAssets.means TwoAssets.cov
           TwoAssets.G TwoAssets.h TwoAssets.return_target TwoAssets.e_star
           TwoAssets.U TwoAssets.solution eq_refl HU He Hc eq_refl).
Defined.

(** C2: for every benchmark vector, when the tracking-error cone program
    of cells 7 to 10 is solved with the risk target of cell 5 and with the
    realised tracking error of the target-risk solution [w_star] against
    that benchmark as its tracking-error target, the first [I] entries of
    its solution differ from [w_star] by at most 1e-6 in maximum absolute
    elementwise difference.  The solvers are taken by their contracts in
    exact arithmetic, where the program has one minimiser, whose first [I]
    entries are [w_star].  The program is one the solver accepts: all its
    blocks, the extended inequality block among them, have [2 I]
    columns. *)
Theorem tracking_error_reproduces_target_risk
  (I : nat) (means : vec) (cov G : mat) (h : vec) (r : R)
  (e_star : vec) (U : mat) (e_bm : vec)
  (sol1 sol2 : CVX.solution) (w_star : vec) :
  length means = I -> Forall (is_vec I) G -> length e_bm = I ->
  Cholesky.is_cholesky I (mscale (scalar ^ 2) cov) U ->
  MeanVariance.efficient_portfolio I means cov G h r e_star ->
  CVX.socp_contract
    (TargetRisk.program I means G h (TargetRisk.L U)
       (TargetRisk.risk_target I cov e_star)) sol1 ->
  CVX.sol_status sol1 = CVX.optimal ->
  TargetRisk.e_star_risk sol1 = Ok (Floats w_star) ->
  CVX.socp_contract
    (TrackingError.program I means G h e_bm (TargetRisk.L U)
       (TargetRisk.risk_target I cov e_star)
       (TrackingError.te_target I cov w_star e_bm)) sol2 ->
  CVX.sol_status sol2 = CVX.optimal ->
  CVX.conformable
    (TrackingError.program I means G h e_bm (TargetRisk.L U)
       (TargetRisk.risk_target I cov e_star)
       (TrackingError.te_target I cov w_star e_bm)) /\
  Forall (is_vec (2 * I)) (TrackingError.G I G) /\
  (exists t, CVX.sol_x sol2 = Some (w_star ++ t) /\ t = vsub w_star e_bm) /\
  exists w d,
    TrackingError.e_star_dual_risk I sol2 = Ok (Floats w) /\
    w = w_star /\
    Validation.max_abs_exposure_difference w w_star = Ok d /\
    d <= 1e-6.
Proof.
  intros Hm HG Hbm HU He Hc1 Hs1 Hw Hc2 Hs2.
  destruct (e_star_risk_optimal _ _ Hc1 Hs1) as (x1 & Hx1 & Hmin1).
  apply (TargetRisk_minimiser I means cov G h r e_star U Hm HU He) in Hmin1.
  rewrite Hx1 in Hw; injection Hw as Hw; subst x1 w_star.
  unfold CVX.socp_contract in Hc2; rewrite Hs2 in Hc2.
  destruct Hc2 as (x2 & Hx2 & Hmin2).
  apply (TrackingError_minimiser I means cov G h r e_star U e_bm
           Hm HG Hbm HU He) in Hmin2.
  pose proof (e_star_length I means cov G h r e_star He) as Hl.
  pose proof (L_shape I cov U HU) as HL.
  assert (Hshape : (0 < I)%nat /\ length h = length G).
  { destruct He as [(_ & HGe & Hb & _) _].
    exact (admissible_shapes I G h e_star Hl HGe Hb). }
  destruct Hshape as [HI Hh].
  split; [apply TrackingError_conformable; assumption|].
  split; [apply TrackingError_G_shape; exact HG|].
  split; [exists (vsub e_star e_bm); rewrite Hx2, Hmin2; auto|].
  exists e_star, 0; repeat split; [| | lra].
  - unfold TrackingError.e_star_dual_risk; rewrite Hx2, Hmin2.
    rewrite <- Hl at 1; rewrite firstn_app, Nat.sub_diag, firstn_all.
    simpl; rewrite app_nil_r; reflexivity.
  - apply max_abs_exposure_difference_self.
    destruct He as [(_ & _ & Hb & _) _]; exact (budget_nonempty I e_star Hb).
Qed.

(** The hypotheses hold in the two-asset scenario with the benchmark
    [0.3, 0.7]: the tracking-error target is positive, the auxiliary block
    of the solution is [0.2, -0.2], and the first two entries are the
    target-risk solution. *)
Lemma tracking_error_reproduces_target_risk_witness :
  length TwoAssets.means = 2%nat /\
  Forall (is_vec 2) TwoAssets.G /\
  length TwoAssets.tilted_benchmark = 2%nat /\
  Cholesky.is_cholesky 2 (mscale (scalar ^ 2) TwoAssets.cov) TwoAssets.U /\
  MeanVariance.efficient_portfolio 2 TwoAssets.means TwoAssets.cov
    TwoAssets.G TwoAssets.h TwoAssets.return_target TwoAssets.e_star /\
  CVX.socp_contract TwoAssets.program TwoAssets.solution /\
  CVX.sol_status TwoAssets.solution = CVX.optimal /\
  TargetRisk.e_star_risk TwoAssets.solution = Ok (Floats TwoAssets.e_star) /\
  CVX.socp_contract TwoAssets.program3 TwoAssets.solution3 /\
  CVX.sol_status TwoAssets.solution3 = CVX.optimal /\
  vsub TwoAssets.e_star TwoAssets.tilted_benchmark = [0.2; -0.2] /\
  0 < TrackingError.te_target 2 TwoAssets.cov TwoAssets.e_star
        TwoAssets.tilted_benchmark /\
  CVX.conformable TwoAssets.program3 /\
  exists w d,
    TrackingError.e_star_dual_risk 2 TwoAssets.solution3 = Ok (Floats w) /\
    w = TwoAssets.e_star /\
    Validation.max_abs_exposure_difference w TwoAssets.e_star = Ok d /\
    d <= 1e-6.
Proof.
  pose proof two_assets_G_rows as HG.
  pose proof two_assets_cholesky as HU.
  pose proof two_assets_efficient as He.
  pose proof two_assets_contract as Hc1.
  pose proof two_assets_contract3 as Hc3.
  repeat (split; [first [reflexivity | assumption]|]).
  split; [exact two_assets_tilted_difference|].
  split; [exact two_assets_tilted_target|].
  pose proof (tracking_error_reproduces_target_risk 2 TwoAssets.means
                TwoAssets.cov TwoAssets.G TwoAssets.h TwoAssets.return_target
                TwoAssets.e_star TwoAssets.U TwoAssets.tilted_benchmark
                TwoAssets.solution TwoAssets.solution3 TwoAssets.e_star
                eq_refl HG eq_refl HU He Hc1 eq_refl eq_refl Hc3 eq_refl)
    as (Hconf & _ & _ & Hw).
  split; [exact Hconf | exact Hw].
Defined.

(** C3: with [scalar = 100] and any symmetric positive definite
    covariance, [cholesky(scalar**2 * cov)] has a factor to return; and
    for whichever factor [U] it returns, [L = -U], placed in rows 1..I of
    the cone matrix, satisfies [L.T @ L = scalar^2 * cov], and for every
    weight vector and every positive risk target the scaled cone
    constraint [|L w| <= rho * scalar], also as the solver reads it from
    [Gq] and [hq], holds exactly when [sqrt (w.T cov w) <= rho]. *)
Theorem risk_cone_scaling (I : nat) (cov : mat) :
  Cholesky.spd I cov ->
  scalar = 100 /\
  (exists U, Cholesky.is_cholesky I (mscale (scalar ^ 2) cov) U) /\
  forall U, Cholesky.is_cholesky I (mscale (scalar ^ 2) cov) U ->
    mmul I (transpose I (TargetRisk.L U)) (TargetRisk.L U)
    = mscale (scalar ^ 2) cov /\
    TargetRisk.Gq I (TargetRisk.L U) = [zeros I :: TargetRisk.L U] /\
    forall w rho, length w = I -> 0 < rho ->
      (sqrt (dot (matvec (TargetRisk.L U) w) (matvec (TargetRisk.L U) w))
       <= rho * scalar
       <-> sqrt (quad_form I cov w) <= rho) /\
      (Forall2 (fun Gk hk => CVX.in_soc (vsub hk (matvec Gk w)))
         (TargetRisk.Gq I (TargetRisk.L U)) (TargetRisk.hq I rho)
       <-> sqrt (quad_form I cov w) <= rho).
Proof.
  intros Hspd; pose proof scalar_pos as Hs.
  split; [reflexivity|]. split.
  { exists (Cholesky.factor I (mscale (scalar ^ 2) cov)).
    apply cholesky_exists, spd_mscale; [nra | exact Hspd]. }
  intros U HU; pose proof (L_shape I cov U HU) as HL.
  split; [unfold TargetRisk.L; rewrite mmul_transpose_mneg; apply HU|].
  split; [apply TargetRisk_Gq_rows; exact HL|].
  intros w rho Hw Hrho.
  assert (Hnorm : sqrt (dot (matvec (TargetRisk.L U) w)
                          (matvec (TargetRisk.L U) w)) <= rho * scalar
                  <-> sqrt (quad_form I cov w) <= rho).
  { unfold TargetRisk.L; rewrite (cholesky_norm I scalar cov U HU) by exact Hs.
    split; intros Hle; nra. }
  split; [exact Hnorm|].
  rewrite TargetRisk_Gq_rows, TargetRisk_hq_rows by exact HL.
  rewrite Forall2_singleton, in_soc_block by (destruct HL; assumption).
  exact Hnorm.
Qed.

(** The covariance of the two-asset scenario is symmetric positive
    definite. *)
Lemma risk_cone_scaling_witness :
  Cholesky.spd 2 TwoAssets.cov /\
  exists U, Cholesky.is_cholesky 2 (mscale (scalar ^ 2) TwoAssets.cov) U.
Proof.
  pose proof two_assets_spd as Hspd.
  split; [exact Hspd|].
  exact (proj1 (proj2 (risk_cone_scaling 2 TwoAssets.cov Hspd))).
Defined.

(** C4: in the tracking-error formulation the equality block of cell 8
    (the row [1..1, 0..0] over [Identity, -Identity], with right-hand side
    1 over the benchmark) holds at [x = w ++ t] exactly when the weights sum
    to one and [w - t] is the benchmark, that is when [t = w - benchmark]. *)
Theorem benchmark_relation_equalities (I : nat) (e_bm w t : vec) :
  length w = I -> length t = I -> length e_bm = I ->
  TrackingError.A I = (ones I ++ zeros I) :: hstack (eye I) (mneg (eye I)) /\
  TrackingError.b e_bm = 1 :: e_bm /\
  (matvec (TrackingError.A I) (w ++ t) = TrackingError.b e_bm
   <-> dot (ones I) w = 1 /\ vsub w t = e_bm) /\
  (matvec (TrackingError.A I) (w ++ t) = TrackingError.b e_bm
   <-> dot (ones I) w = 1 /\ t = vsub w e_bm).
Proof.
  intros Hw Ht Hbm; split; [reflexivity|]; split; [reflexivity|].
  rewrite matvec_A_ext by assumption; unfold TrackingError.b.
  assert (Hiff : vsub w t = e_bm <-> t = vsub w e_bm)
    by (apply vsub_eq_iff; congruence).
  split; split.
  - intros H; injection H as Hb Hrel; tauto.
  - intros [Hb Hrel]; rewrite Hb, Hrel; reflexivity.
  - intros H; injection H as Hb Hrel; tauto.
  - intros [Hb Hrel]; apply Hiff in Hrel; rewrite Hb, Hrel; reflexivity.
Qed.

(** Two assets, the weights [0.5, 0.5] and the benchmark [0.5, 0.5]. *)
Lemma benchmark_relation_equalities_witness :
  length TwoAssets.e_star = 2%nat /\ length [0; 0] = 2%nat /\
  length [0.5; 0.5] = 2%nat /\
  (matvec (TrackingError.A 2) (TwoAssets.e_star ++ [0; 0])
   = TrackingError.b [0.5; 0.5]
   <-> dot (ones 2) TwoAssets.e_star = 1 /\ [0; 0] = vsub TwoAssets.e_star [0.5; 0.5]).
Proof.
  repeat (split; [reflexivity|]).
  exact (proj2 (proj2 (proj2
    (benchmark_relation_equalities 2 [0.5; 0.5] TwoAssets.e_star [0; 0]
       eq_refl eq_refl eq_refl)))).
Defined.

(** C5: in the tracking-error formulation the extended objective is the
    means followed by [I] zeros, as long as [x = w ++ t], and gives
    [means2 . x = means . w]; the two cone matrices have [I + 1] rows and
    [2 I] columns; rows 1..I of the first hold [L] in the columns 0..I-1
    and zeros in the columns I..2I-1, rows 1..I of the second hold zeros in
    the columns 0..I-1 and the same [L] in the columns I..2I-1; so the
    first cone constraint bounds the norm of [L w] and the second the norm
    of [L t]. *)
Theorem tracking_error_blocks
  (I : nat) (means : vec) (L : mat) (rho tau : R) (w t : vec) :
  length means = I -> is_mat I I L -> length w = I -> length t = I ->
  let G0 := zeros (2 * I) :: map (fun r => r ++ zeros I) L in
  let G1 := zeros (2 * I) :: map (fun r => zeros I ++ r) L in
  let h0 := rho * scalar :: zeros I in
  let h1 := tau * scalar :: zeros I in
  TrackingError.means2 I means = means ++ zeros I /\
  length (TrackingError.means2 I means) = length (w ++ t) /\
  dot (TrackingError.means2 I means) (w ++ t) = dot means w /\
  TrackingError.Gq2 I L = [G0; G1] /\
  TrackingError.hq2 I rho tau = [h0; h1] /\
  is_mat (I + 1) (2 * I) G0 /\
  is_mat (I + 1) (2 * I) G1 /\
  (forall i, (i < I)%nat ->
     nth (S i) G0 [] = nth i L [] ++ zeros I /\
     nth (S i) G1 [] = zeros I ++ nth i L [] /\
     length (nth i L []) = I) /\
  (forall i j, (i < I)%nat -> (j < I)%nat ->
     nth j (nth (S i) G0 []) 0 = nth j (nth i L []) 0 /\
     nth (I + j) (nth (S i) G0 []) 0 = 0 /\
     nth j (nth (S i) G1 []) 0 = 0 /\
     nth (I + j) (nth (S i) G1 []) 0 = nth j (nth i L []) 0) /\
  (CVX.in_soc (vsub h0 (matvec G0 (w ++ t)))
   <-> sqrt (dot (matvec L w) (matvec L w)) <= rho * scalar) /\
  (CVX.in_soc (vsub h1 (matvec G1 (w ++ t)))
   <-> sqrt (dot (matvec L t) (matvec L t)) <= tau * scalar).
Proof.
  intros Hm HL Hw Ht G0 G1 h0 h1.
  split; [reflexivity|].
  split.
  { unfold TrackingError.means2, hstack1.
    rewrite !length_app, zeros_length; congruence. }
  split; [apply dot_means2; congruence|].
  split; [apply TrackingError_Gq2_rows; exact HL|].
  split; [unfold TrackingError.hq2; rewrite !set_item_zeros; reflexivity|].
  destruct (TrackingError_Gq2_shape I L HL) as [HG0 HG1].
  split; [exact HG0|]. split; [exact HG1|].
  pose proof HL as [HLl HLr].
  assert (Hrow : forall i, (i < I)%nat ->
            nth (S i) G0 [] = nth i L [] ++ zeros I /\
            nth (S i) G1 [] = zeros I ++ nth i L [] /\
            length (nth i L []) = I).
  { intros i Hi; unfold G0, G1; cbn [nth].
    rewrite !nth_map_row by (rewrite HLl; exact Hi).
    repeat split; apply (nth_row_length I L i HL Hi). }
  split; [exact Hrow|].
  split; [|split].
  - intros i j Hi Hj.
    destruct (Hrow i Hi) as (-> & -> & Hlen).
    set (row := nth i L []) in *.
    repeat split.
    + apply app_nth1; rewrite Hlen; exact Hj.
    + rewrite app_nth2 by (rewrite Hlen; lia); apply nth_zeros.
    + rewrite app_nth1 by (rewrite zeros_length; exact Hj); apply nth_zeros.
    + rewrite app_nth2 by (rewrite zeros_length; lia).
      rewrite zeros_length; f_equal; lia.
  - unfold G0, h0.
    rewrite in_soc_block by (rewrite length_map; exact HLl).
    rewrite matvec_app_zeros_r by assumption; reflexivity.
  - unfold G1, h1.
    rewrite in_soc_block by (rewrite length_map; exact HLl).
    rewrite matvec_app_zeros_l by assumption; reflexivity.
Qed.

(** Two assets, with the factor of the two-asset scenario: the extended
    objective has four entries and the cone matrices are three by four. *)
Lemma tracking_error_blocks_witness :
  length TwoAssets.means = 2%nat /\
  is_mat 2 2 (TargetRisk.L TwoAssets.U) /\
  length TwoAssets.e_star = 2%nat /\ length [0.2; -0.2] = 2%nat /\
  TrackingError.means2 2 TwoAssets.means = [0.08; 0.02; 0; 0] /\
  dot (TrackingError.means2 2 TwoAssets.means)
    (TwoAssets.e_star ++ [0.2; -0.2])
  = dot TwoAssets.means TwoAssets.e_star /\
  TrackingError.Gq2 2 (TargetRisk.L TwoAssets.U)
  = [[[0; 0; 0; 0]; [- (20); - (0); 0; 0]; [- (0); - (10); 0; 0]];
     [[0; 0; 0; 0]; [0; 0; - (20); - (0)]; [0; 0; - (0); - (10)]]].
Proof.
  assert (HL : is_mat 2 2 (TargetRisk.L TwoAssets.U))
    by (split; [reflexivity | repeat constructor]).
  repeat (split; [first [reflexivity | exact HL]|]).
  pose proof (tracking_error_blocks 2 TwoAssets.means
                (TargetRisk.L TwoAssets.U) 1 1 TwoAssets.e_star [0.2; -0.2]
                eq_refl HL eq_refl eq_refl) as (H1 & _ & H3 & H4 & _).
  split; [exact H3 | exact H4].
Defined.

(** C6, as stated, fails: with a risk target of 5% in the two-asset
    scenario the cone program is infeasible and the solver answers with
    status [primal_infeasible] and no vector, yet cell 5 raises nothing: it
    evaluates to an array that holds [None].  And when the solver answers
    with status [unknown], its last iterate is returned as the weights. *)
Lemma non_optimal_status_counterexample :
  CVX.socp_contract TwoAssets.infeasible_program TwoAssets.infeasible_solution /\
  CVX.sol_status TwoAssets.infeasible_solution <> CVX.optimal /\
  TargetRisk.e_star_risk TwoAssets.infeasible_solution = Ok ObjectNone /\
  ~ (exists e, TargetRisk.e_star_risk TwoAssets.infeasible_solution = Raise e) /\
  CVX.socp_contract TwoAssets.infeasible_program TwoAssets.unknown_solution /\
  CVX.sol_status TwoAssets.unknown_solution <> CVX.optimal /\
  TargetRisk.e_star_risk TwoAssets.unknown_solution = Ok (Floats [0.6; 0.4]).
Proof.
  split; [exact two_assets_infeasible_contract|].
  split; [discriminate|]. split; [reflexivity|].
  split; [intros [e He]; discriminate He|].
  split; [exact two_assets_unknown_contract|].
  split; [discriminate | reflexivity].
Qed.

(** C6, amended: the cells never read the solver's status.  When the
    call raises, the cell raises the same exception and assigns no
    weights.  When it returns, the ['x'] entry alone decides: [None]
    there, which is what comes with status [primal_infeasible], makes
    cell 5 evaluate to an array holding [None] without raising and cell
    10 raise a [TypeError] on slicing it; a vector there, which is what
    comes with status [unknown], is passed on as the weights (its first
    [I] entries in cell 10), whatever the status.  When the program has
    no feasible point the status is never [optimal], and cell 5 holds
    [None] or passes on a vector that violates the constraints; the
    program of cell 5 has no feasible point when the risk target is below
    the volatility of the minimum-variance portfolio. *)
Theorem non_optimal_status_outcomes
  (I : nat) (P : CVX.cone_program) (out : result CVX.solution) :
  CVX.socp P out ->
  (forall e, out = Raise e ->
     TargetRisk.e_star_risk_of out = Raise e /\
     TrackingError.e_star_dual_risk_of I out = Raise e) /\
  (forall sol, out = Ok sol ->
     (forall st,
        TargetRisk.e_star_risk
          {| CVX.sol_status := st; CVX.sol_x := CVX.sol_x sol |}
        = TargetRisk.e_star_risk_of out /\
        TrackingError.e_star_dual_risk I
          {| CVX.sol_status := st; CVX.sol_x := CVX.sol_x sol |}
        = TrackingError.e_star_dual_risk_of I out) /\
     (CVX.sol_x sol = None ->
        TargetRisk.e_star_risk_of out = Ok ObjectNone /\
        TrackingError.e_star_dual_risk_of I out = Raise TypeError) /\
     (forall x, CVX.sol_x sol = Some x ->
        TargetRisk.e_star_risk_of out = Ok (Floats x) /\
        TrackingError.e_star_dual_risk_of I out = Ok (Floats (firstn I x))) /\
     (CVX.sol_status sol = CVX.primal_infeasible -> CVX.sol_x sol = None) /\
     (CVX.sol_status sol = CVX.unknown -> exists x, CVX.sol_x sol = Some x) /\
     ((forall x, ~ CVX.feasible P x) ->
        CVX.sol_status sol <> CVX.optimal /\
        (TargetRisk.e_star_risk_of out = Ok ObjectNone \/
         exists x, TargetRisk.e_star_risk_of out = Ok (Floats x) /\
                   ~ CVX.feasible P x))) /\
  (forall means cov G h U rho m,
     length means = I ->
     Cholesky.is_cholesky I (mscale (scalar ^ 2) cov) U ->
     MeanVariance.minimum_variance I cov G h m ->
     rho < Validation.portfolio_volatility I cov m ->
     P = TargetRisk.program I means G h (TargetRisk.L U) rho ->
     forall x, ~ CVX.feasible P x).
Proof.
  intros Hcall; split; [|split].
  - intros e ->; split; reflexivity.
  - intros sol ->; destruct Hcall as [_ Hc].
    unfold TargetRisk.e_star_risk_of, TrackingError.e_star_dual_risk_of,
      TargetRisk.e_star_risk, TrackingError.e_star_dual_risk,
      CVX.socp_contract in *; cbn [CVX.sol_x].
    split; [intros st; split; reflexivity|].
    split; [intros ->; split; reflexivity|].
    split; [intros x ->; split; reflexivity|].
    split; [intros Hs; rewrite Hs in Hc; apply Hc|].
    split.
    + intros Hs; rewrite Hs in Hc; destruct Hc as (x & Hx & _).
      exists x; exact Hx.
    + intros Hinf; split.
      * intros Hs; rewrite Hs in Hc; destruct Hc as (x & _ & Hfx & _).
        exact (Hinf x Hfx).
      * destruct (CVX.sol_x sol) as [x|]; [right | left; reflexivity].
        exists x; split; [reflexivity | apply Hinf].
  - intros means cov G h U rho m Hm HU [Hadm Hmin] Hrho -> x Hx.
    apply (TargetRisk_feasible_volatility I means cov G h U Hm HU) in Hx.
    destruct Hx as [Hax Hvol]; specialize (Hmin x Hax).
    unfold Validation.portfolio_volatility in *.
    apply sqrt_le_1_alt in Hmin; lra.
Qed.

(** The call of the two-asset scenario with a risk target of 5%: the
    minimum-variance portfolio [0.2, 0.8] has a higher volatility, the
    program has no feasible point, and the solver's answer leaves cell 5
    with an array holding [None]. *)
Lemma non_optimal_status_outcomes_witness :
  CVX.socp TwoAssets.infeasible_program (Ok TwoAssets.infeasible_solution) /\
  TargetRisk.e_star_risk_of (Ok TwoAssets.infeasible_solution)
  = Ok ObjectNone /\
  TrackingError.e_star_dual_risk_of 2 (Ok TwoAssets.infeasible_solution)
  = Raise TypeError /\
  forall x, ~ CVX.feasible TwoAssets.infeasible_program x.
Proof.
  assert (Hcall : CVX.socp TwoAssets.infeasible_program
                    (Ok TwoAssets.infeasible_solution))
    by (split; [exact two_assets_infeasible_conformable
               | exact two_assets_infeasible_contract]).
  pose proof (non_optimal_status_outcomes 2 TwoAssets.infeasible_program
                (Ok TwoAssets.infeasible_solution) Hcall)
    as (_ & Hret & Hbelow).
  destruct (Hret _ eq_refl) as (_ & Hnone & _).
  destruct (Hnone eq_refl) as [H5 H10].
  split; [exact Hcall|]. split; [exact H5|]. split; [exact H10|].
  exact (Hbelow TwoAssets.means TwoAssets.cov TwoAssets.G TwoAssets.h
           TwoAssets.U 0.05 [0.2; 0.8] eq_refl two_assets_cholesky
           two_assets_minimum_variance two_assets_minimum_volatility
           eq_refl).
Defined.

(** C7: in the two-asset scenario (means [0.08, 0.02], covariance
    [[0.04, 0], [0, 0.01]], long-only, fully invested, return target 0.05)
    the target-return solution is [0.5, 0.5], which is also the only point
    that meets the budget, the return target and the long-only bounds; its
    volatility is sqrt(0.0125), about 0.1118; and the target-risk cone
    program with that volatility as risk target has [0.5, 0.5] as its only
    minimiser, so an optimal solve returns it. *)
Theorem two_asset_scenario :
  (forall e,
     MeanVariance.efficient_portfolio 2 TwoAssets.means TwoAssets.cov
       TwoAssets.G TwoAssets.h TwoAssets.return_target e
     <-> e = [0.5; 0.5]) /\
  (forall y,
     is_vec 2 y /\ Forall2 Rle (matvec TwoAssets.G y) TwoAssets.h /\
     dot (ones 2) y = 1 /\ dot TwoAssets.means y = TwoAssets.return_target
     <-> y = [0.5; 0.5]) /\
  TargetRisk.risk_target 2 TwoAssets.cov [0.5; 0.5] = sqrt 0.0125 /\
  0.1118 < sqrt 0.0125 < 0.1119 /\
  Cholesky.is_cholesky 2 (mscale (scalar ^ 2) TwoAssets.cov) TwoAssets.U /\
  (forall x, CVX.minimiser TwoAssets.program x <-> x = [0.5; 0.5]) /\
  (forall sol,
     CVX.socp_contract TwoAssets.program sol ->
     CVX.sol_status sol = CVX.optimal ->
     TargetRisk.e_star_risk sol = Ok (Floats [0.5; 0.5]) /\
     Validation.max_abs_exposure_difference [0.5; 0.5] [0.5; 0.5] = Ok 0).
Proof.
  split; [exact two_assets_efficient_iff|].
  split; [exact two_assets_equality_point|].
  split.
  { unfold TargetRisk.risk_target; f_equal.
    rewrite two_assets_quad_form; lra. }
  split; [apply sqrt_between; lra|].
  split; [exact two_assets_cholesky|].
  split; [exact two_assets_minimiser|].
  intros sol Hc Hs.
  destruct (e_star_risk_optimal _ _ Hc Hs) as (x & Hx & Hmin).
  apply two_assets_minimiser in Hmin; subst x; split; [exact Hx|].
  apply max_abs_exposure_difference_self; discriminate.
Qed.

(** C8: the weights of a solve are the entries of the solver's solution
    vector, unchanged and in the same order (the first [I] entries in the
    tracking-error case), with no division by [scalar]; and the
    minimisers of each cone program are those of the same program with
    the unscaled objective [-means], so the factor [scalar] on the
    objective does not reach the weights. *)
Theorem returned_weights_are_solver_entries :
  (forall st x,
     TargetRisk.e_star_risk {| CVX.sol_status := st; CVX.sol_x := Some x |}
     = Ok (Floats x)) /\
  (forall I st x,
     TrackingError.e_star_dual_risk I
       {| CVX.sol_status := st; CVX.sol_x := Some x |}
     = Ok (Floats (firstn I x))) /\
  (forall I means G h L rho x,
     CVX.minimiser (TargetRisk.program I means G h L rho) x
     <-> CVX.minimiser
           (CVX.with_objective (TargetRisk.program I means G h L rho)
              (vneg means)) x) /\
  (forall I means G h e_bm L rho tau x,
     CVX.minimiser (TrackingError.program I means G h e_bm L rho tau) x
     <-> CVX.minimiser
           (CVX.with_objective
              (TrackingError.program I means G h e_bm L rho tau)
              (vneg (TrackingError.means2 I means))) x).
Proof.
  split; [reflexivity|]. split; [reflexivity|].
  split; intros.
  - apply (minimiser_with_objective _ _ scalar); [exact scalar_pos | |].
    + unfold TargetRisk.program; cbn [CVX.c].
      rewrite objective_length, vneg_length; reflexivity.
    + intros y; apply dot_objective_vneg.
  - apply (minimiser_with_objective _ _ scalar); [exact scalar_pos | |].
    + unfold TrackingError.program; cbn [CVX.c].
      rewrite objective_length, vneg_length; reflexivity.
    + intros y; apply dot_objective_vneg.
Qed.

(** C9: for every weight vector the validation cells compute, from the
    moments they were given, the realised volatility [sqrt (w^T cov w)],
    the realised return [means^T w], the realised tracking error
    [sqrt ((w - benchmark)^T cov (w - benchmark))] and the maximum
    absolute elementwise difference against the reference portfolio; they
    report these figures whatever the discrepancy and raise nothing. *)
Theorem validation_figures
  (I : nat) (means : vec) (cov : mat) (w ref e_bm : vec) :
  (0 < I)%nat -> length means = I -> is_mat I I cov ->
  length w = I -> length ref = I -> length e_bm = I ->
  (exists rep,
     Validation.validate_risk I means cov w ref = Ok rep /\
     Spec.is_max_abs_difference I w ref (Validation.rep_difference rep) /\
     Validation.rep_volatility rep = Spec.realized_volatility I cov w /\
     Validation.rep_return rep = Spec.realized_return I means w /\
     Validation.rep_tracking_error rep = None) /\
  (exists rep,
     Validation.validate_dual_risk I means cov w ref e_bm = Ok rep /\
     Spec.is_max_abs_difference I w ref (Validation.rep_difference rep) /\
     Validation.rep_volatility rep = Spec.realized_volatility I cov w /\
     Validation.rep_return rep = Spec.realized_return I means w /\
     Validation.rep_tracking_error rep
     = Some (Spec.realized_tracking_error I cov w e_bm)).
Proof.
  intros HI Hm HS Hw Href Hbm.
  destruct (max_abs_exposure_difference_spec I w ref HI Hw Href)
    as (d & Hd & Hmax).
  assert (Hvol : Validation.portfolio_volatility I cov w
                 = Spec.realized_volatility I cov w).
  { unfold Validation.portfolio_volatility, Spec.realized_volatility.
    rewrite quad_form_quadratic by assumption; reflexivity. }
  assert (Hret : Validation.expected_return means w
                 = Spec.realized_return I means w)
    by (apply dot_sum_upto; assumption).
  assert (Hte : Validation.tracking_error_volatility I cov w e_bm
                = Spec.realized_tracking_error I cov w e_bm).
  { unfold Validation.tracking_error_volatility, Validation.te_pf_opt,
      Spec.realized_tracking_error.
    rewrite quad_form_quadratic
      by (try assumption; rewrite vsub_length; congruence).
    f_equal; apply quadratic_ext; intros i Hi.
    apply coord_vsub; congruence. }
  split.
  - unfold Validation.validate_risk; rewrite Hd.
    eexists; split; [reflexivity|]; simpl; auto.
  - unfold Validation.validate_dual_risk; rewrite Hd.
    eexists; split; [reflexivity|]; simpl; rewrite Hte; auto.
Qed.

(** Two assets, the weights [0.6, 0.4] against [0.5, 0.5]. *)
Lemma validation_figures_witness :
  (0 < 2)%nat /\ length TwoAssets.means = 2%nat /\
  is_mat 2 2 TwoAssets.cov /\
  length [0.6; 0.4] = 2%nat /\ length TwoAssets.e_star = 2%nat /\
  length TwoAssets.e_bm = 2%nat /\
  exists rep,
    Validation.validate_risk 2 TwoAssets.means TwoAssets.cov
      [0.6; 0.4] TwoAssets.e_star = Ok rep /\
    Spec.is_max_abs_difference 2 [0.6; 0.4] TwoAssets.e_star
      (Validation.rep_difference rep) /\
    Validation.rep_volatility rep
    = Spec.realized_volatility 2 TwoAssets.cov [0.6; 0.4] /\
    Validation.rep_return rep
    = Spec.realized_return 2 TwoAssets.means [0.6; 0.4] /\
    Validation.rep_tracking_error rep = None.
Proof.
  assert (HS : is_mat 2 2 TwoAssets.cov)
    by (split; [reflexivity | repeat constructor]).
  split; [lia|].
  repeat (split; [first [reflexivity | exact HS]|]).
  exact (proj1 (validation_figures 2 TwoAssets.means TwoAssets.cov
                  [0.6; 0.4] TwoAssets.e_star TwoAssets.e_bm
                  (Nat.lt_0_succ 1) eq_refl HS eq_refl eq_refl eq_refl)).
Defined.

(** C10: the constraints of cell 3, [G = [Identity; -Identity]] with
    [h = [0.25 ones; zeros]], say [0 <= w <= 0.25] elementwise; together
    with the budget equality [sum w = 1] they have a common point exactly
    when there are at least four assets; and the equal-weight benchmark
    [e_bm = ones / I] satisfies them exactly when [I >= 4]. *)
Theorem position_bounds_feasible (I : nat) :
  (forall w, length w = I ->
     (Forall2 Rle (matvec (Data.G I) w) (Data.h I)
      <-> Forall (fun x => 0 <= x <= 0.25) w)) /\
  ((exists w, length w = I /\
              Forall2 Rle (matvec (Data.G I) w) (Data.h I) /\
              matvec (TargetRisk.A I) w = TargetRisk.b)
   <-> (4 <= I)%nat) /\
  (Forall2 Rle (matvec (Data.G I) (Data.e_bm I)) (Data.h I) /\
   matvec (TargetRisk.A I) (Data.e_bm I) = TargetRisk.b
   <-> (4 <= I)%nat).
Proof.
  assert (Hnec : forall w, length w = I ->
            Forall2 Rle (matvec (Data.G I) w) (Data.h I) ->
            matvec (TargetRisk.A I) w = TargetRisk.b -> (4 <= I)%nat).
  { intros w Hl HG Hb; apply four_le_INR.
    apply position_bounds_iff in HG; [|exact Hl].
    apply matvec_budget in Hb.
    pose proof (budget_upper_bound w HG) as Hsum.
    rewrite Hl in Hsum; lra. }
  assert (Hsuf : (4 <= I)%nat ->
            Forall2 Rle (matvec (Data.G I) (Data.e_bm I)) (Data.h I) /\
            matvec (TargetRisk.A I) (Data.e_bm I) = TargetRisk.b).
  { intros HI; destruct (e_bm_feasible I HI) as [Hbounds Hsum]; split.
    - apply position_bounds_iff; [apply e_bm_length | exact Hbounds].
    - apply matvec_budget; exact Hsum. }
  split; [exact (position_bounds_iff I)|]; split; split.
  - intros (w & Hl & HG & Hb); exact (Hnec w Hl HG Hb).
  - intros HI; exists (Data.e_bm I); split; [apply e_bm_length|auto].
  - intros [HG Hb]; exact (Hnec _ (e_bm_length I) HG Hb).
  - exact Hsuf.
Qed.

(** * Further properties of the cells *)

(** ** What the two cone programs optimise *)

(** X1: for any risk target, the minimisers of the cone program of cell 5
    are the portfolios of greatest expected return among those that meet
    the linear constraints and the budget and whose volatility is at most
    the risk target; [scalar] and the sign of the factor play no part. *)
Theorem target_risk_program_maximises_return
  (I : nat) (means : vec) (cov G : mat) (h : vec) (U : mat) (rho : R)
  (x : vec) :
  length means = I ->
  Cholesky.is_cholesky I (mscale (scalar ^ 2) cov) U ->
  (CVX.minimiser (TargetRisk.program I means G h (TargetRisk.L U) rho) x
   <-> (MeanVariance.admissible I G h x /\
        Validation.portfolio_volatility I cov x <= rho) /\
       forall y,
         MeanVariance.admissible I G h y ->
         Validation.portfolio_volatility I cov y <= rho ->
         Validation.expected_return means y
         <= Validation.expected_return means x).
Proof.
  intros Hm HU; pose proof scalar_pos as Hs.
  unfold CVX.minimiser, Validation.expected_return.
  rewrite (TargetRisk_feasible_volatility I means cov G h U Hm HU).
  split; intros [Hfx Hmax]; split; try exact Hfx.
  - intros y Hy Hvol.
    assert (Hfy : CVX.feasible
                    (TargetRisk.program I means G h (TargetRisk.L U) rho) y)
      by (apply (TargetRisk_feasible_volatility I means cov G h U Hm HU);
          split; assumption).
    specialize (Hmax y Hfy); rewrite !TargetRisk_objective in Hmax; nra.
  - intros y Hy.
    apply (TargetRisk_feasible_volatility I means cov G h U Hm HU) in Hy.
    destruct Hy as [Hadm Hvol]; specialize (Hmax y Hadm Hvol).
    rewrite !TargetRisk_objective; nra.
Qed.

(** Two assets, with the risk target of the two-asset scenario. *)
Lemma target_risk_program_maximises_return_witness :
  length TwoAssets.means = 2%nat /\
  Cholesky.is_cholesky 2 (mscale (scalar ^ 2) TwoAssets.cov) TwoAssets.U /\
  (CVX.minimiser TwoAssets.program TwoAssets.e_star
   <-> (MeanVariance.admissible 2 TwoAssets.G TwoAssets.h TwoAssets.e_star /\
        Validation.portfolio_volatility 2 TwoAssets.cov TwoAssets.e_star
        <= TargetRisk.risk_target 2 TwoAssets.cov TwoAssets.e_star) /\
       forall y,
         MeanVariance.admissible 2 TwoAssets.G TwoAssets.h y ->
         Validation.portfolio_volatility 2 TwoAssets.cov y
         <= TargetRisk.risk_target 2 TwoAssets.cov TwoAssets.e_star ->
         Validation.expected_return TwoAssets.means y
         <= Validation.expected_return TwoAssets.means TwoAssets.e_star).
Proof.
  pose proof two_assets_cholesky as HU.
  split; [reflexivity|]. split; [exact HU|].
  exact (target_risk_program_maximises_return 2 TwoAssets.means TwoAssets.cov
           TwoAssets.G TwoAssets.h TwoAssets.U
           (TargetRisk.risk_target 2 TwoAssets.cov TwoAssets.e_star)
           TwoAssets.e_star eq_refl HU).
Defined.

(** X2: when the constraints admit a minimum-variance portfolio, the cone
    program of cell 5 has a feasible point exactly when the risk target is
    at least the volatility of that portfolio; below it no point is
    feasible, whatever the means. *)
Theorem target_risk_program_feasible_iff
  (I : nat) (means : vec) (cov G : mat) (h : vec) (U : mat) (rho : R)
  (m : vec) :
  length means = I ->
  Cholesky.is_cholesky I (mscale (scalar ^ 2) cov) U ->
  MeanVariance.minimum_variance I cov G h m ->
  ((exists x,
      CVX.feasible (TargetRisk.program I means G h (TargetRisk.L U) rho) x)
   <-> Validation.portfolio_volatility I cov m <= rho).
Proof.
  intros Hm HU [Hadm Hmin]; split.
  - intros [x Hx].
    apply (TargetRisk_feasible_volatility I means cov G h U Hm HU) in Hx.
    destruct Hx as [Hax Hvol]; specialize (Hmin x Hax).
    unfold Validation.portfolio_volatility in *.
    apply Rle_trans with (2 := Hvol); apply sqrt_le_1_alt; exact Hmin.
  - intros Hvol; exists m.
    apply (TargetRisk_feasible_volatility I means cov G h U Hm HU).
    split; assumption.
Qed.


(** Two assets, with a risk target of 5%. *)
Lemma target_risk_program_feasible_iff_witness :
  length TwoAssets.means = 2%nat /\
  Cholesky.is_cholesky 2 (mscale (scalar ^ 2) TwoAssets.cov) TwoAssets.U /\
  MeanVariance.minimum_variance 2 TwoAssets.cov TwoAssets.G TwoAssets.h
    [0.2; 0.8] /\
  ((exists x, CVX.feasible TwoAssets.infeasible_program x)
   <-> Validation.portfolio_volatility 2 TwoAssets.cov [0.2; 0.8] <= 0.05).
Proof.
  pose proof two_assets_cholesky as HU.
  pose proof two_assets_minimum_variance as Hmv.
  split; [reflexivity|]. split; [exact HU|]. split; [exact Hmv|].
  exact (target_risk_program_feasible_iff 2 TwoAssets.means TwoAssets.cov
           TwoAssets.G TwoAssets.h TwoAssets.U 0.05 [0.2; 0.8]
           eq_refl HU Hmv).
Defined.

(** X3: the risk target that cell 5 computes from a fully invested
    portfolio is strictly positive, so the bound [hq[0][0]] of the cone is
    positive too. *)
Theorem risk_target_positive (I : nat) (cov : mat) (U : mat) (e_star : vec) :
  Cholesky.is_cholesky I (mscale (scalar ^ 2) cov) U ->
  length e_star = I -> dot (ones I) e_star = 1 ->
  0 < TargetRisk.risk_target I cov e_star /\
  exists r0, TargetRisk.hq I (TargetRisk.risk_target I cov e_star)
             = [r0 :: zeros I] /\ 0 < r0.
Proof.
  intros HU Hl Hb; pose proof scalar_pos as Hs.
  assert (Hpos : 0 < TargetRisk.risk_target I cov e_star).
  { unfold TargetRisk.risk_target; apply sqrt_lt_R0.
    destruct (Rlt_or_le 0 (quad_form I cov e_star)) as [Hq|Hq]; [exact Hq|].
    apply (cholesky_quad_form_definite I scalar cov U HU) in Hq;
      [| lra | exact Hl].
    rewrite Hq, dot_zeros_r in Hb; lra. }
  split; [exact Hpos|].
  exists (TargetRisk.risk_target I cov e_star * scalar); split;
    [apply TargetRisk_hq_rows | nra].
Qed.

(** The base-case portfolio of the two-asset scenario. *)
Lemma risk_target_positive_witness :
  Cholesky.is_cholesky 2 (mscale (scalar ^ 2) TwoAssets.cov) TwoAssets.U /\
  length TwoAssets.e_star = 2%nat /\ dot (ones 2) TwoAssets.e_star = 1 /\
  0 < TargetRisk.risk_target 2 TwoAssets.cov TwoAssets.e_star.
Proof.
  pose proof two_assets_cholesky as HU.
  assert (Hb : dot (ones 2) TwoAssets.e_star = 1)
    by (unfold TwoAssets.e_star; np_eval; lra).
  split; [exact HU|]. split; [reflexivity|]. split; [exact Hb|].
  exact (proj1 (risk_target_positive 2 TwoAssets.cov TwoAssets.U
                  TwoAssets.e_star HU eq_refl Hb)).
Defined.

(** X4: the inequality block that cell 8 extends with [I] zero columns
    constrains the portfolio block only: at [x = w ++ t] it holds exactly
    when the original block holds at [w], whatever [t] is; every row of the
    extended block has [2 I] entries. *)
Theorem extended_inequalities_ignore_auxiliary
  (I : nat) (G : mat) (h : vec) (w t : vec) :
  Forall (is_vec I) G -> length w = I ->
  (Forall2 Rle (matvec (TrackingError.G I G) (w ++ t)) h
   <-> Forall2 Rle (matvec G w) h) /\
  Forall (is_vec (2 * I)) (TrackingError.G I G) /\
  length (TrackingError.G I G) = length G.
Proof.
  intros HG Hw; split; [rewrite matvec_G_ext by assumption; reflexivity|].
  unfold TrackingError.G, hstack, zeros2; split.
  - clear Hw; induction HG as [|row G Hrow HG IH]; simpl; constructor;
      [|exact IH].
    unfold is_vec in *; rewrite length_app, zeros_length; lia.
  - rewrite zipWith_length; [reflexivity|].
    rewrite repeat_length; reflexivity.
Qed.

(** The constraints of cell 3 for four assets, at the equal weights. *)
Lemma extended_inequalities_ignore_auxiliary_witness :
  Forall (is_vec 4) (Data.G 4) /\ length (Data.e_bm 4) = 4%nat /\
  (Forall2 Rle (matvec (TrackingError.G 4 (Data.G 4))
                  (Data.e_bm 4 ++ [1; 2; 3; 4])) (Data.h 4)
   <-> Forall2 Rle (matvec (Data.G 4) (Data.e_bm 4)) (Data.h 4)).
Proof.
  pose proof (Data_G_rows 4) as HG.
  split; [exact HG|]. split; [reflexivity|].
  exact (proj1 (extended_inequalities_ignore_auxiliary 4 (Data.G 4)
                  (Data.h 4) (Data.e_bm 4) [1; 2; 3; 4] HG eq_refl)).
Defined.

Section TrackingErrorProgramFacts.
Variable I : nat.
Variables (means : vec) (cov G : mat) (h : vec) (U : mat) (e_bm : vec).
Variables (rho tau : R).
Hypothesis Hmeans : length means = I.
Hypothesis HG : Forall (is_vec I) G.
Hypothesis Hbm : length e_bm = I.
Hypothesis HU : Cholesky.is_cholesky I (mscale (scalar ^ 2) cov) U.

Let P2 := TrackingError.program I means G h e_bm (TargetRisk.L U) rho tau.

(** The portfolios that meet the constraints and both targets. *)
Let within_targets (w : vec) : Prop :=
  MeanVariance.admissible I G h w /\
  Validation.portfolio_volatility I cov w <= rho /\
  Validation.tracking_error_volatility I cov w e_bm <= tau.

Lemma TrackingError_program_length x :
  CVX.feasible P2 x -> length x = (I + I)%nat.
Proof.
  intros (Hl & _); rewrite Hl.
  unfold P2, TrackingError.program; cbn [CVX.c].
  rewrite objective_length; unfold TrackingError.means2, hstack1.
  rewrite length_app, zeros_length, Hmeans; reflexivity.
Qed.

Lemma TrackingError_feasible_blocks w t :
  length w = I -> length t = I ->
  (CVX.feasible P2 (w ++ t) <-> within_targets w /\ t = vsub w e_bm).
Proof.
  intros Hw Ht; unfold P2.
  rewrite TrackingError_feasible
    by (try assumption; exact (L_shape I cov U HU)).
  rewrite !(scaled_norm_le I cov U HU).
  rewrite (vsub_eq_iff w t e_bm) by congruence.
  unfold within_targets, MeanVariance.admissible, is_vec,
    Validation.tracking_error_volatility, Validation.te_pf_opt,
    Validation.portfolio_volatility.
  split.
  - intros (H1 & H2 & H3 & H4 & H5); subst t; tauto.
  - intros ((H1 & H2 & H3) & H4); subst t; tauto.
Qed.

(** The feasible set of cell 10: a portfolio within the targets, followed
    by its difference from the benchmark. *)
Lemma TrackingError_feasible_iff x :
  CVX.feasible P2 x
  <-> exists w, x = w ++ vsub w e_bm /\ within_targets w.
Proof.
  split.
  - intros Hx; pose proof (TrackingError_program_length x Hx) as Hlen.
    assert (Hw : length (firstn I x) = I) by (rewrite length_firstn; lia).
    assert (Ht : length (skipn I x) = I) by (rewrite length_skipn; lia).
    rewrite <- (firstn_skipn I x) in Hx.
    apply (TrackingError_feasible_blocks _ _ Hw Ht) in Hx.
    destruct Hx as [Hin Heq]; exists (firstn I x); split; [|exact Hin].
    rewrite <- Heq; symmetry; apply firstn_skipn.
  - intros (w & -> & Hin); pose proof Hin as ((Hl & _) & _).
    apply TrackingError_feasible_blocks; auto.
    rewrite vsub_length; unfold is_vec in Hl; congruence.
Qed.

Lemma TrackingError_objective w t :
  length w = I ->
  dot (CVX.c P2) (w ++ t) = - scalar * dot means w.
Proof.
  intros Hw; unfold P2, TrackingError.program; cbn [CVX.c].
  rewrite dot_objective, dot_means2 by congruence; reflexivity.
Qed.

(** The minimisers of cell 10. *)
Lemma TrackingError_minimiser_iff x :
  CVX.minimiser P2 x
  <-> exists w, x = w ++ vsub w e_bm /\ within_targets w /\
        forall y, within_targets y -> dot means y <= dot means w.
Proof.
  pose proof scalar_pos as Hs; unfold CVX.minimiser.
  rewrite TrackingError_feasible_iff; split.
  - intros [(w & -> & Hin) Hmin]; exists w; repeat split; try apply Hin.
    intros y Hy.
    assert (Hfy : CVX.feasible P2 (y ++ vsub y e_bm))
      by (apply TrackingError_feasible_iff; exists y; split; auto).
    specialize (Hmin _ Hfy).
    rewrite !TrackingError_objective in Hmin
      by (apply Hin || apply Hy); nra.
  - intros (w & -> & Hin & Hmax); split; [exists w; split; auto|].
    intros y Hy; apply TrackingError_feasible_iff in Hy.
    destruct Hy as (v & -> & Hv); specialize (Hmax v Hv).
    rewrite !TrackingError_objective by (apply Hin || apply Hv); nra.
Qed.

End TrackingErrorProgramFacts.

(** X5: for any risk target, tracking-error target and benchmark, the
    minimisers of the cone program of cells 8 to 10 are the vectors
    [w ++ (w - e_bm)] where [w] has the greatest expected return among the
    portfolios that meet the linear constraints and the budget, whose
    volatility is at most the risk target and whose tracking error against
    the benchmark is at most the tracking-error target; an optimal solve
    hands such a [w] over as the first [I] entries. *)
Theorem tracking_error_program_maximises_return
  (I : nat) (means : vec) (cov G : mat) (h : vec) (U : mat) (e_bm : vec)
  (rho tau : R) :
  length means = I -> Forall (is_vec I) G -> length e_bm = I ->
  Cholesky.is_cholesky I (mscale (scalar ^ 2) cov) U ->
  let within_targets := fun w =>
    MeanVariance.admissible I G h w /\
    Validation.portfolio_volatility I cov w <= rho /\
    Validation.tracking_error_volatility I cov w e_bm <= tau in
  let best := fun w =>
    within_targets w /\
    forall y, within_targets y ->
      Validation.expected_return means y <= Validation.expected_return means w in
  (forall x,
     CVX.minimiser
       (TrackingError.program I means G h e_bm (TargetRisk.L U) rho tau) x
     <-> exists w, x = w ++ vsub w e_bm /\ best w) /\
  (forall sol,
     CVX.socp_contract
       (TrackingError.program I means G h e_bm (TargetRisk.L U) rho tau) sol ->
     CVX.sol_status sol = CVX.optimal ->
     exists w, TrackingError.e_star_dual_risk I sol = Ok (Floats w) /\ best w).
Proof.
  intros Hm HG Hbm HU within_targets best.
  assert (Hiff : forall x,
     CVX.minimiser
       (TrackingError.program I means G h e_bm (TargetRisk.L U) rho tau) x
     <-> exists w, x = w ++ vsub w e_bm /\ best w).
  { intros x.
    rewrite (TrackingError_minimiser_iff I means cov G h U e_bm rho tau
               Hm HG Hbm HU x).
    unfold best, within_targets, Validation.expected_return.
    split; intros (w & Hx & Hin & Hmax); exists w; auto. }
  split; [exact Hiff|].
  intros sol Hc Hs; unfold CVX.socp_contract in Hc; rewrite Hs in Hc.
  destruct Hc as (x & Hx & Hmin); apply Hiff in Hmin.
  destruct Hmin as (w & -> & Hbest); exists w; split; [|exact Hbest].
  unfold TrackingError.e_star_dual_risk; rewrite Hx.
  destruct Hbest as [((Hl & _) & _) _]; unfold is_vec in Hl.
  rewrite <- Hl at 1; rewrite firstn_app, Nat.sub_diag, firstn_all.
  simpl; rewrite app_nil_r; reflexivity.
Qed.

(** The two-asset scenario with the equal-weight benchmark. *)
Lemma tracking_error_program_maximises_return_witness :
  length TwoAssets.means = 2%nat /\
  Forall (is_vec 2) TwoAssets.G /\
  length TwoAssets.e_bm = 2%nat /\
  Cholesky.is_cholesky 2 (mscale (scalar ^ 2) TwoAssets.cov) TwoAssets.U /\
  CVX.socp_contract TwoAssets.program2 TwoAssets.solution2 /\
  CVX.sol_status TwoAssets.solution2 = CVX.optimal /\
  exists w,
    TrackingError.e_star_dual_risk 2 TwoAssets.solution2 = Ok (Floats w) /\
    MeanVariance.admissible 2 TwoAssets.G TwoAssets.h w.
Proof.
  pose proof two_assets_G_rows as HG.
  pose proof two_assets_cholesky as HU.
  pose proof two_assets_contract2 as Hc.
  repeat (split; [first [reflexivity | assumption]|]).
  destruct (proj2 (tracking_error_program_maximises_return 2 TwoAssets.means
                     TwoAssets.cov TwoAssets.G TwoAssets.h TwoAssets.U
                     TwoAssets.e_bm
                     (TargetRisk.risk_target 2 TwoAssets.cov TwoAssets.e_star)
                     (TrackingError.te_target 2 TwoAssets.cov TwoAssets.e_star
                        TwoAssets.e_bm)
                     eq_refl HG eq_refl HU)
             TwoAssets.solution2 Hc eq_refl) as (w & Hw & Hbest).
  exists w; split; [exact Hw | apply Hbest].
Defined.

(** ** The tracking-error target *)

Section TrackingErrorTarget.

Lemma vsub_zeros_eq x e :
  length x = length e -> vsub x e = zeros (length x) -> x = e.
Proof.
  unfold vsub, zeros; revert e; induction x as [|a x IH]; intros [|b e] Hl H0;
    simpl in *; try discriminate; [reflexivity|].
  injection H0 as Hhead Htail.
  f_equal; [lra | apply IH; [congruence | exact Htail]].
Qed.

Lemma vsub_self_zeros x : vsub x x = zeros (length x).
Proof.
  unfold vsub, zeros; induction x as [|a x IH]; simpl; [reflexivity|].
  rewrite IH; f_equal; ring.
Qed.

(** Under a covariance with a Cholesky factor the volatility of a
    difference vanishes only for equal vectors. *)
Lemma volatility_difference_zero I cov U w e :
  Cholesky.is_cholesky I (mscale (scalar ^ 2) cov) U ->
  length w = I -> length e = I ->
  (sqrt (quad_form I cov (vsub w e)) <= 0 <-> w = e).
Proof.
  intros HU Hw He; pose proof scalar_pos as Hs.
  assert (Hs0 : scalar <> 0) by lra.
  pose proof (cholesky_quad_form_nonneg I scalar cov U HU (vsub w e) Hs0) as Hq.
  split.
  - intros Hle; pose proof (sqrt_pos (quad_form I cov (vsub w e))) as Hp.
    assert (H0 : sqrt (quad_form I cov (vsub w e)) = 0) by lra.
    apply sqrt_eq_0 in H0; [|exact Hq].
    assert (Hz : vsub w e = zeros I).
    { apply (cholesky_quad_form_definite I scalar cov U HU); [exact Hs0| |lra].
      rewrite vsub_length; congruence. }
    apply vsub_zeros_eq; [congruence | rewrite Hw; exact Hz].
  - intros ->; rewrite vsub_self_zeros, He.
    rewrite quad_form_zeros by (exact (cholesky_cov_rows I scalar cov U HU)).
    rewrite sqrt_0; lra.
Qed.

End TrackingErrorTarget.

(** X6: the tracking-error target that cell 7 computes is never negative,
    and it is zero exactly when the target-risk solution is the benchmark
    itself. *)
Theorem te_target_zero_iff (I : nat) (cov U : mat) (e_star_risk e_bm : vec) :
  Cholesky.is_cholesky I (mscale (scalar ^ 2) cov) U ->
  length e_star_risk = I -> length e_bm = I ->
  0 <= TrackingError.te_target I cov e_star_risk e_bm /\
  (TrackingError.te_target I cov e_star_risk e_bm = 0
   <-> e_star_risk = e_bm).
Proof.
  intros HU Hw Hbm; unfold TrackingError.te_target, TrackingError.te_pf.
  pose proof (sqrt_pos (quad_form I cov (vsub e_star_risk e_bm))) as Hp.
  split; [exact Hp|].
  rewrite <- (volatility_difference_zero I cov U e_star_risk e_bm HU Hw Hbm).
  split; lra.
Qed.

(** The base-case portfolio of the two-asset scenario against the
    equal-weight benchmark. *)
Lemma te_target_zero_iff_witness :
  Cholesky.is_cholesky 2 (mscale (scalar ^ 2) TwoAssets.cov) TwoAssets.U /\
  length TwoAssets.e_star = 2%nat /\ length TwoAssets.e_bm = 2%nat /\
  0 <= TrackingError.te_target 2 TwoAssets.cov TwoAssets.e_star TwoAssets.e_bm.
Proof.
  pose proof two_assets_cholesky as HU.
  split; [exact HU|]. split; [reflexivity|]. split; [reflexivity|].
  exact (proj1 (te_target_zero_iff 2 TwoAssets.cov TwoAssets.U
                  TwoAssets.e_star TwoAssets.e_bm HU eq_refl eq_refl)).
Defined.

(** X7: with a tracking-error target of zero the cone program of cells 8
    to 10 leaves one candidate: it is feasible exactly at the benchmark
    followed by zeros, and only when the benchmark itself meets the linear
    constraints, the budget and the risk target. *)
Theorem zero_tracking_error_pins_benchmark
  (I : nat) (means : vec) (cov G : mat) (h : vec) (U : mat) (e_bm : vec)
  (rho : R) (x : vec) :
  length means = I -> Forall (is_vec I) G -> length e_bm = I ->
  Cholesky.is_cholesky I (mscale (scalar ^ 2) cov) U ->
  (CVX.feasible
     (TrackingError.program I means G h e_bm (TargetRisk.L U) rho 0) x
   <-> x = e_bm ++ zeros I /\
       MeanVariance.admissible I G h e_bm /\
       Validation.portfolio_volatility I cov e_bm <= rho).
Proof.
  intros Hm HG Hbm HU.
  rewrite (TrackingError_feasible_iff I means cov G h U e_bm rho 0
             Hm HG Hbm HU x).
  unfold Validation.tracking_error_volatility, Validation.te_pf_opt.
  split.
  - intros (w & -> & Hadm & Hvol & Hte).
    pose proof Hadm as (Hl & _); unfold is_vec in Hl.
    apply (volatility_difference_zero I cov U w e_bm HU Hl Hbm) in Hte.
    subst w; rewrite vsub_self_zeros, Hbm; auto.
  - intros (-> & Hadm & Hvol); exists e_bm.
    split; [rewrite vsub_self_zeros, Hbm; reflexivity|].
    split; [exact Hadm|]. split; [exact Hvol|].
    apply (volatility_difference_zero I cov U e_bm e_bm HU Hbm Hbm).
    reflexivity.
Qed.

(** The two-asset scenario with the equal-weight benchmark, which is its
    base-case portfolio. *)
Lemma zero_tracking_error_pins_benchmark_witness :
  length TwoAssets.means = 2%nat /\
  Forall (is_vec 2) TwoAssets.G /\
  length TwoAssets.e_bm = 2%nat /\
  Cholesky.is_cholesky 2 (mscale (scalar ^ 2) TwoAssets.cov) TwoAssets.U /\
  (CVX.feasible
     (TrackingError.program 2 TwoAssets.means TwoAssets.G TwoAssets.h
        TwoAssets.e_bm (TargetRisk.L TwoAssets.U) 1 0)
     (TwoAssets.e_bm ++ zeros 2)
   <-> TwoAssets.e_bm ++ zeros 2 = TwoAssets.e_bm ++ zeros 2 /\
       MeanVariance.admissible 2 TwoAssets.G TwoAssets.h TwoAssets.e_bm /\
       Validation.portfolio_volatility 2 TwoAssets.cov TwoAssets.e_bm <= 1).
Proof.
  pose proof two_assets_G_rows as HG.
  pose proof two_assets_cholesky as HU.
  repeat (split; [first [reflexivity | assumption]|]).
  exact (zero_tracking_error_pins_benchmark 2 TwoAssets.means TwoAssets.cov
           TwoAssets.G TwoAssets.h TwoAssets.U TwoAssets.e_bm 1
           (TwoAssets.e_bm ++ zeros 2) eq_refl HG eq_refl HU).
Defined.

(** ** The printed difference as a distance *)

Section DifferenceFacts.

Lemma coord_ext (u v : vec) :
  length u = length v ->
  (forall i, (i < length u)%nat -> Spec.coord u i = Spec.coord v i) -> u = v.
Proof.
  intros Hl Hc; apply (nth_ext u v 0 0 Hl); exact Hc.
Qed.

Lemma max_abs_exposure_difference_empty ref :
  Validation.max_abs_exposure_difference [] ref = Raise ValueError.
Proof. reflexivity. Qed.

End DifferenceFacts.

(** X8: the printed maximum absolute exposure difference of two arrays of
    the same length behaves as a distance: for empty arrays [np.max]
    raises a [ValueError]; otherwise the difference is never negative, is
    zero exactly when the arrays are equal, does not depend on the order of
    the two arrays, and obeys the triangle inequality. *)
Theorem max_abs_exposure_difference_distance (w ref other : vec) :
  length w = length ref -> length other = length w ->
  (w = [] ->
   Validation.max_abs_exposure_difference w ref = Raise ValueError) /\
  (w <> [] ->
   exists d d1 d2,
     Validation.max_abs_exposure_difference w ref = Ok d /\
     0 <= d /\ (d = 0 <-> w = ref) /\
     Validation.max_abs_exposure_difference ref w = Ok d /\
     Validation.max_abs_exposure_difference w other = Ok d1 /\
     Validation.max_abs_exposure_difference other ref = Ok d2 /\
     d <= d1 + d2).
Proof.
  intros Hl Ho; split; [intros ->; reflexivity|].
  intros Hne.
  assert (HI : (0 < length w)%nat) by (destruct w; [contradiction | simpl; lia]).
  destruct (max_abs_exposure_difference_spec (length w) w ref HI eq_refl
              (eq_sym Hl)) as (d & Hd & (i & Hi & Hdi) & Hall).
  destruct (max_abs_exposure_difference_spec (length w) ref w HI
              (eq_sym Hl) eq_refl) as (d' & Hd' & (j & Hj & Hdj) & Hall').
  destruct (max_abs_exposure_difference_spec (length w) w other HI eq_refl Ho)
    as (d1 & Hd1 & _ & Hall1).
  destruct (max_abs_exposure_difference_spec (length w) other ref HI Ho
              (eq_sym Hl)) as (d2 & Hd2 & _ & Hall2).
  assert (Hdd : d' = d).
  { apply Rle_antisym.
    - rewrite Hdj, Rabs_minus_sym; apply Hall; exact Hj.
    - rewrite Hdi, Rabs_minus_sym; apply Hall'; exact Hi. }
  exists d, d1, d2; split; [exact Hd|].
  split; [rewrite Hdi; apply Rabs_pos|].
  split; [|split; [rewrite Hd', Hdd; reflexivity|]].
  - split.
    + intros H0; apply coord_ext; [exact Hl|]; intros k Hk.
      specialize (Hall k Hk); rewrite H0 in Hall.
      pose proof (Rabs_pos (Spec.coord w k - Spec.coord ref k)) as Hp.
      assert (Hz : Rabs (Spec.coord w k - Spec.coord ref k) = 0) by lra.
      destruct (Req_dec (Spec.coord w k - Spec.coord ref k) 0) as [He|He];
        [lra | apply Rabs_no_R0 in He; contradiction].
    + intros <-; rewrite (max_abs_exposure_difference_self w Hne) in Hd.
      injection Hd as Hd; symmetry; exact Hd.
  - split; [exact Hd1|]. split; [exact Hd2|].
    rewrite Hdi; specialize (Hall1 i Hi); specialize (Hall2 i Hi).
    replace (Spec.coord w i - Spec.coord ref i)
      with ((Spec.coord w i - Spec.coord other i)
            + (Spec.coord other i - Spec.coord ref i)) by ring.
    pose proof (Rabs_triang (Spec.coord w i - Spec.coord other i)
                  (Spec.coord other i - Spec.coord ref i)); lra.
Qed.

(** Three portfolios of two assets. *)
Lemma max_abs_exposure_difference_distance_witness :
  length [0.6; 0.4] = length TwoAssets.e_star /\
  length [0.2; 0.8] = length [0.6; 0.4] /\
  ([0.6; 0.4] <> [] ->
   exists d d1 d2,
     Validation.max_abs_exposure_difference [0.6; 0.4] TwoAssets.e_star = Ok d /\
     0 <= d /\ (d = 0 <-> [0.6; 0.4] = TwoAssets.e_star) /\
     Validation.max_abs_exposure_difference TwoAssets.e_star [0.6; 0.4] = Ok d /\
     Validation.max_abs_exposure_difference [0.6; 0.4] [0.2; 0.8] = Ok d1 /\
     Validation.max_abs_exposure_difference [0.2; 0.8] TwoAssets.e_star = Ok d2 /\
     d <= d1 + d2).
Proof.
  split; [reflexivity|]. split; [reflexivity|].
  exact (proj2 (max_abs_exposure_difference_distance [0.6; 0.4]
                  TwoAssets.e_star [0.2; 0.8] eq_refl eq_refl)).
Defined.

(** ** How far the printed figures can be from their targets *)

Section NormFacts.

(** The Cauchy-Schwarz inequality for [@]. *)
Lemma dot_cauchy_schwarz u v : dot u v * dot u v <= dot u u * dot v v.
Proof.
  revert v; induction u as [|a u IH]; intros [|b v]; simpl; try lra.
  specialize (IH v).
  pose proof (dot_self_nonneg u) as HU; pose proof (dot_self_nonneg v) as HV.
  set (s := dot u v) in *; set (U := dot u u) in *; set (V := dot v v) in *.
  set (X := a * a * V + b * b * U); set (Y := 2 * (a * b) * s).
  assert (HX : 0 <= X).
  { pose proof (Rmult_le_pos _ _ (Rle_0_sqr a) HV) as H1.
    pose proof (Rmult_le_pos _ _ (Rle_0_sqr b) HU) as H2.
    unfold Rsqr in *; unfold X; lra. }
  assert (Hsq : Y * Y <= X * X).
  { pose proof (Rle_0_sqr (a * a * V - b * b * U)) as H1.
    assert (H2 : 0 <= 4 * ((a * b) * (a * b)) * (U * V - s * s)).
    { apply Rmult_le_pos; [|lra].
      pose proof (Rle_0_sqr (a * b)) as H; unfold Rsqr in H; lra. }
    unfold Rsqr in H1; unfold X, Y.
    replace ((a * a * V + b * b * U) * (a * a * V + b * b * U))
      with ((a * a * V - b * b * U) * (a * a * V - b * b * U)
            + 4 * (a * b * (a * b)) * (U * V - s * s)
            + 2 * (a * b) * s * (2 * (a * b) * s)) by ring.
    lra. }
  assert (HYX : Y <= X).
  { destruct (Rle_lt_dec Y X) as [Hle|Hlt]; [exact Hle|].
    assert (X * X < Y * Y) by nra; lra. }
  unfold X, Y in HYX; nra.
Qed.

Lemma sqrt_le_of_square x y : 0 <= y -> x <= y * y -> sqrt x <= y.
Proof.
  intros Hy Hx; rewrite <- (sqrt_square y Hy); apply sqrt_le_1_alt; exact Hx.
Qed.

(** The triangle inequality for the Euclidean norm. *)
Lemma norm_triangle a b :
  length a = length b ->
  sqrt (dot (vadd a b) (vadd a b)) <= sqrt (dot a a) + sqrt (dot b b).
Proof.
  intros Hl.
  rewrite dot_vadd_l, !dot_vadd_r by exact Hl.
  pose proof (dot_self_nonneg a) as Ha; pose proof (dot_self_nonneg b) as Hb.
  pose proof (sqrt_pos (dot a a)) as Hp; pose proof (sqrt_pos (dot b b)) as Hq.
  pose proof (sqrt_sqrt _ Ha) as Hpp; pose proof (sqrt_sqrt _ Hb) as Hqq.
  pose proof (dot_cauchy_schwarz a b) as Hcs.
  rewrite (dot_comm b a).
  set (p := sqrt (dot a a)) in *; set (q := sqrt (dot b b)) in *.
  assert (Hab : dot a b <= p * q).
  { destruct (Rle_lt_dec (dot a b) (p * q)) as [Hle|Hlt]; [exact Hle|].
    assert (0 <= p * q) by (apply Rmult_le_pos; assumption).
    assert ((p * q) * (p * q) < dot a b * dot a b) by nra.
    assert ((p * q) * (p * q) = dot a a * dot b b)
      by (rewrite <- Hpp, <- Hqq; ring).
    lra. }
  apply sqrt_le_of_square; [lra|].
  replace ((p + q) * (p + q)) with (p * p + 2 * (p * q) + q * q) by ring.
  lra.
Qed.

Lemma dot_vsub_swap x y :
  dot (vsub y x) (vsub y x) = dot (vsub x y) (vsub x y).
Proof.
  unfold vsub; revert y; induction x as [|a x IH]; intros [|b y]; simpl;
    try reflexivity.
  rewrite IH; ring.
Qed.

Lemma vsub_vsub_same (w r e : vec) :
  length w = length e -> length r = length e ->
  vsub (vsub w e) (vsub r e) = vsub w r.
Proof.
  unfold vsub; revert r e; induction w as [|a w IH]; intros [|b r] [|c e] Hw Hr;
    simpl in *; try discriminate; try reflexivity.
  f_equal; [ring | apply IH; congruence].
Qed.

(** Two vectors of one length: their norms differ by at most the norm of
    their difference. *)
Lemma norm_difference x y :
  length x = length y ->
  Rabs (sqrt (dot x x) - sqrt (dot y y))
  <= sqrt (dot (vsub x y) (vsub x y)).
Proof.
  intros Hl.
  assert (H1 : sqrt (dot x x)
               <= sqrt (dot y y) + sqrt (dot (vsub x y) (vsub x y))).
  { rewrite <- (vadd_vsub_cancel y x) at 1 2 by congruence.
    apply norm_triangle; rewrite vsub_length; congruence. }
  assert (H2 : sqrt (dot y y)
               <= sqrt (dot x x) + sqrt (dot (vsub x y) (vsub x y))).
  { rewrite <- (dot_vsub_swap x y).
    rewrite <- (vadd_vsub_cancel x y) at 1 2 by congruence.
    apply norm_triangle; rewrite vsub_length; congruence. }
  apply Rabs_le; lra.
Qed.

End NormFacts.

Section StabilityFacts.

Import Spec.

Variable I : nat.
Variables (cov U : mat).
Hypothesis HU : Cholesky.is_cholesky I (mscale (scalar ^ 2) cov) U.

Lemma cholesky_cov_shape : is_mat I I cov.
Proof.
  split; [|exact (cholesky_cov_rows I scalar cov U HU)].
  destruct HU as [Hup Hprod].
  assert (Hl : length (mscale (scalar ^ 2) cov) = I).
  { rewrite <- Hprod; unfold mmul; rewrite length_map.
    apply transpose_length, upper_pos_rows; exact Hup. }
  unfold mscale in Hl; rewrite length_map in Hl; exact Hl.
Qed.

(** The volatility is the Euclidean norm of [U w], divided by [scalar]. *)
Lemma volatility_norm w :
  sqrt (dot (matvec U w) (matvec U w))
  = scalar * Validation.portfolio_volatility I cov w.
Proof.
  pose proof scalar_pos as Hs; unfold Validation.portfolio_volatility.
  rewrite <- (cholesky_quad_form I scalar cov U HU).
  rewrite sqrt_mult_alt by (apply pow2_ge_0).
  rewrite sqrt_pow2 by lra; reflexivity.
Qed.

(** Two portfolios: their volatilities differ by at most the volatility of
    their difference. *)
Lemma volatility_difference w ref :
  length w = I -> length ref = I ->
  Rabs (Validation.portfolio_volatility I cov w
        - Validation.portfolio_volatility I cov ref)
  <= Validation.portfolio_volatility I cov (vsub w ref).
Proof.
  intros Hw Href; pose proof scalar_pos as Hs.
  pose proof (norm_difference (matvec U w) (matvec U ref)) as Hn.
  rewrite <- matvec_vsub, !volatility_norm in Hn by congruence.
  specialize (Hn ltac:(rewrite !matvec_length; reflexivity)).
  rewrite <- Rmult_minus_distr_l, Rabs_mult, (Rabs_pos_eq scalar) in Hn
    by lra.
  apply Rmult_le_reg_l with (1 := Hs); exact Hn.
Qed.

Lemma sum_upto_le n f g :
  (forall i, (i < n)%nat -> f i <= g i) -> sum_upto n f <= sum_upto n g.
Proof.
  revert f g; induction n as [|n IH]; intros f g Hfg; simpl; [lra|].
  pose proof (Hfg O ltac:(lia)).
  pose proof (IH (fun i => f (S i)) (fun i => g (S i))
                ltac:(intros i Hi; apply Hfg; lia)).
  lra.
Qed.

Lemma sum_upto_abs_le n f g :
  (forall i, (i < n)%nat -> Rabs (f i) <= g i) ->
  Rabs (sum_upto n f) <= sum_upto n g.
Proof.
  revert f g; induction n as [|n IH]; intros f g Hfg; simpl.
  - rewrite Rabs_R0; lra.
  - pose proof (Hfg O ltac:(lia)).
    pose proof (IH (fun i => f (S i)) (fun i => g (S i))
                  ltac:(intros i Hi; apply Hfg; lia)).
    pose proof (Rabs_triang (f O) (sum_upto n (fun i => f (S i)))); lra.
Qed.

(** A vector whose entries are at most [d] in absolute value has a
    volatility of at most [d] times the root of the sum of the absolute
    entries of the covariance. *)
Lemma volatility_bound v d :
  length v = I -> 0 <= d ->
  (forall i, (i < I)%nat -> Rabs (coord v i) <= d) ->
  Validation.portfolio_volatility I cov v
  <= sqrt (sum_upto I (fun i => sum_upto I (fun j => Rabs (entry cov i j))))
     * d.
Proof.
  intros Hv Hd Hall; unfold Validation.portfolio_volatility.
  rewrite quad_form_quadratic by (exact cholesky_cov_shape || exact Hv).
  set (T := sum_upto I (fun i => sum_upto I (fun j => Rabs (entry cov i j)))).
  assert (HT : 0 <= T).
  { unfold T; replace 0 with (sum_upto I (fun _ => 0)).
    - apply sum_upto_le; intros i _.
      replace 0 with (sum_upto I (fun _ => 0)).
      + apply sum_upto_le; intros j _; apply Rabs_pos.
      + clear; induction I as [|n IH]; simpl; [reflexivity|rewrite IH; ring].
    - clear; induction I as [|n IH]; simpl; [reflexivity|rewrite IH; ring]. }
  assert (Hq : quadratic I cov (coord v) <= (d * d) * T).
  { unfold quadratic, T; rewrite <- sum_upto_scale.
    apply sum_upto_le; intros i Hi; rewrite <- sum_upto_scale.
    apply sum_upto_le; intros j Hj.
    pose proof (Hall i Hi) as Hvi; pose proof (Hall j Hj) as Hvj.
    pose proof (Rabs_pos (coord v i)); pose proof (Rabs_pos (coord v j)).
    pose proof (Rabs_pos (entry cov i j)) as He.
    apply Rle_trans with (1 := Rle_abs _).
    rewrite !Rabs_mult.
    assert (Rabs (coord v i) * Rabs (entry cov i j)
            <= d * Rabs (entry cov i j))
      by (apply Rmult_le_compat_r; assumption).
    assert (Rabs (coord v i) * Rabs (entry cov i j) * Rabs (coord v j)
            <= d * Rabs (entry cov i j) * d).
    { apply Rmult_le_compat; try assumption.
      apply Rmult_le_pos; assumption. }
    lra. }
  apply sqrt_le_of_square.
  - apply Rmult_le_pos; [apply sqrt_pos | exact Hd].
  - replace (sqrt T * d * (sqrt T * d)) with (d * d * (sqrt T * sqrt T))
      by ring.
    rewrite sqrt_sqrt by exact HT; exact Hq.
Qed.

(** And its product with the means is at most [d] times the sum of their
    absolute values. *)
Lemma return_bound means v d :
  length means = I -> length v = I ->
  (forall i, (i < I)%nat -> Rabs (coord v i) <= d) ->
  Rabs (dot means v) <= sum_upto I (fun i => Rabs (coord means i)) * d.
Proof.
  intros Hm Hv Hall.
  rewrite (dot_sum_upto I) by assumption.
  rewrite Rmult_comm, <- sum_upto_scale.
  apply sum_upto_abs_le; intros i Hi.
  rewrite Rabs_mult, Rmult_comm.
  apply Rmult_le_compat_r; [apply Rabs_pos | apply Hall; exact Hi].
Qed.

End StabilityFacts.

(** X9: whatever arrays the solves return, the figures that cells 6 and 11
    print stay as close to their targets as the printed exposure
    difference [d] allows: the printed volatility differs from the
    volatility of the reference portfolio (the risk target, in cell 6) by
    at most [K d], the printed tracking error from the tracking error of
    the reference portfolio (the tracking-error target, in cell 11) by at
    most [K d], and the printed expected return from that of the reference
    portfolio by at most [M d], where [K] is the root of the sum of the
    absolute entries of the covariance and [M] the sum of the absolute
    means. *)
Theorem validation_figures_stability
  (I : nat) (means : vec) (cov U : mat) (w ref e_bm : vec) :
  (0 < I)%nat -> length means = I ->
  Cholesky.is_cholesky I (mscale (scalar ^ 2) cov) U ->
  length w = I -> length ref = I -> length e_bm = I ->
  let K :=
    sqrt (Spec.sum_upto I (fun i =>
            Spec.sum_upto I (fun j => Rabs (Spec.entry cov i j)))) in
  let M := Spec.sum_upto I (fun i => Rabs (Spec.coord means i)) in
  exists d,
    Validation.max_abs_exposure_difference w ref = Ok d /\
    0 <= d /\
    Rabs (Validation.portfolio_volatility I cov w
          - TargetRisk.risk_target I cov ref) <= K * d /\
    Rabs (Validation.tracking_error_volatility I cov w e_bm
          - TrackingError.te_target I cov ref e_bm) <= K * d /\
    Rabs (Validation.expected_return means w
          - Validation.expected_return means ref) <= M * d.
Proof.
  intros HI Hm HU Hw Href Hbm K M.
  destruct (max_abs_exposure_difference_spec I w ref HI Hw Href)
    as (d & Hd & (i0 & Hi0 & Hd0) & Hmax).
  assert (Hd_pos : 0 <= d) by (rewrite Hd0; apply Rabs_pos).
  assert (Hlen : length (vsub w ref) = I)
    by (rewrite vsub_length; congruence).
  assert (Hall : forall i, (i < I)%nat ->
            Rabs (Spec.coord (vsub w ref) i) <= d).
  { intros i Hi; rewrite coord_vsub by congruence; apply Hmax; exact Hi. }
  pose proof (volatility_bound I cov U HU (vsub w ref) d Hlen Hd_pos Hall)
    as Hvol.
  exists d; split; [exact Hd|]. split; [exact Hd_pos|].
  split; [|split].
  - unfold TargetRisk.risk_target.
    fold (Validation.portfolio_volatility I cov ref).
    apply Rle_trans with (2 := Hvol).
    apply (volatility_difference I cov U HU); assumption.
  - unfold Validation.tracking_error_volatility, Validation.te_pf_opt,
      TrackingError.te_target, TrackingError.te_pf.
    fold (Validation.portfolio_volatility I cov (vsub w e_bm)).
    fold (Validation.portfolio_volatility I cov (vsub ref e_bm)).
    apply Rle_trans with (2 := Hvol).
    rewrite <- (vsub_vsub_same w ref e_bm) by congruence.
    apply (volatility_difference I cov U HU);
      rewrite vsub_length; congruence.
  - unfold Validation.expected_return.
    rewrite <- dot_vsub_r by congruence.
    apply (return_bound I); assumption.
Qed.

(** Two assets, the weights [0.6, 0.4] against the base case
    [0.5, 0.5]: the printed difference is positive. *)
Lemma validation_figures_stability_witness :
  (0 < 2)%nat /\ length TwoAssets.means = 2%nat /\
  Cholesky.is_cholesky 2 (mscale (scalar ^ 2) TwoAssets.cov) TwoAssets.U /\
  length [0.6; 0.4] = 2%nat /\ length TwoAssets.e_star = 2%nat /\
  length TwoAssets.tilted_benchmark = 2%nat /\
  exists d,
    Validation.max_abs_exposure_difference [0.6; 0.4] TwoAssets.e_star
    = Ok d /\
    Rabs (Validation.portfolio_volatility 2 TwoAssets.cov [0.6; 0.4]
          - TargetRisk.risk_target 2 TwoAssets.cov TwoAssets.e_star)
    <= sqrt (Spec.sum_upto 2 (fun i =>
               Spec.sum_upto 2 (fun j =>
                 Rabs (Spec.entry TwoAssets.cov i j)))) * d.
Proof.
  pose proof two_assets_cholesky as HU.
  split; [lia|].
  repeat (split; [first [reflexivity | exact HU]|]).
  destruct (validation_figures_stability 2 TwoAssets.means TwoAssets.cov
              TwoAssets.U [0.6; 0.4] TwoAssets.e_star
              TwoAssets.tilted_benchmark (Nat.lt_0_succ 1) eq_refl HU
              eq_refl eq_refl eq_refl) as (d & Hd & _ & Hvol & _).
  exists d; split; [exact Hd | exact Hvol].
Defined.

(** ** The allocation table *)

Section RoundingFacts.

Import Table.

Lemma rint_cases x :
  (rint x = Zfloor x \/ rint x = (Zfloor x + 1)%Z) /\
  Rabs (IZR (rint x) - x) <= 1 / 2.
Proof.
  unfold rint; pose proof (Zfloor_bound x) as [Hlo Hhi].
  set (f := Zfloor x) in *.
  destruct (Rlt_dec (x - IZR f) (1 / 2)) as [H1|H1].
  - split; [left; reflexivity|].
    rewrite Rabs_minus_sym, Rabs_pos_eq; lra.
  - destruct (Rlt_dec (1 / 2) (x - IZR f)) as [H2|H2].
    + split; [right; reflexivity|].
      rewrite plus_IZR, Rabs_pos_eq; simpl; lra.
    + destruct (Z.even f); [split; [left; reflexivity|]|split; [right; reflexivity|]].
      * rewrite Rabs_minus_sym, Rabs_pos_eq; lra.
      * rewrite plus_IZR, Rabs_pos_eq; simpl; lra.
Qed.

Lemma rint_IZR k : rint (IZR k) = k.
Proof.
  unfold rint; rewrite ZfloorZ.
  destruct (Rlt_dec (IZR k - IZR k) (1 / 2)) as [H|H]; [reflexivity | lra].
Qed.

Lemma rint_le x y : x <= y -> (rint x <= rint y)%Z.
Proof.
  intros Hxy; pose proof (Zfloor_le x y Hxy) as Hf.
  destruct (rint_cases x) as [Hx _]; destruct (rint_cases y) as [Hy _].
  destruct (Z.eq_dec (Zfloor x) (Zfloor y)) as [Heq|Hne]; [|lia].
  unfold rint in *; rewrite <- Heq in *.
  set (f := Zfloor x) in *.
  destruct (Rlt_dec (x - IZR f) (1 / 2)) as [H1|H1].
  - destruct (Rlt_dec (y - IZR f) (1 / 2)); [lia|].
    destruct (Rlt_dec (1 / 2) (y - IZR f)); [lia|].
    destruct (Z.even f); lia.
  - destruct (Rlt_dec (y - IZR f) (1 / 2)) as [H3|H3]; [lra|].
    destruct (Rlt_dec (1 / 2) (x - IZR f)) as [H2|H2].
    + destruct (Rlt_dec (1 / 2) (y - IZR f)) as [H4|H4]; [lia | lra].
    + destruct (Rlt_dec (1 / 2) (y - IZR f)) as [H4|H4];
        destruct (Z.even f); lia.
Qed.

Lemma pow10_pos n : 0 < 10 ^ n.
Proof. apply pow_lt; lra. Qed.

(** Rounding to [n] decimals moves a number by at most half a unit of the
    last decimal. *)
Lemma np_round_error x n : Rabs (np_round x n - x) <= / (2 * 10 ^ n).
Proof.
  unfold np_round; pose proof (pow10_pos n) as Hp.
  destruct (rint_cases (x * 10 ^ n)) as [_ Herr].
  replace (IZR (rint (x * 10 ^ n)) / 10 ^ n - x)
    with ((IZR (rint (x * 10 ^ n)) - x * 10 ^ n) * / 10 ^ n)
    by (field; lra).
  rewrite Rabs_mult, (Rabs_pos_eq (/ 10 ^ n))
    by (left; apply Rinv_0_lt_compat; exact Hp).
  rewrite Rinv_mult.
  apply Rle_trans with (1 / 2 * / 10 ^ n); [|lra].
  apply Rmult_le_compat_r; [left; apply Rinv_0_lt_compat; exact Hp | exact Herr].
Qed.

Lemma np_round_grid k n : np_round (IZR k / 10 ^ n) n = IZR k / 10 ^ n.
Proof.
  unfold np_round; pose proof (pow10_pos n) as Hp.
  replace (IZR k / 10 ^ n * 10 ^ n) with (IZR k) by (field; lra).
  rewrite rint_IZR; reflexivity.
Qed.

Lemma np_round_idempotent x n : np_round (np_round x n) n = np_round x n.
Proof. unfold np_round at 2 3; apply np_round_grid. Qed.

Lemma np_round_le x y n : x <= y -> np_round x n <= np_round y n.
Proof.
  intros Hxy; unfold np_round; pose proof (pow10_pos n) as Hp.
  apply Rmult_le_compat_r; [left; apply Rinv_0_lt_compat; exact Hp|].
  apply IZR_le, rint_le, Rmult_le_compat_r; lra.
Qed.

End RoundingFacts.

Section TableFacts.

Import Table.

Lemma rint_small x : Rabs x < 1 / 2 -> rint x = 0%Z.
Proof.
  intros Hx; destruct (rint_cases x) as [_ Herr].
  assert (Hk : Rabs (IZR (rint x)) < 1).
  { replace (IZR (rint x)) with ((IZR (rint x) - x) + x) by ring.
    pose proof (Rabs_triang (IZR (rint x) - x) x); lra. }
  apply Rabs_def2 in Hk; destruct Hk as [Hlt Hgt].
  apply lt_IZR in Hlt; rewrite <- opp_IZR in Hgt.
  apply lt_IZR in Hgt; lia.
Qed.

Lemma as_column_length v : length (as_column v) = length v.
Proof. apply length_map. Qed.

Lemma nth_as_column v i :
  (i < length v)%nat -> nth i (as_column v) [] = [Spec.coord v i].
Proof.
  intros Hi; unfold as_column, Spec.coord.
  rewrite (nth_indep _ [] [0]) by (rewrite length_map; exact Hi).
  apply (map_nth (fun x => [x]) v 0 i).
Qed.

Lemma hstack_length (M N : mat) :
  length M = length N -> length (hstack M N) = length M.
Proof. apply zipWith_length. Qed.

Lemma nth_hstack (M N : mat) i :
  length M = length N -> (i < length M)%nat ->
  nth i (hstack M N) [] = nth i M [] ++ nth i N [].
Proof.
  unfold hstack; revert N i; induction M as [|r M IH]; intros [|s N] [|i] Hl Hi;
    simpl in *; try discriminate; try lia; [reflexivity|].
  apply IH; lia.
Qed.

(** [np.hstack] of the four columns succeeds exactly when they have the
    same length; its rows then list the four entries side by side. *)
Lemma results_ok a b c d :
  length b = length a -> length c = length a -> length d = length a ->
  exists res, results a b c d = Ok res /\ length res = length a /\
    forall i, (i < length a)%nat ->
      nth i res [] = [Spec.coord a i; Spec.coord b i;
                      Spec.coord c i; Spec.coord d i].
Proof.
  intros Hb Hc Hd; unfold results, np_hstack; cbn [forallb].
  rewrite !as_column_length, Hb, Hc, Hd, Nat.eqb_refl; cbn [andb fold_left].
  eexists; split; [reflexivity|].
  assert (H1 : length (hstack (as_column a) (as_column b)) = length a)
    by (rewrite hstack_length; rewrite !as_column_length; congruence).
  assert (H2 : length (hstack (hstack (as_column a) (as_column b))
                         (as_column c)) = length a)
    by (rewrite hstack_length; rewrite ?as_column_length; congruence).
  split; [rewrite hstack_length; rewrite ?as_column_length; congruence|].
  intros i Hi.
  rewrite !nth_hstack, !nth_as_column
    by (rewrite ?as_column_length; congruence || lia).
  reflexivity.
Qed.

Lemma results_raise a b c d :
  ~ (length b = length a /\ length c = length a /\ length d = length a) ->
  results a b c d = Raise ValueError.
Proof.
  intros Hne; unfold results, np_hstack; cbn [forallb].
  rewrite !as_column_length.
  destruct (Nat.eqb_spec (length b) (length a)) as [Hb|Hb]; [|reflexivity].
  destruct (Nat.eqb_spec (length c) (length a)) as [Hc|Hc]; [|reflexivity].
  destruct (Nat.eqb_spec (length d) (length a)) as [Hd|Hd]; [|reflexivity].
  contradiction Hne; auto.
Qed.

Lemma nth_map_map (f : R -> R) (M : mat) i :
  nth i (map (map f) M) [] = map f (nth i M []).
Proof. apply (map_nth (map f) M [] i). Qed.

Lemma rows_of_four (M : mat) n :
  length M = n ->
  (forall i, (i < n)%nat -> length (nth i M []) = 4%nat) ->
  forallb (fun row => Nat.eqb (length row) 4) M = true.
Proof.
  intros Hl Hrows; apply forallb_forall; intros row Hin.
  destruct (In_nth M row [] Hin) as (i & Hi & <-).
  apply Nat.eqb_eq, Hrows; lia.
Qed.

End TableFacts.

Section AllocationFacts.

Import Table.

Variable names : list string.
Variables e_star e_star_risk e_star_dual_risk e_bm : vec.

Let fits : Prop :=
  length e_star = length names /\ length e_star_risk = length names /\
  length e_star_dual_risk = length names /\ length e_bm = length names.

Lemma allocation_raise :
  ~ fits ->
  allocation names e_star e_star_risk e_star_dual_risk e_bm = Raise ValueError.
Proof.
  unfold fits; intros Hne; unfold allocation.
  destruct (Nat.eq_dec (length e_star_risk) (length e_star)) as [Hb|Hb];
    [|rewrite results_raise by tauto; reflexivity].
  destruct (Nat.eq_dec (length e_star_dual_risk) (length e_star)) as [Hc|Hc];
    [|rewrite results_raise by tauto; reflexivity].
  destruct (Nat.eq_dec (length e_bm) (length e_star)) as [Hd|Hd];
    [|rewrite results_raise by tauto; reflexivity].
  destruct (results_ok e_star e_star_risk e_star_dual_risk e_bm Hb Hc Hd)
    as (res & -> & Hl & _).
  unfold make_frame; rewrite length_map, Hl.
  destruct (Nat.eqb_spec (length names) (length e_star)) as [Heq|Hneq];
    [|reflexivity].
  contradiction Hne; repeat split; congruence.
Qed.

Lemma allocation_ok :
  fits ->
  exists df,
    allocation names e_star e_star_risk e_star_dual_risk e_bm = Ok df /\
    df_index df = names /\
    df_columns df = columns /\
    length (df_values df) = length names /\
    forall i, (i < length names)%nat ->
      nth i (df_values df) []
      = [np_round (100 * Spec.coord e_star i) 2;
         np_round (100 * Spec.coord e_star_risk i) 2;
         np_round (100 * Spec.coord e_star_dual_risk i) 2;
         np_round (100 * Spec.coord e_bm i) 2].
Proof.
  unfold fits; intros (Ha & Hb & Hc & Hd); unfold allocation.
  destruct (results_ok e_star e_star_risk e_star_dual_risk e_bm)
    as (res & -> & Hl & Hrows); try congruence.
  assert (Hvals : forall i, (i < length names)%nat ->
            nth i (map (map (fun x => np_round (100 * x) 2)) res) []
            = [np_round (100 * Spec.coord e_star i) 2;
               np_round (100 * Spec.coord e_star_risk i) 2;
               np_round (100 * Spec.coord e_star_dual_risk i) 2;
               np_round (100 * Spec.coord e_bm i) 2]).
  { intros i Hi; rewrite nth_map_map, Hrows by lia; reflexivity. }
  unfold make_frame; rewrite length_map, Hl, Ha, Nat.eqb_refl.
  rewrite (rows_of_four _ (length names))
    by (rewrite ?length_map; try congruence;
        intros i Hi; rewrite Hvals by exact Hi; reflexivity).
  eexists; split; [reflexivity|]; cbn.
  rewrite length_map; repeat split; try congruence; exact Hvals.
Qed.

(** What a table that was built holds. *)
Lemma allocation_inv df i :
  allocation names e_star e_star_risk e_star_dual_risk e_bm = Ok df ->
  (i < length names)%nat ->
  nth i (df_values df) []
  = [np_round (100 * Spec.coord e_star i) 2;
     np_round (100 * Spec.coord e_star_risk i) 2;
     np_round (100 * Spec.coord e_star_dual_risk i) 2;
     np_round (100 * Spec.coord e_bm i) 2].
Proof.
  intros Hdf Hi.
  assert (Hfits : fits).
  { unfold fits.
    destruct (Nat.eq_dec (length e_star) (length names));
    destruct (Nat.eq_dec (length e_star_risk) (length names));
    destruct (Nat.eq_dec (length e_star_dual_risk) (length names));
    destruct (Nat.eq_dec (length e_bm) (length names)); try tauto;
    rewrite allocation_raise in Hdf by (unfold fits; tauto);
    discriminate Hdf. }
  destruct (allocation_ok Hfits) as (df' & Hdf' & _ & _ & _ & Hvals).
  rewrite Hdf in Hdf'; injection Hdf' as <-; apply Hvals; exact Hi.
Qed.

End AllocationFacts.

Section FigureRounding.

Import Table.

Lemma shown_error x : Rabs (np_round (100 * x) 2 - 100 * x) <= 0.005.
Proof.
  pose proof (np_round_error (100 * x) 2) as H.
  replace (/ (2 * 10 ^ 2)) with 0.005 in H by (simpl; lra); exact H.
Qed.

Lemma shown_equal x y :
  np_round (100 * x) 2 = np_round (100 * y) 2 -> Rabs (x - y) <= 0.0001.
Proof.
  intros Heq; pose proof (shown_error x) as Hx; pose proof (shown_error y) as Hy.
  rewrite Heq in Hx.
  unfold Rabs in *.
  repeat match goal with
         | H : context [Rcase_abs ?a] |- _ => destruct (Rcase_abs a)
         | |- context [Rcase_abs ?a] => destruct (Rcase_abs a)
         end; lra.
Qed.

End FigureRounding.

(** X10: cell 12 builds its table exactly when the four portfolios and the
    list of names have the same length, and raises a [ValueError]
    otherwise; the table then has the names as index, the four column
    labels, one row per asset, and in row [i] the four weights of asset
    [i] times 100, each rounded to two decimals. *)
Theorem allocation_table_shape
  (names : list string) (e_star e_star_risk e_star_dual_risk e_bm : vec) :
  let fits :=
    length e_star = length names /\ length e_star_risk = length names /\
    length e_star_dual_risk = length names /\ length e_bm = length names in
  (~ fits ->
   Table.allocation names e_star e_star_risk e_star_dual_risk e_bm
   = Raise ValueError) /\
  (fits ->
   exists df,
     Table.allocation names e_star e_star_risk e_star_dual_risk e_bm = Ok df /\
     Table.df_index df = names /\
     Table.df_columns df = Table.columns /\
     length (Table.df_values df) = length names /\
     forall i, (i < length names)%nat ->
       nth i (Table.df_values df) []
       = [Table.np_round (100 * Spec.coord e_star i) 2;
          Table.np_round (100 * Spec.coord e_star_risk i) 2;
          Table.np_round (100 * Spec.coord e_star_dual_risk i) 2;
          Table.np_round (100 * Spec.coord e_bm i) 2]).
Proof.
  intros fits; split; [apply allocation_raise | apply allocation_ok].
Qed.

(** X11: every figure of the table is within 0.005 of the weight times
    100; so when two columns show the same figure for an asset, the two
    weights differ by at most 0.0001. *)
Theorem allocation_table_rounding
  (names : list string) (e_star e_star_risk e_star_dual_risk e_bm : vec)
  (df : Table.DataFrame) (i : nat) :
  Table.allocation names e_star e_star_risk e_star_dual_risk e_bm = Ok df ->
  (i < length names)%nat ->
  let row := nth i (Table.df_values df) [] in
  Rabs (nth 0 row 0 - 100 * Spec.coord e_star i) <= 0.005 /\
  Rabs (nth 1 row 0 - 100 * Spec.coord e_star_risk i) <= 0.005 /\
  Rabs (nth 2 row 0 - 100 * Spec.coord e_star_dual_risk i) <= 0.005 /\
  Rabs (nth 3 row 0 - 100 * Spec.coord e_bm i) <= 0.005 /\
  (nth 0 row 0 = nth 1 row 0 ->
   Rabs (Spec.coord e_star i - Spec.coord e_star_risk i) <= 0.0001) /\
  (nth 1 row 0 = nth 2 row 0 ->
   Rabs (Spec.coord e_star_risk i - Spec.coord e_star_dual_risk i)
   <= 0.0001).
Proof.
  intros Hdf Hi row; unfold row.
  rewrite (allocation_inv names e_star e_star_risk e_star_dual_risk e_bm
             df i Hdf Hi); cbn [nth].
  repeat split; try apply shown_error; apply shown_equal.
Qed.

(** Two assets, the base-case portfolio of the two-asset scenario in the
    three portfolio columns. *)
Lemma allocation_table_rounding_witness :
  exists df,
    Table.allocation ["A"%string; "B"%string] TwoAssets.e_star
      TwoAssets.e_star TwoAssets.e_star TwoAssets.e_bm = Ok df /\
    (0 < length ["A"%string; "B"%string])%nat /\
    Rabs (nth 0 (nth 0 (Table.df_values df) []) 0
          - 100 * Spec.coord TwoAssets.e_star 0) <= 0.005.
Proof.
  eexists; split; [reflexivity|]. split; [simpl; lia|].
  exact (proj1 (allocation_table_rounding ["A"%string; "B"%string]
                  TwoAssets.e_star TwoAssets.e_star TwoAssets.e_star
                  TwoAssets.e_bm _ 0%nat eq_refl (Nat.lt_0_succ 1))).
Defined.

(** X12: the figures of the table keep the order of the weights, show
    every weight that is a whole multiple of 0.0001 exactly (so a weight
    at the 25% bound shows as 25), show a weight of absolute value below
    0.00005 as 0, and are not changed by a second rounding; yet two weights
    closer than 1e-6 can show different figures. *)
Theorem allocation_table_figures :
  (forall x y,
     x <= y -> Table.np_round (100 * x) 2 <= Table.np_round (100 * y) 2) /\
  (forall k,
     Table.np_round (100 * (IZR k / 10000)) 2 = 100 * (IZR k / 10000)) /\
  Table.np_round (100 * 0.25) 2 = 25 /\
  (forall x, Rabs x < 0.00005 -> Table.np_round (100 * x) 2 = 0) /\
  (forall x,
     Table.np_round (Table.np_round (100 * x) 2) 2
     = Table.np_round (100 * x) 2) /\
  (exists x y,
     Rabs (x - y) < 1e-6 /\
     Table.np_round (100 * x) 2 <> Table.np_round (100 * y) 2).
Proof.
  assert (Hgrid : forall k,
            Table.np_round (100 * (IZR k / 10000)) 2 = 100 * (IZR k / 10000)).
  { intros k.
    replace (100 * (IZR k / 10000)) with (IZR k / 10 ^ 2) by (simpl; field).
    apply np_round_grid. }
  split; [intros x y Hxy; apply np_round_le; lra|].
  split; [exact Hgrid|].
  split.
  { replace (100 * 0.25) with (100 * (IZR 2500 / 10000)) by lra.
    rewrite Hgrid; lra. }
  split.
  { intros x Hx; unfold Table.np_round.
    rewrite rint_small; [simpl; lra|].
    replace (100 * x * 10 ^ 2) with (10000 * x) by (simpl; ring).
    rewrite Rabs_mult, (Rabs_pos_eq 10000) by lra; lra. }
  split; [intros x; apply np_round_idempotent|].
  exists 0.0000499, 0.0000501; split.
  - rewrite Rabs_minus_sym, Rabs_pos_eq; lra.
  - unfold Table.np_round.
    rewrite (rint_small (100 * 0.0000499 * 10 ^ 2))
      by (rewrite Rabs_pos_eq; simpl; lra).
    assert (Hf : Zfloor (100 * 0.0000501 * 10 ^ 2) = 0%Z)
      by (apply Zfloor_eq; simpl; lra).
    unfold Table.rint; rewrite Hf.
    destruct (Rlt_dec (100 * 0.0000501 * 10 ^ 2 - IZR 0) (1 / 2)) as [H|H];
      [simpl in H; lra|].
    destruct (Rlt_dec (1 / 2) (100 * 0.0000501 * 10 ^ 2 - IZR 0)) as [H'|H'];
      [|simpl in H'; lra].
    simpl; lra.
Qed.
